(** * xsum: the multi-algorithm hashing engine and its cache

    A shallow embedding of package [xsum] (the hashing engine: [NewServer],
    [NumberOfWorkers], [NewHash], [hashImpl], [hashFile], [Parallel],
    [Close]), of the extended-attribute cache of [cmd/xsum/cache.go], of
    package [attrutil] ([attrutil/xattr.go]), and of the writers of
    [cmd/xsum] ([csvWriter], [jsonWriter]) with the callback that [doXsum]
    gives to [Parallel].

    Conventions.
    - A Go [int] is a [Z]; a [[]byte] is a [list byte]; a Go [error] is an
      [option string] ([None] is [nil]); a Go map that may be [nil] is an
      [option (gmap string _)].
    - A call that may panic returns an [outcome].
    - A [for ... range m] over a map visits every entry once, in an order
      the language leaves open: every such loop runs over [range ro m] for
      an arbitrary enumeration [ro].
    - The digest primitives ([hash.Hash] values), the operating system and
      the [Cache] are interfaces of the code: they are classes and records
      here, and every theorem holds for all their instances. *)

From Stdlib Require Import ZArith Lia.
From Stdlib.Strings Require Import Byte Ascii String.
From stdpp Require Import base option list gmap gmultiset strings relations pretty.

Local Open Scope string_scope.
Local Open Scope list_scope.

(** ** Basic types *)

Abbreviation bytes := (list Byte.byte).
Abbreviation error := (option string).

(** A Go map value: [None] is the nil map, which reads as an empty map. *)
Abbreviation gomap := (option (gmap string bytes)).

(** [_, ok := sums[k]] *)
Definition gomap_has (sums : gomap) (k : string) : bool :=
  match sums with
  | None => false
  | Some m => bool_decide (is_Some (m !! k))
  end.

(** Result of a call that can panic. *)
Inductive outcome (A : Type) : Type :=
| Ret (a : A)
| Panic (msg : string).
Arguments Ret {A} a.
Arguments Panic {A} msg.

(** ** Iteration order of [range] over a map *)

Record RangeOrder := {
  range : ∀ {V : Type}, gmap string V → list (string * V);
  range_perm : ∀ (V : Type) (m : gmap string V), range m ≡ₚ map_to_list m
}.

(** One admissible order: the map's own listing. *)
Definition listing_order : RangeOrder :=
  {| range := λ V m, map_to_list m;
     range_perm := λ V m, reflexivity (map_to_list m) |}.

(** Another one: the same listing backwards. *)
Definition reverse_order : RangeOrder :=
  {| range := λ V m, reverse (map_to_list m);
     range_perm := λ V m, reverse_Permutation (map_to_list m) |}.

(** ** [hash.Hash]: a digest primitive *)

Class hash_Hash (D : Type) := {
  (** [Write(p) (n int, err error)], with the primitive's new state *)
  prim_Write : D → bytes → D * (Z * error);
  (** [Sum(b)]: [b] followed by the digest of the bytes absorbed so far;
      leaves the state as it is *)
  prim_Sum : D → bytes → bytes;
  prim_Reset : D → D;
  prim_Size : D → Z;
  prim_BlockSize : D → Z
}.

(** ** The engine *)

Section Engine.

Context {D : Type} `{HD : hash_Hash D}.

(** [type NewHashFunc func() hash.Hash] *)
Definition NewHashFunc : Type := unit → D.

(** The constructors of the imported implementations, and the CPU feature
    test [hasAvx512]. *)
Record Primitives := {
  md5simd_NewHash : NewHashFunc;        (* md5Srv.NewHash *)
  sha256simd_NewAvx512 : NewHashFunc;   (* sha256simd.NewAvx512(sha256Srv) *)
  sha256simd_New : NewHashFunc;
  sha1_New : NewHashFunc;
  sha512_New : NewHashFunc;
  hasAvx512 : bool
}.

(** The environment the engine runs in: the operating system, as far as
    the engine and its cache use it.  [os_Open e f] is [os.Open(f)]
    followed by the reads [io.Copy] issues: either the error of [Open], or
    what the successive [Read] calls deliver, a list of chunks ended by
    [io.EOF] ([None]) or by a read error. *)
Class Env (E : Type) := {
  os_Open : E → string → E * ((list bytes * error) + string)
}.

Context {E : Type} `{HE : Env E}.

(** [type Cache interface] *)
Record Cache := {
  Cache_Get : E → string → outcome (E * (gomap * error));
  Cache_Set : E → string → gomap → outcome (E * error)
}.

Record serverImpl := {
  cache : option Cache;
  algorithms : gmap string NewHashFunc;
  closers : list (unit → error)
}.

Definition set_algorithm (srv : serverImpl) (k : string) (f : NewHashFunc) : serverImpl :=
  {| cache := cache srv; algorithms := <[k := f]> (algorithms srv); closers := closers srv |}.

Definition add_closer (srv : serverImpl) (c : unit → error) : serverImpl :=
  {| cache := cache srv; algorithms := algorithms srv; closers := closers srv ++ [c] |}.

Variable P : Primitives.

(** The body of the loop of [NewServer]: [inr] is the early
    [return nil, fmt.Errorf("unknown algorithm: %s", algorithm)]. *)
Definition NewServer_case (srv : serverImpl) (algorithm : string) : serverImpl + string :=
  if String.eqb algorithm "md5" then
    inl (add_closer (set_algorithm srv "md5" (md5simd_NewHash P)) (λ _, None))
  else if String.eqb algorithm "sha256" then
    if hasAvx512 P then inl (set_algorithm srv "sha256" (sha256simd_NewAvx512 P))
    else inl (set_algorithm srv "sha256" (sha256simd_New P))
  else if String.eqb algorithm "sha1" then
    inl (set_algorithm srv "sha1" (sha1_New P))
  else if String.eqb algorithm "sha512" then
    inl (set_algorithm srv "sha512" (sha512_New P))
  else inr ("unknown algorithm: " +:+ algorithm).

Fixpoint NewServer_loop (srv : serverImpl) (algs : list string) : serverImpl + string :=
  match algs with
  | [] => inl srv
  | algorithm :: rest =>
      match NewServer_case srv algorithm with
      | inl srv' => NewServer_loop srv' rest
      | inr err => inr err
      end
  end.

(** [NewServer(cache, algorithms...)]: [inl srv] is [(srv, nil)], [inr e]
    is [(nil, e)]. *)
Definition NewServer (c : option Cache) (algs : list string) : serverImpl + string :=
  NewServer_loop {| cache := c; algorithms := ∅; closers := [] |} algs.

(** [runtime.NumCPU() / len(srv.algorithms)], then the two returns. *)
Definition NumberOfWorkers (numCPU : Z) (srv : serverImpl) : outcome Z :=
  let len := Z.of_nat (size (algorithms srv)) in
  if (len =? 0)%Z then Panic "runtime error: integer divide by zero"
  else
    let num := (numCPU ÷ len)%Z in
    if (16 <? num)%Z then Ret 16%Z else Ret 1%Z.

(** *** [hashImpl]: one primitive per algorithm *)

(** [type hashImpl struct { digests map[string]hash.Hash }]; the map holds
    references, so a write to a primitive is an update of its entry. *)
Abbreviation hashImpl := (gmap string D).

Variable ro : RangeOrder.

(** [NewHash]: [digests[algorithm] = newHash()] for every entry of
    [s.algorithms], starting from the empty map. *)
Definition NewHash_loop (kvs : list (string * NewHashFunc)) (digests : hashImpl) : hashImpl :=
  foldl (λ digests kv, <[kv.1 := kv.2 ()]> digests) digests kvs.

Definition NewHash (s : serverImpl) : hashImpl :=
  NewHash_loop (range ro (algorithms s)) ∅.

(** [MultiSum]: [sums[algorithm] = digest.Sum(data)] for every entry of
    [h.digests], starting from the empty map. *)
Definition MultiSum_loop (kds : list (string * D)) (data : bytes)
    (sums : gmap string bytes) : gmap string bytes :=
  foldl (λ sums kd, <[kd.1 := prim_Sum kd.2 data]> sums) sums kds.

Definition MultiSum (h : hashImpl) (data : bytes) : gmap string bytes :=
  MultiSum_loop (range ro h) data ∅.

(** [Write]: the loop returns at the first primitive whose write fails;
    [n] and [err] are the named results, overwritten by every call. *)
Fixpoint Write_loop (kds : list (string * D)) (p : bytes) (h : hashImpl) (n : Z)
    : hashImpl * (Z * error) :=
  match kds with
  | [] => (h, (n, None))
  | (k, digest) :: rest =>
      let '(digest', (n', err)) := prim_Write digest p in
      match err with
      | Some e => (<[k := digest']> h, (n', Some e))
      | None => Write_loop rest p (<[k := digest']> h) n'
      end
  end.

Definition Write (h : hashImpl) (p : bytes) : hashImpl * (Z * error) :=
  Write_loop (range ro h) p h 0%Z.

(** [Sum]: the digests of [MultiSum] one after the other, in the order
    the loop over [sums] visits them. *)
Definition Sum (h : hashImpl) (b : bytes) : bytes :=
  foldl (λ ret kv, ret ++ kv.2) [] (range ro (MultiSum h b)).

Definition Reset (h : hashImpl) : hashImpl :=
  foldl (λ h' kd, <[kd.1 := prim_Reset kd.2]> h') h (range ro h).

Definition Size (h : hashImpl) : Z :=
  foldl (λ total kd, (total + prim_Size kd.2)%Z) 0%Z (range ro h).

Definition BlockSize (h : hashImpl) : Z :=
  foldl (λ max kd, if (max <? prim_BlockSize kd.2)%Z then prim_BlockSize kd.2 else max)
        0%Z (range ro h).

(** *** [hashFile] *)

Definition ErrShortWrite : string := "short write".
Definition errInvalidWrite : string := "invalid write result".

(** [io.Copy(hash, f)]: every chunk read is written to [hash]; the copy
    stops at the first write that fails or is short, and otherwise ends
    with the error that ended the reads ([io.EOF] is no error). *)
Fixpoint io_Copy (h : hashImpl) (chunks : list bytes) (final : error) : hashImpl * error :=
  match chunks with
  | [] => (h, final)
  | buf :: rest =>
      let nr := Z.of_nat (length buf) in
      if (0 <? nr)%Z then
        let '(h', (nw, ew)) := Write h buf in
        let bad := ((nw <? 0) || (nr <? nw))%Z in
        let nw := if bad then 0%Z else nw in
        let ew := if bad then (if ew is Some _ then ew else Some errInvalidWrite) else ew in
        match ew with
        | Some e => (h', Some e)
        | None => if (nr =? nw)%Z then io_Copy h' rest final else (h', Some ErrShortWrite)
        end
      else io_Copy h rest final
  end.

Definition hashFile (e : E) (filename : string) (hash : hashImpl) : E * (gomap * error) :=
  let '(e1, r) := os_Open e filename in
  match r with
  | inr err => (e1, (None, Some err))
  | inl (chunks, final) =>
      match io_Copy hash chunks final with
      | (_, Some err) => (e1, (None, Some err))
      | (hash', None) => (e1, (Some (MultiSum hash' []), None))
      end
  end.

(** *** The body of a worker of [Parallel] *)

Record result := {
  r_filename : string;
  r_sums : gomap;
  r_err : error
}.

(** The loop over [srv.algorithms] that sets [missing]. *)
Fixpoint missing_loop (kvs : list (string * NewHashFunc)) (sums : gomap) : bool :=
  match kvs with
  | [] => false
  | (algorithm, _) :: rest =>
      if gomap_has sums algorithm then missing_loop rest sums else true
  end.

Definition missing (srv : serverImpl) (sums : gomap) : bool :=
  missing_loop (range ro (algorithms srv)) sums.

(** Lines 147 to 151: hash the file, store the sums, build the result. *)
Definition worker_compute (srv : serverImpl) (e : E) (filename : string)
    : outcome (E * result) :=
  let '(e1, (sums, err)) := hashFile e filename (NewHash srv) in
  match cache srv, err with
  | Some c, None =>
      match Cache_Set c e1 filename sums with
      | Ret (e2, err') =>
          Ret (e2, {| r_filename := filename; r_sums := sums; r_err := err' |})
      | Panic msg => Panic msg
      end
  | _, _ => Ret (e1, {| r_filename := filename; r_sums := sums; r_err := err |})
  end.

(** Lines 132 to 151: one iteration of the loop over [fileChan], up to the
    value sent on [resultChan]. *)
Definition worker_body (srv : serverImpl) (e : E) (filename : string)
    : outcome (E * result) :=
  match cache srv with
  | Some c =>
      match Cache_Get c e filename with
      | Ret (e1, (sums, None)) =>
          if missing srv sums then worker_compute srv e1 filename
          else Ret (e1, {| r_filename := filename; r_sums := sums; r_err := None |})
      | Ret (e1, (_, Some _)) => worker_compute srv e1 filename
      | Panic msg => Panic msg
      end
  | None => worker_compute srv e filename
  end.

(** *** [Parallel]: goroutines and channels

    [Parallel] starts a producer that sends the file names on [fileChan]
    (buffered, capacity [numWorkers]) and closes it, a consumer that calls
    [onResult] on what it receives from [resultChan] (unbuffered) and then
    sends on [done], and [numWorkers] workers; it waits for the workers,
    closes [resultChan] and receives from [done].  A step of the relation
    below is one channel operation or one call of a worker. *)

(** Where a worker stands in its loop. *)
Inductive wstate :=
| WRecv                                  (* at [range fileChan] *)
| WGet (filename : string)               (* before [srv.cache.Get] *)
| WHash (filename : string)              (* before [hashFile] *)
| WSet (filename : string) (sums : gomap)  (* before [srv.cache.Set] *)
| WSend (r : result)                     (* at [resultChan <- r] *)
| WExit.                                 (* loop left, [wg.Done()] run *)

(** The consumer goroutine. *)
Inductive cstate :=
| CRecv                  (* at [range resultChan] *)
| CCall (r : result)     (* before [onResult(...)] *)
| CSignal                (* at [done <- true] *)
| CExit.

(** The caller, after the goroutines are started. *)
Inductive mstate :=
| MWait                  (* at [wg.Wait()] *)
| MRecvDone              (* [resultChan] closed, at [<-done] *)
| MReturned.

Record pstate := PState {
  p_env : E;
  p_todo : list string;          (* file names the producer has yet to send *)
  p_fileChan : list string;      (* the buffer of [fileChan] *)
  p_fileChan_closed : bool;
  p_workers : list wstate;
  p_consumer : cstate;
  p_calls : list result;         (* the calls of [onResult] so far *)
  p_resultChan_closed : bool;
  p_main : mstate
}.

Definition mkresult (filename : string) (sums : gomap) (err : error) : result :=
  {| r_filename := filename; r_sums := sums; r_err := err |}.

(** Lines 132 to 146. *)
Definition do_Get (srv : serverImpl) (e : E) (filename : string) : outcome (E * wstate) :=
  match cache srv with
  | Some c =>
      match Cache_Get c e filename with
      | Ret (e1, (sums, None)) =>
          if missing srv sums then Ret (e1, WHash filename)
          else Ret (e1, WSend (mkresult filename sums None))
      | Ret (e1, (_, Some _)) => Ret (e1, WHash filename)
      | Panic msg => Panic msg
      end
  | None => Ret (e, WHash filename)
  end.

(** Lines 147 and 148. *)
Definition do_Hash (srv : serverImpl) (e : E) (filename : string) : E * wstate :=
  let '(e1, (sums, err)) := hashFile e filename (NewHash srv) in
  match cache srv, err with
  | Some _, None => (e1, WSet filename sums)
  | _, _ => (e1, WSend (mkresult filename sums err))
  end.

(** Line 149. *)
Definition do_Set (srv : serverImpl) (e : E) (filename : string) (sums : gomap)
    : outcome (E * wstate) :=
  match cache srv with
  | Some c =>
      match Cache_Set c e filename sums with
      | Ret (e2, err') => Ret (e2, WSend (mkresult filename sums err'))
      | Panic msg => Panic msg
      end
  | None => Ret (e, WSend (mkresult filename sums None))
  end.

Inductive step (srv : serverImpl) (numWorkers : nat) : pstate → pstate → Prop :=
| step_produce e f todo ch ws c calls rc m :
    length ch < numWorkers →
    step srv numWorkers
      (PState e (f :: todo) ch false ws c calls rc m)
      (PState e todo (ch ++ [f]) false ws c calls rc m)
| step_close_fileChan e ch ws c calls rc m :
    step srv numWorkers
      (PState e [] ch false ws c calls rc m)
      (PState e [] ch true ws c calls rc m)
| step_receive e f todo ch cl ws1 ws2 c calls rc m :
    step srv numWorkers
      (PState e todo (f :: ch) cl (ws1 ++ WRecv :: ws2) c calls rc m)
      (PState e todo ch cl (ws1 ++ WGet f :: ws2) c calls rc m)
| step_worker_exit e todo ws1 ws2 c calls rc m :
    step srv numWorkers
      (PState e todo [] true (ws1 ++ WRecv :: ws2) c calls rc m)
      (PState e todo [] true (ws1 ++ WExit :: ws2) c calls rc m)
| step_Get e e' f w' todo ch cl ws1 ws2 c calls rc m :
    do_Get srv e f = Ret (e', w') →
    step srv numWorkers
      (PState e todo ch cl (ws1 ++ WGet f :: ws2) c calls rc m)
      (PState e' todo ch cl (ws1 ++ w' :: ws2) c calls rc m)
| step_Hash e e' f w' todo ch cl ws1 ws2 c calls rc m :
    do_Hash srv e f = (e', w') →
    step srv numWorkers
      (PState e todo ch cl (ws1 ++ WHash f :: ws2) c calls rc m)
      (PState e' todo ch cl (ws1 ++ w' :: ws2) c calls rc m)
| step_Set e e' f sums w' todo ch cl ws1 ws2 c calls rc m :
    do_Set srv e f sums = Ret (e', w') →
    step srv numWorkers
      (PState e todo ch cl (ws1 ++ WSet f sums :: ws2) c calls rc m)
      (PState e' todo ch cl (ws1 ++ w' :: ws2) c calls rc m)
| step_result e r todo ch cl ws1 ws2 calls m :
    step srv numWorkers
      (PState e todo ch cl (ws1 ++ WSend r :: ws2) CRecv calls false m)
      (PState e todo ch cl (ws1 ++ WRecv :: ws2) (CCall r) calls false m)
| step_onResult e r todo ch cl ws calls rc m :
    step srv numWorkers
      (PState e todo ch cl ws (CCall r) calls rc m)
      (PState e todo ch cl ws CRecv (calls ++ [r]) rc m)
| step_close_resultChan e todo ch cl ws c calls :
    Forall (λ w, w = WExit) ws →
    step srv numWorkers
      (PState e todo ch cl ws c calls false MWait)
      (PState e todo ch cl ws c calls true MRecvDone)
| step_consumer_end e todo ch cl ws calls m :
    step srv numWorkers
      (PState e todo ch cl ws CRecv calls true m)
      (PState e todo ch cl ws CSignal calls true m)
| step_done e todo ch cl ws calls rc :
    step srv numWorkers
      (PState e todo ch cl ws CSignal calls rc MRecvDone)
      (PState e todo ch cl ws CExit calls rc MReturned).

(** [Parallel] up to the point where all goroutines are started; a
    goroutine that is started later behaves like one that is started at
    once and scheduled later. *)
Definition Parallel_start (srv : serverImpl) (numCPU : Z) (e : E) (filenames : list string)
    : outcome pstate :=
  match NumberOfWorkers numCPU srv with
  | Ret numWorkers =>
      Ret (PState e filenames [] false (replicate (Z.to_nat numWorkers) WRecv)
                  CRecv [] false MWait)
  | Panic msg => Panic msg
  end.

End Engine.

(** ** The file system of the cache: files, modification times, extended
    attributes and the clock *)

Record inode := {
  i_modtime : Z;                  (* [ModTime()], in ns since the epoch *)
  i_open : error;                 (* the error of [os.Open], if it fails *)
  i_chunks : list bytes;          (* what the reads of the file deliver *)
  i_final : error;                (* [None]: the reads end with [io.EOF] *)
  i_xattr : gmap string bytes;    (* the extended attributes, by full name *)
  i_xattr_err : error             (* the error of every change of an attribute *)
}.

Record world := {
  w_files : gmap string inode;
  w_now : Z;                      (* [time.Now()], in ns since the epoch *)
  w_opened : list string          (* the calls of [os.Open], oldest first *)
}.

Definition ENOENT : string := "no such file or directory".
Definition ENODATA : string := "no data available".

Definition set_xattr (w : world) (path : string) (ino : inode) (x : gmap string bytes) : world :=
  {| w_files := <[path := {| i_modtime := i_modtime ino; i_open := i_open ino;
                             i_chunks := i_chunks ino; i_final := i_final ino;
                             i_xattr := x; i_xattr_err := i_xattr_err ino |}]> (w_files w);
     w_now := w_now w;
     w_opened := w_opened w |}.

Definition world_Open (w : world) (filename : string)
    : world * ((list bytes * error) + string) :=
  let w1 := {| w_files := w_files w; w_now := w_now w;
               w_opened := w_opened w ++ [filename] |} in
  match w_files w !! filename with
  | None => (w1, inr ENOENT)
  | Some ino =>
      match i_open ino with
      | Some err => (w1, inr err)
      | None => (w1, inl (i_chunks ino, i_final ino))
      end
  end.

#[export] Instance world_Env : Env world := {| os_Open := world_Open |}.

(** [os.Stat(filename)], as far as [ModTime] goes. *)
Definition os_Stat (w : world) (filename : string) : Z + string :=
  match w_files w !! filename with
  | None => inr ENOENT
  | Some ino => inl (i_modtime ino)
  end.

(** *** Go's [strings] *)

Fixpoint HasPrefix (s prefix : string) {struct prefix} : bool :=
  match prefix, s with
  | "", _ => true
  | String c prefix', String d s' => Ascii.eqb c d && HasPrefix s' prefix'
  | String _ _, "" => false
  end.

Fixpoint string_drop (n : nat) (s : string) : string :=
  match n, s with
  | S n', String _ s' => string_drop n' s'
  | _, _ => s
  end.

Definition TrimPrefix (s prefix : string) : string :=
  if HasPrefix s prefix then string_drop (String.length prefix) s else s.

Fixpoint TrimLeft_dot (s : string) : string :=
  match s with
  | String "."%char s' => TrimLeft_dot s'
  | _ => s
  end.

Fixpoint TrimRight_dot (s : string) : string :=
  match s with
  | "" => ""
  | String c s' =>
      match TrimRight_dot s' with
      | "" => if Ascii.eqb c "."%char then "" else String c ""
      | t => String c t
      end
  end.

(** [strings.Trim(s, ".")] *)
Definition Trim_dot (s : string) : string := TrimRight_dot (TrimLeft_dot s).

(** *** Package [github.com/pkg/xattr], on the model of the file system *)

Section Xattr.

Variable ro : RangeOrder.

Definition xattr_List (w : world) (path : string) : list string + string :=
  match w_files w !! path with
  | None => inr ENOENT
  | Some ino => inl ((range ro (i_xattr ino)).*1)
  end.

Definition xattr_Get (w : world) (path name : string) : bytes + string :=
  match w_files w !! path with
  | None => inr ENOENT
  | Some ino =>
      match i_xattr ino !! name with
      | None => inr ENODATA
      | Some v => inl v
      end
  end.

Definition xattr_Set (w : world) (path name : string) (value : bytes) : world * error :=
  match w_files w !! path with
  | None => (w, Some ENOENT)
  | Some ino =>
      match i_xattr_err ino with
      | Some err => (w, Some err)
      | None => (set_xattr w path ino (<[name := value]> (i_xattr ino)), None)
      end
  end.

Definition xattr_Remove (w : world) (path name : string) : world * error :=
  match w_files w !! path with
  | None => (w, Some ENOENT)
  | Some ino =>
      match i_xattr_err ino with
      | Some err => (w, Some err)
      | None =>
          match i_xattr ino !! name with
          | None => (w, Some ENODATA)
          | Some _ => (set_xattr w path ino (delete name (i_xattr ino)), None)
          end
      end
  end.

(** *** Package [attrutil] *)

Record osXattr := { ns : string }.

(** [Xattr()] *)
Definition Xattr : osXattr := {| ns := "" |}.

Definition name (a : osXattr) (n : string) : string :=
  if String.eqb (ns a) "" then n
  else if String.eqb n "" then ns a
  else ns a +:+ "." +:+ n.

Fixpoint List_loop (allKeys : list string) (prefix : string) (keys : list string) : list string :=
  match allKeys with
  | [] => keys
  | key :: rest =>
      if HasPrefix key prefix then List_loop rest prefix (keys ++ [TrimPrefix key prefix])
      else List_loop rest prefix keys
  end.

Definition List (a : osXattr) (w : world) (path : string) : list string + string :=
  match xattr_List w path with
  | inr err => inr err
  | inl allKeys =>
      let prefix := if String.eqb (ns a) "" then "" else ns a +:+ "." in
      inl (List_loop allKeys prefix [])
  end.

Definition Get (a : osXattr) (w : world) (path n : string) : bytes + string :=
  xattr_Get w path (name a n).

Definition Set_ (a : osXattr) (w : world) (path n : string) (value : bytes) : world * error :=
  xattr_Set w path (name a n) value.

Definition NS (a : osXattr) (ns' : string) : osXattr :=
  let ns' := Trim_dot ns' in
  if String.eqb (ns a) "" then {| ns := ns' |}
  else {| ns := ns a +:+ "." +:+ ns' |}.

Fixpoint DeleteNS_loop (a : osXattr) (w : world) (path prefix : string) (keys : list string)
    : world * error :=
  match keys with
  | [] => (w, None)
  | key :: rest =>
      if HasPrefix key prefix then
        match xattr_Remove w path (name a key) with
        | (w1, Some err) => (w1, Some err)
        | (w1, None) => DeleteNS_loop a w1 path prefix rest
        end
      else DeleteNS_loop a w path prefix rest
  end.

Definition DeleteNS (a : osXattr) (w : world) (path ns' : string) : world * error :=
  match List a w path with
  | inr err => (w, Some err)
  | inl keys => DeleteNS_loop a w path (name a ns' +:+ ".") keys
  end.

End Xattr.

(** ** [cmd/xsum/cache.go]: the cache in extended attributes *)

(** *** Times and their encoding

    A [time.Time] is its number of nanoseconds since the epoch. *)

Definition uint64 (x : Z) : Z := (x mod 2 ^ 64)%Z.
Definition int64 (x : Z) : Z := ((x + 2 ^ 63) mod 2 ^ 64 - 2 ^ 63)%Z.

(** [t.Unix()] and [time.Unix(sec, 0)] *)
Definition Unix (t : Z) : Z := int64 (t / 1000000000)%Z.
Definition time_Unix (sec : Z) : Z := (sec * 1000000000)%Z.

(** [t.After(u)] *)
Definition After (t u : Z) : bool := (u <? t)%Z.

Definition byte_of_Z (z : Z) : Byte.byte :=
  default Byte.x00 (Byte.of_N (Z.to_N (z mod 256))).
Definition Z_of_byte (b : Byte.byte) : Z := Z.of_N (Byte.to_N b).

(** [binary.LittleEndian.AppendUint64(b, v)] *)
Definition AppendUint64 (b : bytes) (v : Z) : bytes :=
  b ++ [byte_of_Z v; byte_of_Z (Z.shiftr v 8); byte_of_Z (Z.shiftr v 16);
         byte_of_Z (Z.shiftr v 24); byte_of_Z (Z.shiftr v 32); byte_of_Z (Z.shiftr v 40);
         byte_of_Z (Z.shiftr v 48); byte_of_Z (Z.shiftr v 56)].

(** [binary.LittleEndian.Uint64(b)]: the bounds check [_ = b[7]] panics
    on a slice of fewer than eight bytes. *)
Definition Uint64 (b : bytes) : outcome Z :=
  match b with
  | b0 :: b1 :: b2 :: b3 :: b4 :: b5 :: b6 :: b7 :: _ =>
      Ret (Z.lor (Z_of_byte b0)
          (Z.lor (Z.shiftl (Z_of_byte b1) 8)
          (Z.lor (Z.shiftl (Z_of_byte b2) 16)
          (Z.lor (Z.shiftl (Z_of_byte b3) 24)
          (Z.lor (Z.shiftl (Z_of_byte b4) 32)
          (Z.lor (Z.shiftl (Z_of_byte b5) 40)
          (Z.lor (Z.shiftl (Z_of_byte b6) 48)
                 (Z.shiftl (Z_of_byte b7) 56))))))))
  | _ => Panic "runtime error: index out of range [7]"
  end.

Definition timeToBytes (t : Z) : bytes := AppendUint64 [] (uint64 (Unix t)).

Definition timeFromBytes (b : bytes) : outcome Z :=
  match Uint64 b with
  | Ret v => Ret (time_Unix (int64 v))
  | Panic msg => Panic msg
  end.

(** *** [xattrCache] *)

Section XattrCache.

Variable ro : RangeOrder.

Definition xsumNS : string := "user.xsum".

Record xattrCache := { attrs : osXattr }.

Definition newXattrCache : xattrCache := {| attrs := NS Xattr xsumNS |}.

(** The loop of [Get] over [keys]. *)
Fixpoint Get_loop (c : xattrCache) (w : world) (filename : string) (keys : list string)
    (sums : gmap string bytes) : gmap string bytes :=
  match keys with
  | [] => sums
  | key :: rest =>
      if String.eqb key "time" then Get_loop c w filename rest sums
      else
        match Get (attrs c) w filename key with
        | inl b => Get_loop c w filename rest (<[key := b]> sums)
        | inr _ => Get_loop c w filename rest sums
        end
  end.

Definition xattrCache_Get (c : xattrCache) (w : world) (filename : string)
    : outcome (world * (gomap * error)) :=
  match os_Stat w filename with
  | inr err => Ret (w, (None, Some err))
  | inl modTime =>
      match Get (attrs c) w filename "time" with
      | inr err => Ret (w, (None, Some err))
      | inl b =>
          match timeFromBytes b with
          | Panic msg => Panic msg
          | Ret timestamp =>
              if After modTime timestamp then
                let '(w1, _) := DeleteNS ro (attrs c) w filename "" in
                Ret (w1, (None, None))
              else
                match List ro (attrs c) w filename with
                | inr err => Ret (w, (None, Some err))
                | inl keys => Ret (w, (Some (Get_loop c w filename keys ∅), None))
                end
          end
      end
  end.

(** The loop of [Set] over [sums]. *)
Fixpoint Set_loop (c : xattrCache) (w : world) (filename : string)
    (kvs : list (string * bytes)) : world * error :=
  match kvs with
  | [] => (w, None)
  | (algorithm, sum) :: rest =>
      match Set_ (attrs c) w filename algorithm sum with
      | (w1, Some err) => (w1, Some err)
      | (w1, None) => Set_loop c w1 filename rest
      end
  end.

Definition xattrCache_Set (c : xattrCache) (w : world) (filename : string) (sums : gomap)
    : world * error :=
  match Set_loop c w filename (range ro (default ∅ sums)) with
  | (w1, Some err) => (w1, Some err)
  | (w1, None) => Set_ (attrs c) w1 filename "time" (timeToBytes (w_now w1))
  end.

(** [xattrCache] as a [Cache] of the engine. *)
Definition xattr_Cache (c : xattrCache) : Cache :=
  {| Cache_Get := xattrCache_Get c;
     Cache_Set := λ w filename sums, Ret (xattrCache_Set c w filename sums) |}.

End XattrCache.

(** ** [Close] *)

Section Close.

Context {D : Type} {E : Type}.

(** The loop of [Close]: the first error is kept as it is, a later one is
    joined to what is there by [fmt.Errorf("%v; %v", err, err2)]. *)
Fixpoint Close_loop (closers : list (unit → error)) (err : error) : error :=
  match closers with
  | [] => err
  | closer :: rest =>
      match closer () with
      | Some err2 =>
          match err with
          | None => Close_loop rest (Some err2)
          | Some e => Close_loop rest (Some (e +:+ "; " +:+ err2))
          end
      | None => Close_loop rest err
      end
  end.

(** [Close]: the engine afterwards ([algorithms] and [closers] are [nil])
    and the error returned. *)
Definition Close (srv : @serverImpl D E) : @serverImpl D E * error :=
  ({| cache := cache srv; algorithms := ∅; closers := [] |},
   Close_loop (closers srv) None).

End Close.

(** ** A digest primitive, engines and file systems for the examples

    The primitive keeps the bytes written to it; its digest is its tag
    followed by the sum of these bytes modulo 256.  A closed primitive
    refuses every write. *)

Record sumhash := {
  sh_tag : Byte.byte;
  sh_buf : bytes;
  sh_closed : bool
}.

Definition sumhash_Write (d : sumhash) (p : bytes) : sumhash * (Z * error) :=
  if sh_closed d then (d, (0%Z, Some "digest closed"))
  else ({| sh_tag := sh_tag d; sh_buf := sh_buf d ++ p; sh_closed := false |},
        (Z.of_nat (length p), None)).

Definition sumhash_Sum (d : sumhash) (b : bytes) : bytes :=
  b ++ [sh_tag d; byte_of_Z (foldr (λ x acc, Z_of_byte x + acc)%Z 0%Z (sh_buf d))].

#[export] Instance sumhash_Hash : hash_Hash sumhash := {|
  prim_Write := sumhash_Write;
  prim_Sum := sumhash_Sum;
  prim_Reset := λ d, {| sh_tag := sh_tag d; sh_buf := []; sh_closed := sh_closed d |};
  prim_Size := λ _, 2%Z;
  prim_BlockSize := λ _, 1%Z
|}.

Definition sumhash_new (tag : Byte.byte) (closed : bool) : unit → sumhash :=
  λ _, {| sh_tag := tag; sh_buf := []; sh_closed := closed |}.

Definition sumhash_Primitives : Primitives :=
  {| md5simd_NewHash := sumhash_new Byte.x01 false;
     sha256simd_NewAvx512 := sumhash_new Byte.x02 false;
     sha256simd_New := sumhash_new Byte.x03 false;
     sha1_New := sumhash_new Byte.x04 false;
     sha512_New := sumhash_new Byte.x05 false;
     hasAvx512 := false |}.

(** The engine [NewServer(nil, "md5", "sha256")] over these primitives. *)
Definition md5_sha256_server : @serverImpl sumhash world :=
  {| cache := None;
     algorithms := <["sha256" := sha256simd_New sumhash_Primitives]>
                     (<["md5" := md5simd_NewHash sumhash_Primitives]> ∅);
     closers := [λ _, None] |}.

(** The same engine when the md5 digests refuse writes. *)
Definition closed_md5_server : @serverImpl sumhash world :=
  {| cache := None;
     algorithms := <["sha256" := sumhash_new Byte.x03 false]>
                     (<["md5" := sumhash_new Byte.x01 true]> ∅);
     closers := [λ _, None] |}.

(** The engine [NewServer(nil, "md5")]. *)
Definition md5_server : @serverImpl sumhash world :=
  {| cache := None;
     algorithms := <["md5" := md5simd_NewHash sumhash_Primitives]> ∅;
     closers := [λ _, None] |}.

(** The engine [NewServer(newXattrCache(), "md5", "sha256")]. *)
Definition xattr_server : @serverImpl sumhash world :=
  {| cache := Some (xattr_Cache listing_order newXattrCache);
     algorithms := <["sha256" := sha256simd_New sumhash_Primitives]>
                     (<["md5" := md5simd_NewHash sumhash_Primitives]> ∅);
     closers := [λ _, None] |}.

(** A file system with the one file "/f", of two bytes, last modified
    [modtime] seconds after the epoch, at 3 s after the epoch. *)
Definition one_file (modtime : Z) (x : gmap string bytes) (xerr : error) : world :=
  {| w_files := {[ "/f" := {| i_modtime := modtime * 1000000000;
                             i_open := None;
                             i_chunks := [[Byte.x61; Byte.x62]];
                             i_final := None;
                             i_xattr := x;
                             i_xattr_err := xerr |} ]};
     w_now := 3000000000;
     w_opened := [] |}.

(** "/f" with an entry of the cache stored at 1 s and modified at 2 s. *)
Definition stale_world : world :=
  one_file 2 (<["user.xsum.time" := timeToBytes 1000000000]>
              (<["user.xsum.md5" := [Byte.x01; Byte.x00]]> ∅)) None.

(** "/f" with an entry stored at 2 s, with a digest for md5 only, and
    modified at 1 s. *)
Definition partial_world : world :=
  one_file 1 (<["user.xsum.time" := timeToBytes 2000000000]>
              (<["user.xsum.md5" := [Byte.x01; Byte.xc3]]> ∅)) None.

(** "/f" without an entry, and with attributes that cannot be written. *)
Definition readonly_world : world :=
  one_file 1 ∅ (Some "operation not permitted").

(** ** Vocabulary of the statements *)

(** The identifiers the [switch] of [NewServer] has a case for. *)
Definition vocabulary : list string := ["md5"; "sha256"; "sha1"; "sha512"].

(** The worker count as the specification words it. *)
Definition NumberOfWorkers_spec (numberOfAvailableProcessors numberOfAlgorithms : Z) : Z :=
  Z.min 16 (Z.max 1 (numberOfAvailableProcessors ÷ numberOfAlgorithms)).

Section Vocabulary.

Context {D : Type} `{HD : hash_Hash D}.

(** The primitive accepts the write. *)
Definition accepts (p : bytes) (kd : string * D) : Prop := (prim_Write kd.2 p).2.2 = None.

#[export] Instance accepts_dec p (kd : string * D) : Decision (accepts p kd) :=
  decide ((prim_Write kd.2 p).2.2 = None).

(** The primitives in [kds], each in the state its write leaves it in, on
    top of [h]. *)
Definition written (p : bytes) (kds : list (string * D)) (h : gmap string D) : gmap string D :=
  foldl (λ acc kd, <[kd.1 := (prim_Write kd.2 p).1]> acc) h kds.

(** The state of a primitive after the non-empty chunks of [chunks],
    written one after the other. *)
Definition absorb (d : D) (chunks : list bytes) : D :=
  foldl (λ d p, if (0 <? Z.of_nat (length p))%Z then (prim_Write d p).1 else d) d chunks.

Context {E : Type} `{HE : Env E}.

(** The states a [hashImpl] of [srv] goes through. *)
Inductive hash_of (srv : @serverImpl D E) : gmap string D → Prop :=
| hash_of_NewHash ro : hash_of srv (NewHash ro srv)
| hash_of_Write ro h p : hash_of srv h → hash_of srv (Write ro h p).1
| hash_of_Reset ro h : hash_of srv h → hash_of srv (Reset ro h).

(** *** The state of [Parallel] *)

(** The file a worker or the consumer is busy with. *)
Definition worker_file (w : wstate) : list string :=
  match w with
  | WGet f | WHash f | WSet f _ => [f]
  | WSend r => [r_filename r]
  | WRecv | WExit => []
  end.

Definition consumer_file (c : cstate) : list string :=
  match c with
  | CCall r => [r_filename r]
  | _ => []
  end.

(** Every file of the batch, wherever it is: not yet sent, in the buffer
    of [fileChan], with a worker, with the consumer, or passed to
    [onResult]. *)
Definition files_of (s : @pstate E) : list string :=
  p_todo s ++ p_fileChan s ++ concat (worker_file <$> p_workers s)
    ++ consumer_file (p_consumer s) ++ (r_filename <$> p_calls s).

Definition is_exit (w : wstate) : bool :=
  match w with WExit => true | _ => false end.

Definition is_idle (w : wstate) : bool :=
  match w with WExit | WRecv => true | _ => false end.

(** What holds of every state [Parallel] reaches. *)
Record Parallel_inv (filenames : list string) (numWorkers : nat) (s : @pstate E) : Prop := {
  inv_files : files_of s ≡ₚ filenames;
  inv_workers : length (p_workers s) = numWorkers;
  inv_closed : p_fileChan_closed s = true → p_todo s = [];
  inv_exit : Exists (λ w, is_exit w = true) (p_workers s) →
             p_fileChan_closed s = true ∧ p_fileChan s = [];
  inv_resultChan : p_resultChan_closed s = true →
                   Forall (λ w, is_exit w = true) (p_workers s);
  inv_wait : p_main s = MWait ↔ p_resultChan_closed s = false;
  inv_consumer : p_consumer s = CSignal ∨ p_consumer s = CExit →
                 p_resultChan_closed s = true;
  inv_returned : p_consumer s = CExit ↔ p_main s = MReturned
}.

(** A bound on the steps [Parallel] still has to take. *)
Definition worker_weight (w : wstate) : nat :=
  match w with
  | WExit => 0 | WRecv => 1 | WSend _ => 5 | WSet _ _ => 6 | WHash _ => 7 | WGet _ => 8
  end.

Definition consumer_weight (c : cstate) : nat :=
  match c with CExit => 0 | CSignal => 1 | CRecv => 2 | CCall _ => 3 end.

Definition main_weight (m : mstate) : nat :=
  match m with MReturned => 0 | MRecvDone => 1 | MWait => 2 end.

Definition steps_left (s : @pstate E) : nat :=
  10 * length (p_todo s) + 9 * length (p_fileChan s)
  + (if p_fileChan_closed s then 0 else 1)
  + sum_list_with worker_weight (p_workers s)
  + consumer_weight (p_consumer s) + main_weight (p_main s).

(** The methods of the cache of [srv] return: they do not panic. *)
Definition cache_returns (srv : @serverImpl D E) : Prop :=
  ∀ c, cache srv = Some c →
       (∀ e f, ∃ out, Cache_Get c e f = Ret out)
       ∧ (∀ e f sums, ∃ out, Cache_Set c e f sums = Ret out).

End Vocabulary.

(** The part of the file system that a change of an attribute of [path]
    leaves alone. *)
Definition fixed_part (w : world) (path : string) :=
  (w_now w, w_opened w,
   (λ i, (i_modtime i, i_open i, i_chunks i, i_final i, i_xattr_err i)) <$> w_files w !! path).

(** ** Vocabulary of the further statements *)

(** Error messages joined by "; ", [nil] for none. *)
Definition join_errors (errs : list string) : error :=
  match errs with
  | [] => None
  | e :: rest => Some (foldl (λ acc e2, acc +:+ "; " +:+ e2) e rest)
  end.

Section MoreVocabulary.
Context {D : Type} `{HD : hash_Hash D}.

(** What [hash.Hash] promises of a primitive: [Write] takes all the bytes
    and returns no error, writing in two parts is writing the whole, and
    [Sum] appends [Size] bytes. *)
Record hash_contract : Prop := {
  contract_Write : ∀ (d : D) p, (prim_Write d p).2 = (Z.of_nat (length p), None);
  contract_stream : ∀ (d : D) p q,
    (prim_Write (prim_Write d p).1 q).1 = (prim_Write d (p ++ q)).1;
  contract_Sum : ∀ (d : D) b,
    Z.of_nat (length (prim_Sum d b)) = (Z.of_nat (length b) + prim_Size d)%Z
}.

(** One turn of the loop of [BlockSize]. *)
Definition max_step (m : Z) (kd : string * D) : Z :=
  if (m <? prim_BlockSize kd.2)%Z then prim_BlockSize kd.2 else m.

End MoreVocabulary.

Definition Zsum (l : list Z) : Z := foldr Z.add 0%Z l.

(** A primitive for the examples that takes every write: it keeps the
    bytes written to it, and its digest is their sum modulo 256. *)
Record bufhash := { bh_buf : bytes }.

#[export] Instance bufhash_Hash : hash_Hash bufhash := {|
  prim_Write := λ d p, ({| bh_buf := bh_buf d ++ p |}, (Z.of_nat (length p), None));
  prim_Sum := λ d b, b ++ [byte_of_Z (foldr (λ x acc, Z_of_byte x + acc)%Z 0%Z (bh_buf d))];
  prim_Reset := λ d, {| bh_buf := [] |};
  prim_Size := λ _, 1%Z;
  prim_BlockSize := λ _, 1%Z
|}.

Section NoCacheVocabulary.
Context {D : Type} `{HD : hash_Hash D}.

(** The file a worker has hashed and not yet handed over. *)
Definition worker_hashed (w : wstate) : list string :=
  match w with
  | WSet f _ => [f]
  | WSend r => [r_filename r]
  | _ => []
  end.

(** The files that have been hashed. *)
Definition hashed_files (s : @pstate world) : list string :=
  concat (worker_hashed <$> p_workers s) ++ consumer_file (p_consumer s)
    ++ (r_filename <$> p_calls s).

(** The result is the one [hashFile] gives for its file on the file
    system [w0]. *)
Definition sequential (ro : RangeOrder) (srv : @serverImpl D world) (w0 : world)
    (r : result) : Prop :=
  (r_sums r, r_err r) = (hashFile ro w0 (r_filename r) (NewHash ro srv)).2.

Definition worker_sequential (ro : RangeOrder) (srv : @serverImpl D world) (w0 : world)
    (w : wstate) : Prop :=
  match w with
  | WSend r => sequential ro srv w0 r
  | WSet _ _ => False
  | _ => True
  end.

(** What holds of every state of [Parallel] on an engine without a cache. *)
Record nocache_inv (ro : RangeOrder) (srv : @serverImpl D world) (w0 : world)
    (s : @pstate world) : Prop := {
  nc_files : w_files (p_env s) = w_files w0;
  nc_opened : w_opened (p_env s) ≡ₚ w_opened w0 ++ hashed_files s;
  nc_workers : Forall (worker_sequential ro srv w0) (p_workers s);
  nc_consumer : match p_consumer s with CCall r => sequential ro srv w0 r | _ => True end;
  nc_calls : Forall (sequential ro srv w0) (p_calls s)
}.

End NoCacheVocabulary.

(** ** [attrutil]: [Delete], and the prefix of the names of a namespace *)

(** [Delete(path, name)] *)
Definition Delete (a : osXattr) (w : world) (path n : string) : world * error :=
  xattr_Remove w path (name a n).

(** The [prefix] of [List]: what the full name of every attribute of the
    namespace of [a] starts with. *)
Definition ns_prefix (a : osXattr) : string :=
  if String.eqb (ns a) "" then "" else ns a +:+ ".".

(** *** [Parallel] on a cache that has every file *)

Section WarmVocabulary.
Context {D : Type} `{HD : hash_Hash D} {E : Type} `{HE : Env E}.
Variables (ro : RangeOrder) (srv : @serverImpl D E) (e0 : E).

(** In [e0] the cache of [srv] has [sums] for [filename], with a digest
    of every algorithm, and its [Get] leaves [e0] as it is. *)
Definition cached (filename : string) (sums : gomap) : Prop :=
  ∃ c, cache srv = Some c
       ∧ Cache_Get c e0 filename = Ret (e0, (sums, None))
       ∧ missing ro srv sums = false.

(** The result is the answer of the cache. *)
Definition from_cache (r : result) : Prop :=
  r_err r = None ∧ cached (r_filename r) (r_sums r).

(** The worker is about to hash a file or to store its digests. *)
Definition is_hashing (w : wstate) : bool :=
  match w with WHash _ | WSet _ _ => true | _ => false end.

Definition worker_warm (filenames : list string) (w : wstate) : Prop :=
  match w with
  | WGet f => f ∈ filenames
  | WHash _ | WSet _ _ => False
  | WSend r => from_cache r
  | _ => True
  end.

Record warm_inv (filenames : list string) (s : @pstate E) : Prop := {
  warm_env : p_env s = e0;
  warm_todo : Forall (λ f, f ∈ filenames) (p_todo s ++ p_fileChan s);
  warm_workers : Forall (worker_warm filenames) (p_workers s);
  warm_consumer : match p_consumer s with CCall r => from_cache r | _ => True end;
  warm_calls : Forall from_cache (p_calls s)
}.

End WarmVocabulary.

(** "/f" with an entry stored at 2 s, with the digests of md5 and sha256,
    and modified at 1 s. *)
Definition warm_world : world :=
  one_file 1 (<["user.xsum.time" := timeToBytes 2000000000]>
              (<["user.xsum.sha256" := [Byte.x03; Byte.xc3]]>
               (<["user.xsum.md5" := [Byte.x01; Byte.xc3]]> ∅))) None.

(** ** [attrutil]: [GetAttrs] and [SetAttrs] *)

Section Attrs.

Variable ro : RangeOrder.

(** The loop of [GetAttrs], [attrs[key], err = xattr.Get(...)]: with an
    error [xattr.Get] returns no value, and [attrs[key]] is nil. *)
Fixpoint GetAttrs_loop (a : osXattr) (w : world) (path : string) (keys : list string)
    (attrs : gmap string bytes) : gmap string bytes * error :=
  match keys with
  | [] => (attrs, None)
  | key :: rest =>
      match xattr_Get w path (name a key) with
      | inl v => GetAttrs_loop a w path rest (<[key := v]> attrs)
      | inr err => (<[key := []]> attrs, Some err)
      end
  end.

Definition GetAttrs (a : osXattr) (w : world) (path : string) : gomap * error :=
  match List ro a w path with
  | inr err => (None, Some err)
  | inl keys =>
      let '(attrs, err) := GetAttrs_loop a w path keys ∅ in (Some attrs, err)
  end.

(** The first loop of [SetAttrs]: the attributes that [attrs] does not
    have are removed. *)
Fixpoint SetAttrs_remove (a : osXattr) (w : world) (path : string) (keys : list string)
    (attrs : gmap string bytes) : world * error :=
  match keys with
  | [] => (w, None)
  | key :: rest =>
      match attrs !! key with
      | Some _ => SetAttrs_remove a w path rest attrs
      | None =>
          match xattr_Remove w path (name a key) with
          | (w1, Some err) => (w1, Some err)
          | (w1, None) => SetAttrs_remove a w1 path rest attrs
          end
      end
  end.

(** The second loop of [SetAttrs]. *)
Fixpoint SetAttrs_set (a : osXattr) (w : world) (path : string)
    (kvs : list (string * bytes)) : world * error :=
  match kvs with
  | [] => (w, None)
  | (key, value) :: rest =>
      match xattr_Set w path (name a key) value with
      | (w1, Some err) => (w1, Some err)
      | (w1, None) => SetAttrs_set a w1 path rest
      end
  end.

Definition SetAttrs (a : osXattr) (w : world) (path : string) (attrs : gomap)
    : world * error :=
  match List ro a w path with
  | inr err => (w, Some err)
  | inl keys =>
      match SetAttrs_remove a w path keys (default ∅ attrs) with
      | (w1, Some err) => (w1, Some err)
      | (w1, None) => SetAttrs_set a w1 path (range ro (default ∅ attrs))
      end
  end.

End Attrs.

(** ** [cmd/xsum]: the writers and the callback of [doXsum] *)

(** [*csv.Writer] of [encoding/csv], as far as [csvWriter] uses it:
    [Write(record) error], [Flush()] and [Error()]. *)
Class csv_Writer (W : Type) := {
  csv_Write : W → list string → W * error;
  csv_Flush : W → W;
  csv_Error : W → error
}.

(** The values of the [map[string]any] of [jsonWriter]. *)
Inductive json_any :=
| JString (s : string)
| JInt64 (n : Z)
| JBytes (b : bytes).

(** [json.NewEncoder(w).Encode(data)] *)
Class json_Encoder (W : Type) := {
  json_Encode : W → gmap string json_any → W * error
}.

(** [fmt.Sprintf("%x", sum)]: two digits for every byte. *)
Definition hex_digit (n : N) : ascii :=
  match n with
  | 0 => "0" | 1 => "1" | 2 => "2" | 3 => "3" | 4 => "4" | 5 => "5" | 6 => "6" | 7 => "7"
  | 8 => "8" | 9 => "9" | 10 => "a" | 11 => "b" | 12 => "c" | 13 => "d" | 14 => "e"
  | _ => "f"
  end%N%char.

Definition hex (sum : bytes) : string :=
  foldr (λ b s, String (hex_digit (Byte.to_N b / 16)) (String (hex_digit (Byte.to_N b mod 16)) s))
        "" sum.

(** The line feed that [log.Panicln] ends its message with. *)
Definition newline : string := String (Ascii.ascii_of_nat 10) "".

(** [type xsumWriter interface] *)
Class xsumWriter (X : Type) := {
  xsum_Write : X → string → string → Z → gomap → error → X * error;
  xsum_Close : X → X * error
}.

Section CsvWriter.

Context {W : Type} `{HW : csv_Writer W}.

Record csvWriter := {
  cw_writer : W;                  (* [writer] *)
  cw_wroteHeaders : bool;         (* [wroteHeaders] *)
  cw_algorithms : list string     (* [algorithms] *)
}.

(** [newCsvWriter], on the [csv.Writer] made of its first argument. *)
Definition newCsvWriter (w : W) (algorithms : list string) : csvWriter :=
  {| cw_writer := w; cw_wroteHeaders := false; cw_algorithms := algorithms |}.

Definition csvWriter_Close (w : csvWriter) : csvWriter * error :=
  let wr := csv_Flush (cw_writer w) in
  ({| cw_writer := wr; cw_wroteHeaders := cw_wroteHeaders w;
      cw_algorithms := cw_algorithms w |}, csv_Error wr).

(** [Write]: the error of the write of the headers is dropped. *)
Definition csvWriter_Write (w : csvWriter) (hostname filename : string) (size : Z)
    (sums : gomap) (sErr : error) : csvWriter * error :=
  let w1 :=
    if cw_wroteHeaders w then w
    else
      let headers :=
        foldl (λ headers algorithm, headers ++ [algorithm +:+ "sum"])
              ["hostname"; "filename"; "size"; "error"] (cw_algorithms w) in
      {| cw_writer := (csv_Write (cw_writer w) headers).1;
         cw_wroteHeaders := true;
         cw_algorithms := cw_algorithms w |} in
  let data := [hostname; filename; pretty size] in
  let data := match sErr with
              | Some e => data ++ [e]
              | None => data ++ [""]
              end in
  let data :=
    foldl (λ data algorithm,
             match default ∅ sums !! algorithm with
             | None => data ++ [""]
             | Some sum => data ++ [hex sum]
             end) data (cw_algorithms w1) in
  let '(wr, err) := csv_Write (cw_writer w1) data in
  ({| cw_writer := wr; cw_wroteHeaders := cw_wroteHeaders w1;
      cw_algorithms := cw_algorithms w1 |}, err).

#[export] Instance csvWriter_xsumWriter : xsumWriter csvWriter :=
  {| xsum_Write := csvWriter_Write; xsum_Close := csvWriter_Close |}.

End CsvWriter.

Section JsonWriter.

Context {W : Type} `{HJ : json_Encoder W}.
Variable ro : RangeOrder.

Record jsonWriter := { jw_writer : W }.

Definition jsonWriter_Close (w : jsonWriter) : jsonWriter * error := (w, None).

Definition jsonWriter_Write (w : jsonWriter) (hostname filename : string) (size : Z)
    (sums : gomap) (err : error) : jsonWriter * error :=
  let data : gmap string json_any :=
    <["size" := JInt64 size]>
      (<["filename" := JString filename]> (<["hostname" := JString hostname]> ∅)) in
  let data :=
    match err with
    | Some e => <["error" := JString e]> data
    | None =>
        foldl (λ data kv, <[kv.1 +:+ "sum" := JBytes kv.2]> data) data
              (range ro (default ∅ sums))
    end in
  let '(wr, e) := json_Encode (jw_writer w) data in
  ({| jw_writer := wr |}, e).

Definition jsonWriter_xsumWriter : xsumWriter jsonWriter :=
  {| xsum_Write := jsonWriter_Write; xsum_Close := jsonWriter_Close |}.

End JsonWriter.

Section OnResult.

Context {X : Type} `{HX : xsumWriter X}.

(** The callback that [doXsum] gives to [Parallel]; [log.Panicln(e)]
    panics with the message of [e] and a line feed. *)
Definition doXsum_onResult (hostname : string) (sizes : gmap string Z) (writer : X)
    (filename : string) (sums : gomap) (err : error) : outcome X :=
  match xsum_Write writer hostname filename (default 0%Z (sizes !! filename)) sums err with
  | (writer', None) => Ret writer'
  | (_, Some e) => Panic (e +:+ newline)
  end.

(** The calls that the consumer of [Parallel] makes, one after the other,
    up to the first that panics. *)
Fixpoint onResults (hostname : string) (sizes : gmap string Z) (writer : X)
    (calls : list result) : outcome X :=
  match calls with
  | [] => Ret writer
  | r :: rest =>
      match doXsum_onResult hostname sizes writer (r_filename r) (r_sums r) (r_err r) with
      | Ret writer' => onResults hostname sizes writer' rest
      | Panic msg => Panic msg
      end
  end.

End OnResult.

(** *** Vocabulary of the statements on the writers *)

Definition csv_header (algorithms : list string) : list string :=
  ["hostname"; "filename"; "size"; "error"] ++ ((λ a, a +:+ "sum") <$> algorithms).

Definition csv_row (algorithms : list string) (hostname : string) (sizes : gmap string Z)
    (r : result) : list string :=
  [hostname; r_filename r; pretty (default 0%Z (sizes !! r_filename r)); default "" (r_err r)]
    ++ ((λ a, match default ∅ (r_sums r) !! a with
              | Some sum => hex sum
              | None => ""
              end) <$> algorithms).

(** The [csv.Writer] after the writes of [records], whatever they return. *)
Definition csv_Writes {W : Type} `{HW : csv_Writer W} (w : W) (records : list (list string)) : W :=
  foldl (λ w record, (csv_Write w record).1) w records.

(** A [csv.Writer] for the examples: it keeps the records. *)
#[export] Instance records_Writer : csv_Writer (list (list string)) := {|
  csv_Write := λ w record, (w ++ [record], None);
  csv_Flush := λ w, w;
  csv_Error := λ _, None
|}.

(** *** Two runs of [Parallel] with the cache in extended attributes *)

Section TwoRunsVocabulary.

Context {D : Type} `{HD : hash_Hash D}.
Variable srv : @serverImpl D world.

(** The file has an entry written in the current second, with a digest
    of every algorithm of [srv]. *)
Definition entry_of (w : world) (ino : inode) : Prop :=
  i_xattr ino !! "user.xsum.time" = Some (timeToBytes (w_now w))
  ∧ ∀ a, a ∈ dom (algorithms srv) → is_Some (i_xattr ino !! ("user.xsum." +:+ a)).

Definition has_entry (w : world) (f : string) : Prop :=
  ∃ ino, w_files w !! f = Some ino ∧ entry_of w ino.

(** The file exists, can be read to its end, its attributes can be
    changed and it was not modified after the start of the current
    second. *)
Definition settled (w : world) (ino : inode) : Prop :=
  i_open ino = None ∧ i_final ino = None ∧ i_xattr_err ino = None
  ∧ (i_modtime ino ≤ time_Unix (Unix (w_now w)))%Z.

(** Such a file without an entry. *)
Definition fresh_file (w : world) (f : string) : Prop :=
  ∃ ino, w_files w !! f = Some ino ∧ settled w ino
         ∧ i_xattr ino !! "user.xsum.time" = None.

(** Such a file without an entry, or with one of the current second. *)
Definition usable (w : world) (f : string) : Prop :=
  ∃ ino, w_files w !! f = Some ino ∧ settled w ino
         ∧ (i_xattr ino !! "user.xsum.time" = None ∨ entry_of w ino).

Definition result_ok (w : world) (r : result) : Prop :=
  r_err r = None ∧ has_entry w (r_filename r).

Definition worker_ok (filenames : list string) (w : world) (ws : wstate) : Prop :=
  match ws with
  | WGet f | WHash f => f ∈ filenames
  | WSet f sums => f ∈ filenames ∧ ∃ m, sums = Some m ∧ dom m = dom (algorithms srv)
  | WSend r => result_ok w r
  | _ => True
  end.

(** What holds of every state of the first run. *)
Record first_run_inv (filenames : list string) (s : @pstate world) : Prop := {
  fr_files : ∀ f, f ∈ filenames → usable (p_env s) f;
  fr_todo : Forall (λ f, f ∈ filenames) (p_todo s ++ p_fileChan s);
  fr_workers : Forall (worker_ok filenames (p_env s)) (p_workers s);
  fr_consumer : match p_consumer s with CCall r => result_ok (p_env s) r | _ => True end;
  fr_calls : Forall (result_ok (p_env s)) (p_calls s)
}.

End TwoRunsVocabulary.

(** The constructors of the example primitive that takes every write. *)
Definition bufhash_Primitives : Primitives :=
  {| md5simd_NewHash := λ _, {| bh_buf := [] |};
     sha256simd_NewAvx512 := λ _, {| bh_buf := [] |};
     sha256simd_New := λ _, {| bh_buf := [] |};
     sha1_New := λ _, {| bh_buf := [] |};
     sha512_New := λ _, {| bh_buf := [] |};
     hasAvx512 := false |}.

(** ** [attrutil]: [ListNS] *)

(** [strings.SplitN(s, ".", 2)]: [s] alone when it has no dot, and
    otherwise what is before its first dot and what is after it. *)
Fixpoint SplitN2_dot (s : string) : list string :=
  match s with
  | "" => [""]
  | String c s' =>
      if Ascii.eqb c "." then [""; s']
      else
        match SplitN2_dot s' with
        | p :: rest => String c p :: rest
        | [] => [String c ""]
        end
  end.

Fixpoint ListNS_loop (keys : list string) (prefix : string) (namespaces : list string)
    : list string :=
  match keys with
  | [] => namespaces
  | key :: rest =>
      if HasPrefix key prefix then
        match SplitN2_dot (TrimPrefix key prefix) with
        | [p0; _] => ListNS_loop rest prefix (namespaces ++ [p0])
        | _ => ListNS_loop rest prefix namespaces
        end
      else ListNS_loop rest prefix namespaces
  end.

(** [ListNS]; the nil slice and the empty slice are the same list. *)
Definition ListNS (ro : RangeOrder) (a : osXattr) (w : world) (path : string)
    : list string + string :=
  match xattr_List ro w path with
  | inr err => inr err
  | inl keys =>
      let prefix := if String.eqb (ns a) "" then "" else ns a +:+ "." in
      inl (ListNS_loop keys prefix [])
  end.

(** The namespace of a name: what is before its first dot, if it has one. *)
Definition namespace_of (key : string) : option string :=
  match SplitN2_dot key with
  | [p0; _] => Some p0
  | _ => None
  end.

(** * Properties *)

(** ** Loops over a map *)

Section RangeFacts.

Context {V W : Type}.
Implicit Types (l : list (string * V)) (m : gmap string V).

Lemma foldl_insert_list (f : V → W) l (m0 : gmap string W) :
  NoDup l.*1 →
  foldl (λ acc kv, <[kv.1 := f kv.2]> acc) m0 l = list_to_map (prod_map id f <$> l) ∪ m0.
Proof.
  revert m0. induction l as [|[k v] l IH]; intros m0 Hnd.
  - simpl. by rewrite (left_id_L ∅ (∪)).
  - rewrite fmap_cons in Hnd. apply NoDup_cons in Hnd as [Hk Hnd].
    rewrite fmap_cons. cbn [foldl prod_map fst snd id].
    rewrite list_to_map_cons, IH by done.
    rewrite <- insert_union_l. symmetry. apply insert_union_r.
    apply not_elem_of_list_to_map_1.
    rewrite <- list_fmap_compose.
    by rewrite (list_fmap_ext (fst ∘ prod_map id f) fst l) by (by intros ? []).
Qed.

Lemma range_NoDup (ro : RangeOrder) m : NoDup (range ro m).*1.
Proof.
  rewrite (range_perm ro V m). apply NoDup_fst_map_to_list.
Qed.

Lemma range_list_to_map (ro : RangeOrder) m : list_to_map (range ro m) = m.
Proof.
  rewrite <- (list_to_map_to_list m) at 2.
  apply list_to_map_proper; [apply range_NoDup | apply range_perm].
Qed.

Lemma elem_of_range (ro : RangeOrder) m k v : (k, v) ∈ range ro m ↔ m !! k = Some v.
Proof. rewrite (range_perm ro V m). apply elem_of_map_to_list. Qed.

Lemma range_keys (ro : RangeOrder) m k : k ∈ (range ro m).*1 ↔ k ∈ dom m.
Proof.
  rewrite elem_of_dom, list_elem_of_fmap. split.
  - intros [[k' v] [-> Hin]]. apply elem_of_range in Hin. by exists v.
  - intros [v Hv]. exists (k, v). split; [done|]. by apply elem_of_range.
Qed.

Lemma range_length (ro : RangeOrder) m : length (range ro m) = size m.
Proof. rewrite (range_perm ro V m). apply length_map_to_list. Qed.

(** A loop that stores [f] of every value under its key computes [f <$> m],
    whatever the order. *)
Lemma foldl_insert_range (ro : RangeOrder) (f : V → W) m :
  foldl (λ acc kv, <[kv.1 := f kv.2]> acc) ∅ (range ro m) = f <$> m.
Proof.
  rewrite foldl_insert_list by apply range_NoDup.
  rewrite (right_id_L ∅ (∪)), list_to_map_fmap. by rewrite range_list_to_map.
Qed.

End RangeFacts.

(** A loop that replaces every value by [f] of it computes [f <$> m]. *)
Lemma foldl_insert_range_self {V} (ro : RangeOrder) (f : V → V) (m : gmap string V) :
  foldl (λ acc kv, <[kv.1 := f kv.2]> acc) m (range ro m) = f <$> m.
Proof.
  rewrite foldl_insert_list by apply range_NoDup.
  rewrite list_to_map_fmap, range_list_to_map.
  apply map_eq. intros i. rewrite lookup_union, !lookup_fmap.
  by destruct (m !! i).
Qed.

(** The first element of a list that fails a decidable test. *)
Lemma first_failure {A} (Q : A → Prop) `{∀ x, Decision (Q x)} (l : list A) :
  ¬ Forall Q l → ∃ l1 x l2, l = l1 ++ x :: l2 ∧ Forall Q l1 ∧ ¬ Q x.
Proof.
  induction l as [|a l IH]; intros Hno; [by destruct Hno|].
  destruct (decide (Q a)) as [Ha|Ha].
  - destruct IH as (l1 & x & l2 & -> & Hl1 & Hx).
    + intros Hl. apply Hno. by constructor.
    + exists (a :: l1), x, l2. split; [done|]. split; [by constructor|done].
  - by exists [], a, l.
Qed.

(** ** [hashImpl] *)

Section HashFacts.

Context {D : Type} `{HD : hash_Hash D} {E : Type} `{HE : Env E}.
Implicit Types (h : gmap string D) (srv : @serverImpl D E) (ro : RangeOrder).

Lemma NewHash_fmap ro srv : NewHash ro srv = (λ f : NewHashFunc, f ()) <$> algorithms srv.
Proof. apply (foldl_insert_range ro (λ f : NewHashFunc, f ())). Qed.

Lemma MultiSum_fmap ro h data : MultiSum ro h data = (λ d, prim_Sum d data) <$> h.
Proof. apply (foldl_insert_range ro (λ d, prim_Sum d data)). Qed.

Lemma NewHash_dom ro srv : dom (NewHash ro srv) = dom (algorithms srv).
Proof. rewrite NewHash_fmap. apply dom_fmap_L. Qed.

Lemma MultiSum_dom ro h data : dom (MultiSum ro h data) = dom h.
Proof. rewrite MultiSum_fmap. apply dom_fmap_L. Qed.

Lemma Write_loop_accepted kds p h n :
  Forall (accepts p) kds →
  Write_loop kds p h n
  = (written p kds h, (foldl (λ _ kd, (prim_Write kd.2 p).2.1) n kds, None)).
Proof.
  revert h n. induction kds as [|[k d] kds IH]; intros h n Hok; [done|].
  apply Forall_cons in Hok as [Hd Hok]. unfold accepts in Hd. cbn in Hd.
  cbn [Write_loop]. destruct (prim_Write d p) as [d' [n' err]] eqn:Hw.
  cbn in Hd. subst err. rewrite IH by done. unfold written. cbn [foldl fst snd].
  by rewrite Hw.
Qed.

Lemma Write_loop_refused l1 k d l2 p h n e :
  Forall (accepts p) l1 →
  (prim_Write d p).2.2 = Some e →
  Write_loop (l1 ++ (k, d) :: l2) p h n
  = (<[k := (prim_Write d p).1]> (written p l1 h), ((prim_Write d p).2.1, Some e)).
Proof.
  revert h n. induction l1 as [|[k1 d1] l1 IH]; intros h n Hok He.
  - cbn [app Write_loop]. destruct (prim_Write d p) as [d' [n' err]].
    cbn in He. by subst err.
  - apply Forall_cons in Hok as [Hd Hok]. unfold accepts in Hd. cbn in Hd.
    cbn [app Write_loop]. destruct (prim_Write d1 p) as [d' [n' err]] eqn:Hw.
    cbn in Hd. subst err. rewrite IH by done. unfold written. cbn [foldl fst snd].
    by rewrite Hw.
Qed.

Lemma written_lookup_in p kds h k d :
  NoDup kds.*1 → (k, d) ∈ kds → written p kds h !! k = Some (prim_Write d p).1.
Proof.
  intros Hnd Hin. unfold written.
  rewrite (foldl_insert_list (λ d, (prim_Write d p).1)) by done.
  apply lookup_union_Some_l, elem_of_list_to_map.
  - rewrite <- list_fmap_compose.
    by rewrite (list_fmap_ext (fst ∘ prod_map id (λ d, (prim_Write d p).1)) fst kds)
      by (by intros ? []).
  - apply list_elem_of_fmap. by exists (k, d).
Qed.

Lemma written_lookup_out p kds h k :
  k ∉ kds.*1 → written p kds h !! k = h !! k.
Proof.
  revert h. induction kds as [|[k1 d1] kds IH]; intros h Hk; [done|].
  rewrite fmap_cons in Hk. apply not_elem_of_cons in Hk as [Hne Hk].
  unfold written. cbn [foldl fst snd]. fold (written p kds (<[k1:=(prim_Write d1 p).1]> h)).
  rewrite IH by done. by apply lookup_insert_ne.
Qed.

Lemma written_range ro p h :
  written p (range ro h) h = (λ d, (prim_Write d p).1) <$> h.
Proof. apply (foldl_insert_range_self ro (λ d, (prim_Write d p).1)). Qed.

Lemma Reset_fmap ro h : Reset ro h = prim_Reset <$> h.
Proof. apply (foldl_insert_range_self ro prim_Reset). Qed.

(** A [Write] that returns no error was accepted by every primitive. *)
Lemma Write_nil_inv ro h p :
  (Write ro h p).2.2 = None →
  Forall (accepts p) (range ro h) ∧ (Write ro h p).1 = (λ d, (prim_Write d p).1) <$> h.
Proof.
  intros Hnil. unfold Write in *.
  destruct (decide (Forall (accepts p) (range ro h))) as [Hall|Hno].
  - split; [done|]. rewrite Write_loop_accepted by done. apply written_range.
  - apply first_failure in Hno as (l1 & [k d] & l2 & Heq & Hl1 & Hd); [|apply _].
    unfold accepts in Hd. cbn in Hd.
    destruct ((prim_Write d p).2.2) as [e|] eqn:He; [|done].
    by rewrite Heq, (Write_loop_refused l1 k d l2 p h 0%Z e) in Hnil.
Qed.

(** When [io.Copy] ends without an error, the reads ended with [io.EOF]
    and every primitive has absorbed every chunk, in the order read. *)
Lemma io_Copy_nil_inv ro h chunks final h' :
  io_Copy ro h chunks final = (h', None) →
  final = None ∧ h' = (λ d, absorb d chunks) <$> h.
Proof.
  revert h. induction chunks as [|buf chunks IH]; intros h Hcopy.
  - cbn in Hcopy. injection Hcopy as <- ->. split; [done|].
    unfold absorb. cbn. by rewrite map_fmap_id.
  - cbn [io_Copy] in Hcopy. unfold absorb. cbn [foldl].
    destruct (0 <? Z.of_nat (length buf))%Z eqn:Hlen.
    + destruct (Write ro h buf) as [h1 [nw ew]] eqn:Hw.
      destruct ((nw <? 0)%Z || (Z.of_nat (length buf) <? nw)%Z).
      { by destruct ew. }
      destruct ew as [e|]; [done|].
      destruct (Z.of_nat (length buf) =? nw)%Z; [|done].
      apply IH in Hcopy as [-> ->]. split; [done|].
      pose proof (Write_nil_inv ro h buf) as Hinv. rewrite Hw in Hinv.
      destruct (Hinv eq_refl) as [_ Hh1]. cbn in Hh1. subst h1.
      rewrite <- map_fmap_compose. apply map_fmap_ext. intros k d _. done.
    + apply IH in Hcopy as [-> ->]. split; [done|].
      apply map_fmap_ext. intros k d _. done.
Qed.

(** The digest map of [hashFile]: one digest per primitive of [hash],
    each over the chunks of the file. *)
Lemma hashFile_sums ro e filename hash e' sums :
  hashFile ro e filename hash = (e', (sums, None)) →
  ∃ chunks, os_Open e filename = (e', inl (chunks, None))
            ∧ sums = Some ((λ d, prim_Sum (absorb d chunks) []) <$> hash).
Proof.
  unfold hashFile. destruct (os_Open e filename) as [e1 [[chunks final]|err]]; [|done].
  destruct (io_Copy ro hash chunks final) as [h' [err|]] eqn:Hcopy; [done|].
  intros [= <- <-]. apply io_Copy_nil_inv in Hcopy as [-> ->].
  exists chunks. split; [done|]. f_equal.
  rewrite MultiSum_fmap, <- map_fmap_compose. done.
Qed.

(** When [hashFile] returns an error it returns no digest map. *)
Lemma hashFile_err ro e filename hash e' sums err :
  hashFile ro e filename hash = (e', (sums, Some err)) → sums = None.
Proof.
  unfold hashFile. destruct (os_Open e filename) as [e1 [[chunks final]|err1]].
  - destruct (io_Copy ro hash chunks final) as [h' [err1|]]; congruence.
  - congruence.
Qed.

Lemma Write_loop_dom kds p h n :
  (∀ k, k ∈ kds.*1 → k ∈ dom h) → dom (Write_loop kds p h n).1 = dom h.
Proof.
  revert h n. induction kds as [|[k d] kds IH]; intros h n Hin; [done|].
  assert (Hk : k ∈ dom h) by (apply Hin; rewrite fmap_cons; left).
  assert (Hd : dom (<[k := (prim_Write d p).1]> h) = dom h).
  { rewrite dom_insert_L. apply subseteq_union_1_L. by apply singleton_subseteq_l. }
  cbn [Write_loop]. destruct (prim_Write d p) as [d' [n' [e|]]]; cbn [fst] in *.
  - done.
  - rewrite IH; [done|]. intros k' Hk'. rewrite Hd. apply Hin.
    rewrite fmap_cons. by right.
Qed.

(** Whether it succeeds or not, [Write] keeps one primitive per key. *)
Lemma Write_dom ro h p : dom (Write ro h p).1 = dom h.
Proof. apply Write_loop_dom. intros k. apply range_keys. Qed.

End HashFacts.

(** ** [NewServer] and [NumberOfWorkers] *)

Section ServerFacts.

Context {D : Type} `{HD : hash_Hash D} {E : Type} `{HE : Env E}.
Variable P : @Primitives D.
Implicit Types (srv : @serverImpl D E) (c : option (@Cache E)) (algs : list string).

Lemma NewServer_case_supported srv a :
  a ∈ vocabulary →
  ∃ srv', NewServer_case P srv a = inl srv'
          ∧ cache srv' = cache srv
          ∧ dom (algorithms srv') = {[a]} ∪ dom (algorithms srv).
Proof.
  unfold vocabulary. rewrite !elem_of_cons, elem_of_nil.
  intros [->|[->|[->|[->|[]]]]]; unfold NewServer_case; cbn [String.eqb Ascii.eqb Bool.eqb];
    try destruct (hasAvx512 P); eexists; (split; [reflexivity|]);
    (split; [reflexivity|]); cbn [algorithms set_algorithm add_closer]; apply dom_insert_L.
Qed.

Lemma NewServer_case_unknown srv a :
  a ∉ vocabulary → NewServer_case P srv a = inr ("unknown algorithm: " +:+ a).
Proof.
  unfold vocabulary. rewrite !not_elem_of_cons. intros (H1 & H2 & H3 & H4 & _).
  unfold NewServer_case.
  by rewrite (proj2 (String.eqb_neq _ _) H1), (proj2 (String.eqb_neq _ _) H2),
    (proj2 (String.eqb_neq _ _) H3), (proj2 (String.eqb_neq _ _) H4).
Qed.

Lemma NewServer_loop_supported srv algs :
  Forall (λ a, a ∈ vocabulary) algs →
  ∃ srv', NewServer_loop P srv algs = inl srv'
          ∧ cache srv' = cache srv
          ∧ dom (algorithms srv') = list_to_set algs ∪ dom (algorithms srv).
Proof.
  revert srv. induction algs as [|a algs IH]; intros srv Hall.
  - exists srv. split; [done|]. split; [done|]. cbn. by rewrite (left_id_L ∅ (∪)).
  - apply Forall_cons in Hall as [Ha Hall].
    destruct (NewServer_case_supported srv a Ha) as (srv1 & H1 & Hc1 & Hd1).
    destruct (IH srv1 Hall) as (srv2 & H2 & Hc2 & Hd2).
    exists srv2. cbn [NewServer_loop]. rewrite H1. split; [done|].
    split; [congruence|]. rewrite Hd2, Hd1. cbn [list_to_set].
    rewrite (assoc_L (∪)). f_equal. apply (comm_L (∪)).
Qed.

Lemma NewServer_loop_unknown srv l1 b l2 :
  Forall (λ a, a ∈ vocabulary) l1 → b ∉ vocabulary →
  NewServer_loop P srv (l1 ++ b :: l2) = inr ("unknown algorithm: " +:+ b).
Proof.
  revert srv. induction l1 as [|a l1 IH]; intros srv Hall Hb.
  - cbn [app NewServer_loop]. by rewrite NewServer_case_unknown.
  - apply Forall_cons in Hall as [Ha Hall].
    destruct (NewServer_case_supported srv a Ha) as (srv1 & H1 & _).
    cbn [app NewServer_loop]. rewrite H1. by apply IH.
Qed.

Lemma NewServer_loop_inl srv algs srv' :
  NewServer_loop P srv algs = inl srv' →
  Forall (λ a, a ∈ vocabulary) algs
  ∧ cache srv' = cache srv
  ∧ dom (algorithms srv') = list_to_set algs ∪ dom (algorithms srv).
Proof.
  intros Hloop.
  destruct (decide (Forall (λ a, a ∈ vocabulary) algs)) as [Hall|Hex].
  - split; [done|].
    destruct (NewServer_loop_supported srv algs Hall) as (srv1 & H1 & Hc & Hd).
    rewrite H1 in Hloop. by injection Hloop as <-.
  - apply first_failure in Hex as (l1 & b & l2 & -> & Hl1 & Hb); [|apply _].
    by rewrite NewServer_loop_unknown in Hloop.
Qed.

Lemma NewServer_algorithms c algs srv :
  NewServer P c algs = inl srv →
  Forall (λ a, a ∈ vocabulary) algs
  ∧ cache srv = c ∧ dom (algorithms srv) = list_to_set algs.
Proof.
  intros Hnew. apply NewServer_loop_inl in Hnew as (Hall & Hc & Hd).
  split; [done|]. split; [done|].
  rewrite Hd. cbn [algorithms]. by rewrite dom_empty_L, (right_id_L ∅ (∪)).
Qed.

Lemma NumberOfWorkers_values numCPU srv n :
  NumberOfWorkers numCPU srv = Ret n → n = 1%Z ∨ n = 16%Z.
Proof.
  unfold NumberOfWorkers. destruct (Z.of_nat (size (algorithms srv)) =? 0)%Z; [done|].
  destruct (16 <? _)%Z; intros [= <-]; auto.
Qed.

Lemma NumberOfWorkers_returns numCPU srv :
  algorithms srv ≠ ∅ → ∃ n, NumberOfWorkers numCPU srv = Ret n.
Proof.
  intros Hne. unfold NumberOfWorkers.
  destruct (Z.eqb_spec (Z.of_nat (size (algorithms srv))) 0) as [H0|H0].
  - destruct Hne. apply map_size_empty_inv. lia.
  - destruct (16 <? _)%Z; eauto.
Qed.

Lemma NumberOfWorkers_panics numCPU srv :
  algorithms srv = ∅ →
  NumberOfWorkers numCPU srv = Panic "runtime error: integer divide by zero".
Proof. intros Hemp. unfold NumberOfWorkers. by rewrite Hemp, map_size_empty. Qed.

End ServerFacts.

(** ** The engine's construction, worker count and digests *)

Section EngineClaims.

Context {D : Type} `{HD : hash_Hash D} {E : Type} `{HE : Env E}.
Variable P : @Primitives D.
Implicit Types (srv : @serverImpl D E) (c : option (@Cache E)) (algs : list string).

(** C1 (the code departs from it): with the two algorithms md5 and sha256
    and 8 processors, [NumberOfWorkers] returns 1, where
    [min(16, max(1, processors / algorithms))] is 4. *)
Theorem NumberOfWorkers_8_processors_2_algorithms c :
  ∃ srv, NewServer P c ["md5"; "sha256"] = inl srv
         ∧ size (algorithms srv) = 2
         ∧ NumberOfWorkers 8 srv = Ret 1%Z
         ∧ NumberOfWorkers_spec 8 2 = 4%Z.
Proof.
  destruct (NewServer_loop_supported P {| cache := c; algorithms := ∅; closers := [] |}
              ["md5"; "sha256"]) as (srv & Hnew & _ & Hdom).
  { repeat constructor; unfold vocabulary; set_solver. }
  exists srv. split; [exact Hnew|].
  assert (Hsize : size (algorithms srv) = 2).
  { rewrite <- size_dom, Hdom. cbn [algorithms]. rewrite dom_empty_L. by vm_compute. }
  split; [done|]. split; [|done].
  unfold NumberOfWorkers. by rewrite Hsize.
Qed.

(** C3: whatever has been written to a [hashImpl] of an engine built from
    the identifiers [algs], the keys of the map [MultiSum] returns are
    exactly the identifiers of [algs], and the entry of each is the digest
    of its own primitive. *)
Theorem MultiSum_keys c algs srv ro h data :
  NewServer P c algs = inl srv →
  hash_of srv h →
  dom (MultiSum ro h data) = list_to_set algs
  ∧ ∀ a, a ∈ algs →
      ∃ d, h !! a = Some d ∧ MultiSum ro h data !! a = Some (prim_Sum d data).
Proof.
  intros Hnew Hh. apply NewServer_algorithms in Hnew as (_ & _ & Hdom).
  assert (Hdomh : dom h = list_to_set algs).
  { rewrite <- Hdom. induction Hh as [ro'|ro' h p _ IH|ro' h _ IH].
    - apply NewHash_dom.
    - by rewrite Write_dom.
    - by rewrite Reset_fmap, dom_fmap_L. }
  split; [by rewrite MultiSum_dom|].
  intros a Ha.
  assert (Hin : a ∈ dom h) by (rewrite Hdomh; by apply elem_of_list_to_set).
  apply elem_of_dom in Hin as [d Hd]. exists d. split; [done|].
  by rewrite MultiSum_fmap, lookup_fmap, Hd.
Qed.

(** C7: when a list of identifiers has one that [NewServer] has no case
    for, [NewServer] returns no engine and the error that names the first
    such identifier; when it has none, [NewServer] returns an engine, for
    these identifiers, and no error. *)
Theorem NewServer_unknown_or_engine c algs :
  (Exists (λ a, a ∉ vocabulary) algs →
     ∃ l1 b l2, algs = l1 ++ b :: l2 ∧ Forall (λ a, a ∈ vocabulary) l1 ∧ (b ∉ vocabulary)
                ∧ NewServer P c algs = inr ("unknown algorithm: " +:+ b))
  ∧ (Forall (λ a, a ∈ vocabulary) algs →
     ∃ srv, NewServer P c algs = inl srv
            ∧ cache srv = c ∧ dom (algorithms srv) = list_to_set algs).
Proof.
  split.
  - intros Hex. apply Exists_not_Forall in Hex.
    apply first_failure in Hex as (l1 & b & l2 & -> & Hl1 & Hb); [|apply _].
    exists l1, b, l2. split; [done|]. split; [done|]. split; [done|].
    by apply NewServer_loop_unknown.
  - intros Hall.
    destruct (NewServer_loop_supported P {| cache := c; algorithms := ∅; closers := [] |}
                algs Hall) as (srv & Hnew & Hc & Hd).
    exists srv. split; [exact Hnew|]. by apply NewServer_algorithms in Hnew as (_ & ? & ?).
Qed.

(** C10: [NewServer] accepts the empty list, and on the engine it returns
    [NumberOfWorkers], hence [Parallel], panics on the division by the
    number of algorithms; on an engine built from a non-empty list
    [NumberOfWorkers] returns and [Parallel] starts its goroutines. *)
Theorem NewServer_empty_divides_by_zero c :
  (∃ srv, NewServer P c [] = inl srv
          ∧ algorithms srv = ∅
          ∧ ∀ numCPU,
              NumberOfWorkers numCPU srv = Panic "runtime error: integer divide by zero"
              ∧ ∀ e filenames,
                  Parallel_start srv numCPU e filenames
                  = Panic "runtime error: integer divide by zero")
  ∧ (∀ algs srv numCPU,
       algs ≠ [] → NewServer P c algs = inl srv →
       ∃ n, NumberOfWorkers numCPU srv = Ret n
            ∧ ∀ e filenames, ∃ s0, Parallel_start srv numCPU e filenames = Ret s0).
Proof.
  split.
  - eexists. split; [reflexivity|]. split; [reflexivity|]. intros numCPU.
    split; [by apply NumberOfWorkers_panics|]. intros e filenames.
    unfold Parallel_start. by rewrite NumberOfWorkers_panics.
  - intros algs srv numCPU Hne Hnew.
    apply NewServer_algorithms in Hnew as (_ & _ & Hdom).
    destruct (NumberOfWorkers_returns numCPU srv) as [n Hn].
    + intros Hemp. rewrite Hemp, dom_empty_L in Hdom.
      destruct algs as [|a algs]; [done|]. cbn in Hdom.
      symmetry in Hdom. by apply empty_union_L in Hdom as [?%non_empty_singleton_L _].
    + exists n. split; [done|]. intros e filenames. unfold Parallel_start. rewrite Hn. eauto.
Qed.

(** C8 (as amended): [Write] visits the primitives one after the other.
    When every primitive accepts the bytes, all of them have absorbed the
    same bytes and [Write] returns no error.  When a primitive refuses
    them, [Write] returns at once with its count and its error: the
    primitives visited before it have absorbed the bytes, the ones after it
    are left as they were. *)
Theorem Write_visits_in_order ro (h : gmap string D) p :
  (Forall (accepts p) (range ro h) →
     (Write ro h p).1 = (λ d, (prim_Write d p).1) <$> h ∧ (Write ro h p).2.2 = None)
  ∧ (∀ l1 k d l2 e,
       range ro h = l1 ++ (k, d) :: l2 →
       Forall (accepts p) l1 →
       (prim_Write d p).2.2 = Some e →
       (Write ro h p).2 = ((prim_Write d p).2.1, Some e)
       ∧ (∀ k1 d1, (k1, d1) ∈ l1 → (Write ro h p).1 !! k1 = Some (prim_Write d1 p).1)
       ∧ (Write ro h p).1 !! k = Some (prim_Write d p).1
       ∧ (∀ k2 d2, (k2, d2) ∈ l2 → (Write ro h p).1 !! k2 = Some d2)).
Proof.
  split.
  - intros Hall. unfold Write. rewrite Write_loop_accepted by done. cbn [fst snd].
    split; [apply written_range|done].
  - intros l1 k d l2 e Heq Hl1 He.
    pose proof (range_NoDup ro h) as Hnd.
    rewrite Heq, fmap_app, fmap_cons in Hnd. cbn [fst] in Hnd.
    apply NoDup_app in Hnd as (Hnd1 & Hdisj & Hnd2).
    apply NoDup_cons in Hnd2 as [Hk2 Hnd2].
    unfold Write. rewrite Heq, (Write_loop_refused l1 k d l2 p h 0%Z e) by done.
    cbn [fst snd]. split; [done|]. split; [|split].
    + intros k1 d1 Hin.
      assert (Hk1 : k1 ∈ l1.*1) by (apply list_elem_of_fmap; by exists (k1, d1)).
      rewrite lookup_insert_ne; [by apply written_lookup_in|].
      intros <-. apply (Hdisj k); [done|left].
    + apply lookup_insert_eq.
    + intros k2 d2 Hin.
      assert (Hk2' : k2 ∈ l2.*1) by (apply list_elem_of_fmap; by exists (k2, d2)).
      rewrite lookup_insert_ne by (by intros <-).
      rewrite written_lookup_out.
      * apply (elem_of_range ro). rewrite Heq. apply elem_of_app. right. by right.
      * intros Hk1. apply (Hdisj k2); [done|by right].
Qed.

End EngineClaims.

(** ** The body of a worker *)

Section WorkerClaims.

Context {D : Type} `{HD : hash_Hash D} {E : Type} `{HE : Env E}.
Implicit Types (srv : @serverImpl D E) (c : @Cache E) (ro : RangeOrder) (e : E).

Lemma missing_loop_false (kvs : list (string * @NewHashFunc D)) sums :
  missing_loop kvs sums = false ↔ ∀ a, a ∈ kvs.*1 → gomap_has sums a = true.
Proof.
  induction kvs as [|[a f] kvs IH]; cbn [missing_loop].
  - split; [|done]. intros _ a Ha. by apply elem_of_nil in Ha.
  - rewrite fmap_cons. cbn [fst]. destruct (gomap_has sums a) eqn:Ha.
    + rewrite IH. split.
      * intros H a' [->|Hin]%elem_of_cons; auto.
      * intros H a' Hin. apply H. by right.
    + split; [done|]. intros H. rewrite H in Ha; [done|left].
Qed.

(** [missing] stays false exactly when [sums] has every algorithm. *)
Lemma missing_false ro srv sums :
  missing ro srv sums = false ↔ ∀ a, a ∈ dom (algorithms srv) → gomap_has sums a = true.
Proof.
  unfold missing. rewrite missing_loop_false.
  split; intros H a Ha; apply H; by apply (range_keys ro).
Qed.


(** The body of a worker is its calls one after the other. *)
Lemma worker_body_calls ro srv e filename :
  worker_body ro srv e filename
  = match do_Get ro srv e filename with
    | Ret (e1, WHash f) =>
        match do_Hash ro srv e1 f with
        | (e2, WSet f' sums) =>
            match do_Set srv e2 f' sums with
            | Ret (e3, WSend r) => Ret (e3, r)
            | Ret (e3, _) => Panic "unreachable"
            | Panic msg => Panic msg
            end
        | (e2, WSend r) => Ret (e2, r)
        | (e2, _) => Panic "unreachable"
        end
    | Ret (e1, WSend r) => Ret (e1, r)
    | Ret (e1, _) => Panic "unreachable"
    | Panic msg => Panic msg
    end.
Proof.
  unfold worker_body, do_Get, worker_compute, do_Hash, do_Set.
  destruct (cache srv) as [c|].
  - destruct (Cache_Get c e filename) as [[e1 [sums [err|]]]|msg]; [| |done].
    + destruct (hashFile ro e1 filename (NewHash ro srv)) as [e2 [hs [herr|]]]; [done|].
      by destruct (Cache_Set c e2 filename hs) as [[e3 err']|msg].
    + destruct (missing ro srv sums); [|done].
      destruct (hashFile ro e1 filename (NewHash ro srv)) as [e2 [hs [herr|]]]; [done|].
      by destruct (Cache_Set c e2 filename hs) as [[e3 err']|msg].
  - by destruct (hashFile ro e filename (NewHash ro srv)) as [e2 [hs [herr|]]].
Qed.




(** C5: when the file is hashed without an error and the store then
    fails, the result carries the digest map just computed, one digest per
    algorithm, together with the error of the store. *)
Theorem Set_error_keeps_digests ro srv c e filename e1 sums e2 err :
  cache srv = Some c →
  hashFile ro e filename (NewHash ro srv) = (e1, (sums, None)) →
  Cache_Set c e1 filename sums = Ret (e2, Some err) →
  worker_compute ro srv e filename = Ret (e2, mkresult filename sums (Some err))
  ∧ do_Hash ro srv e filename = (e1, WSet filename sums)
  ∧ do_Set srv e1 filename sums = Ret (e2, WSend (mkresult filename sums (Some err)))
  ∧ ∃ m, sums = Some m ∧ dom m = dom (algorithms srv).
Proof.
  intros Hc Hh Hset. split; [|split; [|split]].
  - unfold worker_compute. by rewrite Hh, Hc, Hset.
  - unfold do_Hash. by rewrite Hh, Hc.
  - unfold do_Set. by rewrite Hc, Hset.
  - apply hashFile_sums in Hh as (chunks & _ & ->). eexists. split; [done|].
    by rewrite dom_fmap_L, NewHash_dom.
Qed.

End WorkerClaims.

(** ** [Parallel] *)

Lemma list_to_set_disj_inj (l k : list string) :
  (list_to_set_disj l : gmultiset string) = list_to_set_disj k → l ≡ₚ k.
Proof.
  revert k. induction l as [|x l IH]; intros k Heq.
  - destruct k as [|y k]; [done|]. rewrite list_to_set_disj_nil, list_to_set_disj_cons in Heq.
    multiset_solver.
  - assert (Hx : x ∈ k).
    { apply elem_of_list_to_set_disj. rewrite <- Heq, list_to_set_disj_cons. multiset_solver. }
    apply list_elem_of_split in Hx as (k1 & k2 & ->).
    rewrite <- Permutation_middle. constructor. apply IH.
    rewrite list_to_set_disj_cons, !list_to_set_disj_app, list_to_set_disj_cons in Heq.
    rewrite list_to_set_disj_app. multiset_solver.
Qed.

(** Permutations of concatenations, as equalities of multisets. *)
Ltac solve_perm :=
  apply list_to_set_disj_inj;
  rewrite ?list_to_set_disj_app, ?list_to_set_disj_cons, ?list_to_set_disj_nil;
  multiset_solver.

Section ParallelFacts.

Context {D : Type} `{HD : hash_Hash D} {E : Type} `{HE : Env E}.
Variables (ro : RangeOrder) (srv : @serverImpl D E) (numWorkers : nat) (filenames : list string).
Implicit Types (s : @pstate E) (e : E).

Lemma do_Get_next e f e' w' :
  do_Get ro srv e f = Ret (e', w') →
  w' = WHash f ∨ ∃ sums, w' = WSend (mkresult f sums None).
Proof.
  unfold do_Get. destruct (cache srv) as [c|]; [|intros [= <- <-]; by left].
  destruct (Cache_Get c e f) as [[e1 [sums [err|]]]|msg]; [| |done].
  - intros [= <- <-]. by left.
  - destruct (missing ro srv sums); intros [= <- <-]; [by left|right; eauto].
Qed.

Lemma do_Hash_next e f e' w' :
  do_Hash ro srv e f = (e', w') →
  (∃ sums, w' = WSet f sums) ∨ ∃ sums err, w' = WSend (mkresult f sums err).
Proof.
  unfold do_Hash. destruct (hashFile ro e f (NewHash ro srv)) as [e1 [sums [err|]]].
  - destruct (cache srv); intros [= <- <-]; right; eauto.
  - destruct (cache srv); intros [= <- <-]; [left|right]; eauto.
Qed.

Lemma do_Set_next e f sums e' w' :
  do_Set srv e f sums = Ret (e', w') → ∃ err, w' = WSend (mkresult f sums err).
Proof.
  unfold do_Set. destruct (cache srv) as [c|]; [|intros [= <- <-]; eauto].
  destruct (Cache_Set c e f sums) as [[e2 err']|msg]; [|done].
  intros [= <- <-]. eauto.
Qed.

Lemma step_files s s' :
  step ro srv numWorkers s s' → files_of s' ≡ₚ files_of s.
Proof.
  destruct 1 as [| | | |e e' f w' todo ch cl ws1 ws2 c calls rc m Hdo
                |e e' f w' todo ch cl ws1 ws2 c calls rc m Hdo
                |e e' f sums w' todo ch cl ws1 ws2 c calls rc m Hdo| | | | |];
    unfold files_of; cbn [p_todo p_fileChan p_workers p_consumer p_calls];
    rewrite ?fmap_app, ?fmap_cons, ?concat_app, ?concat_cons;
    cbn [worker_file consumer_file]; try done.
  - solve_perm.
  - solve_perm.
  - apply do_Get_next in Hdo as [->|[sums ->]]; done.
  - apply do_Hash_next in Hdo as [[sums ->]|(sums & err & ->)]; done.
  - apply do_Set_next in Hdo as [err ->]; done.
  - solve_perm.
  - cbn. solve_perm.
Qed.

Lemma do_Get_exit e f e' w' : do_Get ro srv e f = Ret (e', w') → is_exit w' = false.
Proof. intros [->|[sums ->]]%do_Get_next; done. Qed.

Lemma do_Hash_exit e f e' w' : do_Hash ro srv e f = (e', w') → is_exit w' = false.
Proof. intros [[sums ->]|(sums & err & ->)]%do_Hash_next; done. Qed.

Lemma do_Set_exit e f sums e' w' : do_Set srv e f sums = Ret (e', w') → is_exit w' = false.
Proof. intros [err ->]%do_Set_next; done. Qed.

Lemma step_inv s s' :
  step ro srv numWorkers s s' →
  Parallel_inv filenames numWorkers s → Parallel_inv filenames numWorkers s'.
Proof.
  intros Hstep [Hf Hw Hc He Hr Hwt Hco Hret].
  constructor; [by rewrite (step_files s s' Hstep)|..];
    destruct Hstep as [| | | |e e' f w' todo ch cl ws1 ws2 c calls rc m Hdo
                       |e e' f w' todo ch cl ws1 ws2 c calls rc m Hdo
                       |e e' f sums w' todo ch cl ws1 ws2 c calls rc m Hdo| | | | |];
    try (apply do_Get_exit in Hdo); try (apply do_Hash_exit in Hdo);
    try (apply do_Set_exit in Hdo);
    cbn [p_todo p_fileChan p_fileChan_closed p_workers p_consumer p_calls
         p_resultChan_closed p_main] in *;
    rewrite ?length_app, ?Exists_app, ?Exists_cons, ?Forall_app, ?Forall_cons in *;
    cbn [length is_exit] in *;
    try done; try solve [intuition congruence].
  intros _. eapply Forall_impl; [eassumption|]. by intros ? ->.
Qed.

Lemma step_decreases s s' :
  step ro srv numWorkers s s' → (steps_left s' < steps_left s)%nat.
Proof.
  destruct 1 as [| | | |e e' f w' todo ch cl ws1 ws2 c calls rc m Hdo
                |e e' f w' todo ch cl ws1 ws2 c calls rc m Hdo
                |e e' f sums w' todo ch cl ws1 ws2 c calls rc m Hdo| | | | |];
    unfold steps_left;
    cbn [p_todo p_fileChan p_fileChan_closed p_workers p_consumer p_calls p_main];
    rewrite ?sum_list_with_app, ?length_app;
    cbn [sum_list_with worker_weight consumer_weight main_weight length]; try lia.
  - apply do_Get_next in Hdo as [->|[sums ->]]; cbn [worker_weight]; lia.
  - apply do_Hash_next in Hdo as [[sums ->]|(sums & err & ->)]; cbn [worker_weight]; lia.
  - apply do_Set_next in Hdo as [err ->]; cbn [worker_weight]; lia.
Qed.

Lemma nsteps_bound k s s' :
  nsteps (step ro srv numWorkers) k s s' → (k + steps_left s' ≤ steps_left s)%nat.
Proof.
  induction 1 as [|k s1 s2 s3 Hstep _ IH]; [lia|].
  apply step_decreases in Hstep. lia.
Qed.

Lemma nsteps_inv k s s' :
  nsteps (step ro srv numWorkers) k s s' →
  Parallel_inv filenames numWorkers s → Parallel_inv filenames numWorkers s'.
Proof. induction 1; eauto using step_inv. Qed.


Lemma do_Get_returns e f :
  cache_returns srv → ∃ e' w', do_Get ro srv e f = Ret (e', w').
Proof.
  intros Hret. unfold do_Get. destruct (cache srv) as [c|] eqn:Hc; [|eauto].
  destruct (Hret c Hc) as [Hget _]. destruct (Hget e f) as [[e1 [sums [err|]]] ->]; [eauto|].
  destruct (missing ro srv sums); eauto.
Qed.

Lemma do_Set_returns e f sums :
  cache_returns srv → ∃ e' w', do_Set srv e f sums = Ret (e', w').
Proof.
  intros Hret. unfold do_Set. destruct (cache srv) as [c|] eqn:Hc; [|eauto].
  destruct (Hret c Hc) as [_ Hset]. destruct (Hset e f sums) as [[e2 err'] ->]. eauto.
Qed.

Lemma exited_no_file (ws : list wstate) :
  Forall (λ w, is_exit w = true) ws → concat (worker_file <$> ws) = [].
Proof.
  induction 1 as [|w ws Hw _ IH]; [done|]. rewrite fmap_cons. cbn [concat].
  rewrite IH. by destruct w.
Qed.

Lemma exited_all (ws : list wstate) :
  Forall (λ w, is_exit w = true) ws → Forall (λ w, w = WExit) ws.
Proof. intros H. eapply Forall_impl; [exact H|]. by intros []. Qed.

(** What the state is once [Parallel] has returned. *)
Lemma returned_state s :
  (0 < numWorkers)%nat →
  Parallel_inv filenames numWorkers s → p_main s = MReturned →
  p_todo s = [] ∧ p_fileChan s = [] ∧ p_fileChan_closed s = true
  ∧ Forall (λ w, is_exit w = true) (p_workers s)
  ∧ p_consumer s = CExit ∧ p_resultChan_closed s = true.
Proof.
  intros Hpos [Hf Hw Hc He Hr Hwt Hco Hret] Hm.
  assert (Hcons : p_consumer s = CExit) by (by apply Hret).
  assert (Hrc : p_resultChan_closed s = true) by (apply Hco; by right).
  pose proof (Hr Hrc) as Hall.
  destruct He as [Hcl Hch].
  { destruct (p_workers s) as [|w ws]; [cbn in Hw; lia|].
    apply Forall_cons in Hall as [Hex _]. by left. }
  repeat split; auto.
Qed.

Lemma returned_calls s :
  (0 < numWorkers)%nat →
  Parallel_inv filenames numWorkers s → p_main s = MReturned →
  r_filename <$> p_calls s ≡ₚ filenames.
Proof.
  intros Hpos Hinv Hm.
  destruct (returned_state s Hpos Hinv Hm) as (Htodo & Hch & _ & Hall & Hcons & _).
  rewrite <- (inv_files _ _ _ Hinv). unfold files_of.
  by rewrite Htodo, Hch, (exited_no_file _ Hall), Hcons.
Qed.

Lemma returned_final s s' :
  (0 < numWorkers)%nat →
  Parallel_inv filenames numWorkers s → p_main s = MReturned →
  ¬ step ro srv numWorkers s s'.
Proof.
  intros Hpos Hinv Hm Hstep.
  destruct (returned_state s Hpos Hinv Hm) as (Htodo & Hch & Hcl & Hall & Hcons & Hrc).
  destruct Hstep;
    cbn [p_todo p_fileChan p_fileChan_closed p_workers p_consumer p_resultChan_closed
         p_main] in *;
    rewrite ?Forall_app, ?Forall_cons in Hall; cbn [is_exit] in Hall;
    try done; intuition congruence.
Qed.

Lemma idle_workers (ws : list wstate) :
  Forall (λ w, is_idle w = true) ws →
  Forall (λ w, is_exit w = true) ws ∨ ∃ ws1 ws2, ws = ws1 ++ WRecv :: ws2.
Proof.
  intros Hidle.
  destruct (decide (Forall (λ w, is_exit w = true) ws)) as [Hexit|Hrecv]; [by left|right].
  apply first_failure in Hrecv as (ws1 & w & ws2 & -> & _ & Hw); [|apply _].
  apply Forall_app in Hidle as [_ [Hi _]%Forall_cons].
  exists ws1, ws2. by destruct w.
Qed.

(** The producer and the workers: one of them can take a step, unless
    every file name has been sent and received and every worker has left
    its loop. *)
Lemma progress_workers e todo ch cl ws c calls rc m :
  (0 < numWorkers)%nat →
  Parallel_inv filenames numWorkers (PState e todo ch cl ws c calls rc m) →
  Forall (λ w, is_idle w = true) ws →
  (∃ s', step ro srv numWorkers (PState e todo ch cl ws c calls rc m) s')
  ∨ Forall (λ w, is_exit w = true) ws.
Proof.
  intros Hpos [Hf Hw Hc He Hr Hwt Hco Hret] Hidle.
  cbn [p_todo p_fileChan p_fileChan_closed p_workers] in *.
  destruct (idle_workers ws Hidle) as [Hexit|(ws1 & ws2 & ->)]; [by right|left].
  destruct ch as [|f ch]; [|eexists; apply step_receive].
  destruct todo as [|f todo].
  - destruct cl; eexists; [apply step_worker_exit|apply step_close_fileChan].
  - destruct cl; [by specialize (Hc eq_refl)|].
    eexists. apply step_produce. cbn. lia.
Qed.

(** As long as [Parallel] has not returned, one of its goroutines can
    take a step. *)
Lemma progress s :
  (0 < numWorkers)%nat → cache_returns srv →
  Parallel_inv filenames numWorkers s → p_main s ≠ MReturned →
  ∃ s', step ro srv numWorkers s s'.
Proof.
  intros Hpos Hcache Hinv Hm.
  destruct s as [e todo ch cl ws c calls rc m].
  pose proof Hinv as [Hf Hw Hc He Hr Hwt Hco Hret].
  cbn [p_todo p_fileChan p_fileChan_closed p_workers p_consumer p_resultChan_closed
       p_main] in *.
  destruct (decide (Forall (λ w, is_idle w = true) ws)) as [Hidle|Hbusy].
  - destruct (progress_workers _ _ _ _ _ _ _ _ _ Hpos Hinv Hidle) as [Hstep|Hexit]; [done|].
    destruct m; [| |done].
    + destruct rc; [by pose proof (proj1 Hwt eq_refl)|].
      eexists. apply step_close_resultChan. by apply exited_all.
    + destruct rc; [|by pose proof (proj2 Hwt eq_refl)].
      destruct c as [|r| |].
      * eexists. apply step_consumer_end.
      * eexists. apply step_onResult.
      * eexists. apply step_done.
      * by specialize (proj1 Hret eq_refl).
  - apply first_failure in Hbusy as (ws1 & w & ws2 & -> & _ & Hw'); [|apply _].
    assert (Hnot : ¬ Forall (λ w, is_exit w = true) (ws1 ++ w :: ws2)).
    { rewrite Forall_app, Forall_cons. intros (_ & Hx & _). by destruct w. }
    destruct w as [|f|f|f sums|r|]; [done| | | | |done].
    + destruct (do_Get_returns e f Hcache) as (e' & w' & Hdo).
      eexists. by eapply step_Get.
    + destruct (do_Hash ro srv e f) as [e' w'] eqn:Hdo.
      eexists. by eapply step_Hash.
    + destruct (do_Set_returns e f sums Hcache) as (e' & w' & Hdo).
      eexists. by eapply step_Set.
    + destruct rc; [by destruct Hnot; apply Hr|].
      destruct c as [|r'| |].
      * eexists. apply step_result.
      * eexists. apply step_onResult.
      * by destruct Hco; [left|].
      * by destruct Hco; [right|].
Qed.

(** From every state it reaches, [Parallel] can run until the caller
    returns. *)
Lemma runs_to_return s :
  (0 < numWorkers)%nat → cache_returns srv →
  Parallel_inv filenames numWorkers s →
  ∃ k s', nsteps (step ro srv numWorkers) k s s' ∧ p_main s' = MReturned.
Proof.
  intros Hpos Hcache. remember (steps_left s) as n eqn:Hn. revert s Hn.
  induction (lt_wf n) as [n _ IH]. intros s -> Hinv.
  destruct (p_main s) eqn:Hm.
  - destruct (progress s Hpos Hcache Hinv) as [s1 Hstep]; [by rewrite Hm|].
    destruct (IH (steps_left s1) (step_decreases _ _ Hstep) s1 eq_refl
                (step_inv _ _ Hstep Hinv)) as (k & s' & Hrun & Hret).
    exists (S k), s'. split; [by eapply nsteps_l|done].
  - destruct (progress s Hpos Hcache Hinv) as [s1 Hstep]; [by rewrite Hm|].
    destruct (IH (steps_left s1) (step_decreases _ _ Hstep) s1 eq_refl
                (step_inv _ _ Hstep Hinv)) as (k & s' & Hrun & Hret).
    exists (S k), s'. split; [by eapply nsteps_l|done].
  - exists 0%nat, s. split; [constructor|done].
Qed.

Lemma start_weight (n : nat) : sum_list_with worker_weight (replicate n WRecv) = n.
Proof. induction n as [|n IH]; [done|]. cbn. by rewrite IH. Qed.

Lemma start_inv e :
  Parallel_inv filenames numWorkers
    (PState e filenames [] false (replicate numWorkers WRecv) CRecv [] false MWait).
Proof.
  assert (Hrecv : Forall (λ w, w = WRecv) (replicate numWorkers WRecv))
    by (by apply Forall_replicate).
  constructor; cbn [p_todo p_fileChan p_fileChan_closed p_workers p_consumer p_calls
                    p_resultChan_closed p_main]; try done.
  - unfold files_of. cbn [p_todo p_fileChan p_workers p_consumer p_calls consumer_file].
    assert (concat (worker_file <$> replicate numWorkers WRecv) = []) as ->.
    { induction numWorkers as [|n IH]; [done|]. cbn. apply IH. by apply Forall_replicate. }
    cbn. by rewrite (right_id_L [] (++)).
  - apply length_replicate.
  - intros (w & Hin & Hw)%Exists_exists.
    rewrite Forall_forall in Hrecv. by rewrite (Hrecv w Hin) in Hw.
  - intros [|]; done.
Qed.

End ParallelFacts.

Section ParallelClaim.

Context {D : Type} `{HD : hash_Hash D} {E : Type} `{HE : Env E}.

(** C9: [Parallel], on an engine with at least one algorithm, starts its
    goroutines, and from there on, whatever the interleaving: it takes a
    bounded number of steps; when the caller has returned, [onResult] has
    been called once for every file name of the list, as many times as the
    list is long, and no goroutine can take a further step; and, provided
    the calls of the cache return, as long as the caller has not returned
    some goroutine can take a step, and the steps can go on until the
    caller returns. *)
Theorem Parallel_calls_onResult_once_per_file ro (srv : @serverImpl D E) numCPU e filenames :
  algorithms srv ≠ ∅ →
  ∃ n s0,
    NumberOfWorkers numCPU srv = Ret n
    ∧ Parallel_start srv numCPU e filenames = Ret s0
    ∧ ∀ k s,
        nsteps (step ro srv (Z.to_nat n)) k s0 s →
        (k ≤ 10 * length filenames + Z.to_nat n + 5)%nat
        ∧ (p_main s = MReturned →
           length (p_calls s) = length filenames
           ∧ r_filename <$> p_calls s ≡ₚ filenames
           ∧ ∀ s', ¬ step ro srv (Z.to_nat n) s s')
        ∧ (cache_returns srv →
           (p_main s ≠ MReturned → ∃ s', step ro srv (Z.to_nat n) s s')
           ∧ ∃ k' s', nsteps (step ro srv (Z.to_nat n)) k' s s' ∧ p_main s' = MReturned).
Proof.
  intros Hne. destruct (NumberOfWorkers_returns numCPU srv Hne) as [n Hn].
  exists n. eexists. split; [done|]. unfold Parallel_start. rewrite Hn. split; [done|].
  assert (Hpos : (0 < Z.to_nat n)%nat).
  { apply NumberOfWorkers_values in Hn as [->| ->]; lia. }
  intros k s Hsteps.
  pose proof (nsteps_inv ro srv _ filenames _ _ _ Hsteps (start_inv _ filenames e)) as Hinv.
  split; [|split].
  - apply nsteps_bound in Hsteps. unfold steps_left in Hsteps at 2.
    cbn [p_todo p_fileChan p_fileChan_closed p_workers p_consumer p_main
         consumer_weight main_weight length] in Hsteps.
    rewrite start_weight in Hsteps. lia.
  - intros Hm. split; [|split].
    + rewrite <- (returned_calls _ filenames s Hpos Hinv Hm). by rewrite length_fmap.
    + by apply (returned_calls (Z.to_nat n)).
    + intros s'. by apply (returned_final ro srv _ filenames).
  - intros Hcache. split.
    + intros Hm. by apply (progress ro srv _ filenames).
    + by apply (runs_to_return ro srv _ filenames).
Qed.

End ParallelClaim.

(** ** The cache in extended attributes *)

Section XattrFacts.

Variable ro : RangeOrder.
Implicit Types (w : world) (c : xattrCache).

Lemma name_newXattrCache k :
  k ≠ "" → name (attrs newXattrCache) k = "user.xsum." +:+ k.
Proof.
  intros Hk. unfold name. cbn.
  by rewrite (proj2 (String.eqb_neq _ _) Hk).
Qed.


Lemma xattr_Remove_fixed w path n : fixed_part (xattr_Remove w path n).1 path = fixed_part w path.
Proof.
  unfold xattr_Remove. destruct (w_files w !! path) as [ino|] eqn:Hino; [|done].
  destruct (i_xattr_err ino) eqn:Herr; [done|].
  destruct (i_xattr ino !! n); [|done].
  unfold fixed_part, set_xattr. cbn. by rewrite lookup_insert_eq, Hino.
Qed.

Lemma DeleteNS_loop_fixed (a : osXattr) w path prefix keys :
  fixed_part (DeleteNS_loop a w path prefix keys).1 path = fixed_part w path.
Proof.
  revert w. induction keys as [|key keys IH]; intros w; [done|].
  cbn [DeleteNS_loop]. destruct (HasPrefix key prefix); [|apply IH].
  pose proof (xattr_Remove_fixed w path (name a key)) as Hrm.
  destruct (xattr_Remove w path (name a key)) as [w1 [err|]]; [done|].
  by rewrite IH.
Qed.

Lemma DeleteNS_fixed (a : osXattr) w path ns' :
  fixed_part (DeleteNS ro a w path ns').1 path = fixed_part w path.
Proof.
  unfold DeleteNS. destruct (List ro a w path); [|done]. apply DeleteNS_loop_fixed.
Qed.

(** [Get] on an entry whose time stamp is before the modification time
    of the file. *)
Lemma xattrCache_Get_stale c w filename ino b timestamp :
  w_files w !! filename = Some ino →
  i_xattr ino !! name (attrs c) "time" = Some b →
  timeFromBytes b = Ret timestamp →
  (timestamp < i_modtime ino)%Z →
  ∃ w1, xattrCache_Get ro c w filename = Ret (w1, (None, None))
        ∧ fixed_part w1 filename = fixed_part w filename.
Proof.
  intros Hino Hb Hts Hlt. unfold xattrCache_Get, os_Stat, Get, xattr_Get.
  rewrite Hino, Hb, Hts. unfold After.
  rewrite (proj2 (Z.ltb_lt _ _) Hlt).
  pose proof (DeleteNS_fixed (attrs c) w filename "") as Hfix.
  destruct (DeleteNS ro (attrs c) w filename "") as [w1 err]. eauto.
Qed.

(** The attributes after the loop of [Set]. *)
Lemma Set_loop_stored c w filename kvs ino :
  w_files w !! filename = Some ino →
  i_xattr_err ino = None →
  ∃ w' ino',
    Set_loop c w filename kvs = (w', None)
    ∧ fixed_part w' filename = fixed_part w filename
    ∧ w_files w' !! filename = Some ino'
    ∧ i_xattr_err ino' = None
    ∧ i_xattr ino' = foldl (λ x kv, <[name (attrs c) kv.1 := kv.2]> x) (i_xattr ino) kvs.
Proof.
  revert w ino. induction kvs as [|[k v] kvs IH]; intros w ino Hino Herr.
  - exists w, ino. by cbn.
  - cbn [Set_loop foldl fst snd].
    assert (Hset : Set_ (attrs c) w filename k v
                   = (set_xattr w filename ino (<[name (attrs c) k := v]> (i_xattr ino)), None)).
    { unfold Set_, xattr_Set. by rewrite Hino, Herr. }
    rewrite Hset.
    edestruct (IH (set_xattr w filename ino (<[name (attrs c) k := v]> (i_xattr ino))))
      as (w' & ino' & -> & Hfix & Hino' & Herr' & Hx).
    { unfold set_xattr. cbn. apply lookup_insert_eq. }
    { done. }
    exists w', ino'. split; [done|]. split; [|done].
    rewrite Hfix. unfold fixed_part, set_xattr. cbn. by rewrite lookup_insert_eq, Hino.
Qed.




Lemma not_algorithm (s : string) :
  s ∉ vocabulary → ∀ a, a ∈ vocabulary → a ≠ s.
Proof. by intros Hs a Ha ->. Qed.

Lemma time_not_algorithm : "time" ∉ vocabulary.
Proof.
  unfold vocabulary. intros H.
  repeat (apply elem_of_cons in H as [H|H]; [discriminate|]). by apply elem_of_nil in H.
Qed.

Lemma empty_not_algorithm : "" ∉ vocabulary.
Proof.
  unfold vocabulary. intros H.
  repeat (apply elem_of_cons in H as [H|H]; [discriminate|]). by apply elem_of_nil in H.
Qed.



Lemma hashFile_world {D} `{hash_Hash D} w filename (h : gmap string D) :
  (hashFile ro w filename h).1
  = {| w_files := w_files w; w_now := w_now w; w_opened := w_opened w ++ [filename] |}.
Proof.
  unfold hashFile. cbn [os_Open world_Env]. unfold world_Open.
  destruct (w_files w !! filename) as [ino|]; [|done].
  destruct (i_open ino); [done|].
  by destruct (io_Copy ro h (i_chunks ino) (i_final ino)) as [h' [err|]].
Qed.

End XattrFacts.

(** *** The encoding of times, and [Get] after [Set] *)

Lemma Z_of_byte_of_Z (z : Z) : Z_of_byte (byte_of_Z z) = (z mod 256)%Z.
Proof.
  unfold Z_of_byte, byte_of_Z.
  assert (Hlt : (0 ≤ z mod 256 < 256)%Z) by (apply Z.mod_pos_bound; lia).
  destruct (Byte.of_N (Z.to_N (z mod 256))) as [b|] eqn:Hb.
  - apply Byte.to_of_N in Hb. change (default Byte.x00 (Some b)) with b. rewrite Hb. lia.
  - apply Byte.of_N_None_iff in Hb. lia.
Qed.

Lemma testbit_byte (v i n : Z) :
  (0 ≤ i)%Z → (0 ≤ n)%Z →
  Z.testbit (Z.shiftl (Z_of_byte (byte_of_Z (Z.shiftr v i))) i) n
  = (bool_decide (i ≤ n < i + 8)%Z && Z.testbit v n).
Proof.
  intros Hi Hn. rewrite Z_of_byte_of_Z.
  change 256%Z with (2 ^ 8)%Z.
  destruct (decide (i ≤ n)%Z) as [Hin|Hin].
  - rewrite Z.shiftl_spec by lia.
    destruct (decide (n < i + 8)%Z) as [Hlt|Hge].
    + rewrite Z.mod_pow2_bits_low by lia. rewrite Z.shiftr_spec by lia.
      rewrite bool_decide_true by lia. cbn. f_equal. lia.
    + rewrite Z.mod_pow2_bits_high by lia. by rewrite bool_decide_false by lia.
  - rewrite Z.shiftl_spec_low by lia. by rewrite bool_decide_false by lia.
Qed.

Lemma Uint64_AppendUint64 (v : Z) : Uint64 (AppendUint64 [] v) = Ret (uint64 v).
Proof.
  unfold AppendUint64, Uint64, uint64. cbn [app]. f_equal.
  apply Z.bits_inj'. intros n Hn.
  rewrite <- (Z.shiftr_0_r v) at 1.
  rewrite <- (Z.shiftl_0_r (Z_of_byte (byte_of_Z (Z.shiftr v 0)))).
  rewrite !Z.lor_spec, !testbit_byte by lia.
  change (2 ^ 64)%Z with (2 ^ 64)%Z.
  destruct (decide (n < 64)%Z) as [Hlt|Hge].
  - rewrite Z.mod_pow2_bits_low by lia.
    destruct (Z.testbit v n); [|by rewrite !andb_false_r].
    rewrite !andb_true_r.
    repeat match goal with |- context [bool_decide ?P] => destruct (bool_decide_reflect P) end;
      try done; lia.
  - rewrite Z.mod_pow2_bits_high by lia.
    repeat match goal with |- context [bool_decide ?P] => rewrite (bool_decide_false P) by lia end.
    done.
Qed.

Lemma int64_uint64 (x : Z) : int64 (uint64 x) = int64 x.
Proof. unfold int64, uint64. by rewrite Zplus_mod_idemp_l. Qed.

Lemma int64_int64 (x : Z) : int64 (int64 x) = int64 x.
Proof.
  unfold int64.
  assert (0 ≤ (x + 2 ^ 63) mod 2 ^ 64 < 2 ^ 64)%Z by (apply Z.mod_pos_bound; lia).
  replace ((x + 2 ^ 63) mod 2 ^ 64 - 2 ^ 63 + 2 ^ 63)%Z with ((x + 2 ^ 63) mod 2 ^ 64)%Z by lia.
  by rewrite Z.mod_mod by lia.
Qed.

(** The time read back from the bytes of a time is that time in whole
    seconds. *)
Lemma timeFromBytes_timeToBytes (t : Z) :
  timeFromBytes (timeToBytes t) = Ret (time_Unix (Unix t)).
Proof.
  unfold timeFromBytes, timeToBytes. rewrite Uint64_AppendUint64.
  rewrite !int64_uint64. unfold Unix. by rewrite int64_int64.
Qed.

Section GetFacts.

Variable ro : RangeOrder.





End GetFacts.

Section CacheClaim.

Context {D : Type} `{HD : hash_Hash D}.
Variable ro : RangeOrder.

(** What [fixed_part] keeps of a file. *)
Lemma fixed_part_file w w' path ino :
  fixed_part w' path = fixed_part w path →
  w_files w !! path = Some ino →
  w_now w' = w_now w ∧ w_opened w' = w_opened w
  ∧ ∃ ino', w_files w' !! path = Some ino'
            ∧ i_modtime ino' = i_modtime ino ∧ i_open ino' = i_open ino
            ∧ i_chunks ino' = i_chunks ino ∧ i_final ino' = i_final ino
            ∧ i_xattr_err ino' = i_xattr_err ino.
Proof.
  unfold fixed_part. intros Hfix Hino. rewrite Hino in Hfix.
  destruct (w_files w' !! path) as [ino'|]; [|done].
  injection Hfix as ? ? ? ? ? ? ?. eauto 10.
Qed.


End CacheClaim.

(** ** The statements on examples *)

(** C3, on the engine for md5 and sha256 after one write. *)
Lemma MultiSum_keys_witness :
  dom (MultiSum listing_order
         (Write listing_order (NewHash listing_order md5_sha256_server) [Byte.x61]).1 [])
  = list_to_set ["md5"; "sha256"].
Proof.
  apply (MultiSum_keys sumhash_Primitives None ["md5"; "sha256"] md5_sha256_server).
  - reflexivity.
  - apply hash_of_Write, hash_of_NewHash.
Defined.

(** C7, on a list with the unknown identifier "sha3" and on a list of
    known identifiers. *)
Lemma NewServer_unknown_or_engine_witness :
  (∃ l1 b l2, ["md5"; "sha3"; "sha1"] = l1 ++ b :: l2
     ∧ Forall (λ a, a ∈ vocabulary) l1 ∧ (b ∉ vocabulary)
     ∧ NewServer (E:=world) sumhash_Primitives None ["md5"; "sha3"; "sha1"]
       = inr ("unknown algorithm: " +:+ b))
  ∧ (∃ srv, NewServer (E:=world) sumhash_Primitives None ["md5"; "sha256"] = inl srv
     ∧ cache srv = None ∧ dom (algorithms srv) = list_to_set ["md5"; "sha256"]).
Proof.
  split.
  - apply (NewServer_unknown_or_engine sumhash_Primitives None ["md5"; "sha3"; "sha1"]).
    apply Exists_cons_tl, Exists_cons_hd. unfold vocabulary. intros H.
    repeat (apply elem_of_cons in H as [H|H]; [discriminate|]). by apply elem_of_nil in H.
  - apply (NewServer_unknown_or_engine sumhash_Primitives None ["md5"; "sha256"]).
    unfold vocabulary. repeat constructor.
Defined.

(** C10, on the engine for md5 and four processors. *)
Lemma NewServer_empty_divides_by_zero_witness :
  ∃ n, NumberOfWorkers 4 md5_server = Ret n
       ∧ ∀ (e : world) filenames, ∃ s0, Parallel_start md5_server 4 e filenames = Ret s0.
Proof.
  apply (proj2 (NewServer_empty_divides_by_zero sumhash_Primitives None) ["md5"]).
  - discriminate.
  - reflexivity.
Defined.

(** C8 (as amended), on a byte written to the engine whose md5 digests
    refuse writes: sha256 is visited first and absorbs the byte, md5
    refuses it. *)
Lemma Write_visits_in_order_witness :
  let h := NewHash listing_order closed_md5_server in
  (Write listing_order h [Byte.x61]).2 = (0%Z, Some "digest closed")
  ∧ (Write listing_order h [Byte.x61]).1 !! "sha256"
    = Some {| sh_tag := Byte.x03; sh_buf := [Byte.x61]; sh_closed := false |}.
Proof.
  intros h.
  destruct (proj2 (Write_visits_in_order listing_order h [Byte.x61])
              [("sha256", {| sh_tag := Byte.x03; sh_buf := []; sh_closed := false |})]
              "md5" {| sh_tag := Byte.x01; sh_buf := []; sh_closed := true |} []
              "digest closed")
    as (Hret & Hbefore & _ & _).
  - reflexivity.
  - repeat constructor.
  - reflexivity.
  - split; [exact Hret|].
    apply (Hbefore "sha256" {| sh_tag := Byte.x03; sh_buf := []; sh_closed := false |}).
    left.
Defined.

(** C8 (as the claim has it, refuted): a write that fails has been
    applied in part.  On the engine whose md5 digests refuse writes, [Write]
    returns the error of md5, and sha256 has absorbed the byte that md5 has
    not. *)
Lemma Write_refused_is_partial :
  let h := NewHash listing_order closed_md5_server in
  let h' := (Write listing_order h [Byte.x61]).1 in
  (Write listing_order h [Byte.x61]).2.2 = Some "digest closed"
  ∧ sh_buf <$> h !! "sha256" = Some []
  ∧ sh_buf <$> h' !! "sha256" = Some [Byte.x61]
  ∧ sh_buf <$> h' !! "md5" = Some []
  ∧ h' ≠ h.
Proof.
  cbv zeta. repeat split; try reflexivity.
  intros Heq. apply (f_equal (λ m, sh_buf <$> m !! "sha256")) in Heq.
  vm_compute in Heq. discriminate Heq.
Qed.

(** The same write when md5 is visited first: md5 refuses the byte and
    sha256 is not visited, so what a failed write leaves behind depends on
    the order of the loop. *)
Example Write_refused_first :
  let h := NewHash reverse_order closed_md5_server in
  let h' := (Write reverse_order h [Byte.x61]).1 in
  (Write reverse_order h [Byte.x61]).2.2 = Some "digest closed"
  ∧ sh_buf <$> h' !! "sha256" = Some []
  ∧ sh_buf <$> h' !! "md5" = Some [].
Proof. cbv zeta. repeat split; reflexivity. Qed.



(** C5, on "/f" with attributes that cannot be written: the result has
    the two digests and the error of [Set]. *)
Lemma Set_error_keeps_digests_witness :
  ∃ w2,
    worker_compute listing_order xattr_server readonly_world "/f"
    = Ret (w2, mkresult "/f"
                 (Some (<["sha256" := [Byte.x03; Byte.xc3]]>
                          (<["md5" := [Byte.x01; Byte.xc3]]> ∅)))
                 (Some "operation not permitted")).
Proof.
  eexists.
  refine (proj1 (Set_error_keeps_digests listing_order xattr_server
                   (xattr_Cache listing_order newXattrCache) readonly_world "/f"
                   _ _ _ "operation not permitted" _ _ _)).
  - reflexivity.
  - vm_compute. reflexivity.
  - vm_compute. reflexivity.
Defined.


(** C9, on the engine for md5 and sha256, eight processors and two
    files. *)
Lemma Parallel_calls_onResult_once_per_file_witness :
  ∃ n s0,
    NumberOfWorkers 8 md5_sha256_server = Ret n
    ∧ Parallel_start md5_sha256_server 8 (one_file 1 ∅ None) ["/f"; "/g"] = Ret s0
    ∧ ∀ k s,
        nsteps (step listing_order md5_sha256_server (Z.to_nat n)) k s0 s →
        p_main s = MReturned → length (p_calls s) = 2.
Proof.
  destruct (Parallel_calls_onResult_once_per_file listing_order md5_sha256_server 8
              (one_file 1 ∅ None) ["/f"; "/g"])
    as (n & s0 & Hn & Hs0 & Hrun).
  - apply insert_non_empty.
  - exists n, s0. split; [exact Hn|]. split; [exact Hs0|].
    intros k s Hsteps Hm. by destruct (Hrun k s Hsteps) as (_ & [? _] & _).
Defined.

(** * Further properties *)

(** ** The engine: [Close], [hashFile] and the sizes *)

Section CloseFacts.

Context {D : Type} `{HD : hash_Hash D} {E : Type} `{HE : Env E}.
Implicit Types (srv : @serverImpl D E).

Lemma Close_loop_join closers err :
  Close_loop closers err
  = match err with
    | None => join_errors (omap (λ closer, closer ()) closers)
    | Some e => Some (foldl (λ acc e2, acc +:+ "; " +:+ e2) e
                        (omap (λ closer : unit → error, closer ()) closers))
    end.
Proof.
  revert err. induction closers as [|closer closers IH]; intros err.
  - by destruct err.
  - cbn [Close_loop omap list_omap]. destruct (closer ()) as [err2|]; [|apply IH].
    destruct err as [e|]; by rewrite IH.
Qed.

(** X1: [Close] drops no error: it returns [nil] when every closer
    does, and otherwise the errors of the closers, in the order of the
    closers, joined by "; ". *)
Theorem Close_joins_errors srv :
  (Close srv).2 = join_errors (omap (λ closer, closer ()) (closers srv))
  ∧ ((Close srv).2 = None ↔ Forall (λ closer, closer () = None) (closers srv)).
Proof.
  assert (Hjoin : (Close srv).2 = join_errors (omap (λ closer, closer ()) (closers srv)))
    by apply (Close_loop_join (closers srv) None).
  split; [done|]. rewrite Hjoin. clear Hjoin.
  induction (closers srv) as [|closer cs IH]; [by split; [constructor|]|].
  rewrite Forall_cons. cbn [omap list_omap]. destruct (closer ()) as [e|].
  - split; [done|]. by intros [? _].
  - rewrite IH. by split; [|intros [_ ?]].
Qed.

Lemma NewServer_loop_closers (P : @Primitives D) srv algs srv' :
  NewServer_loop P srv algs = inl srv' →
  Forall (λ closer, closer () = None) (closers srv) →
  Forall (λ closer, closer () = None) (closers srv').
Proof.
  revert srv. induction algs as [|a algs IH]; intros srv Hloop Hall.
  - by injection Hloop as <-.
  - cbn [NewServer_loop] in Hloop.
    destruct (NewServer_case P srv a) as [srv1|err] eqn:Hcase; [|done].
    apply (IH srv1 Hloop). unfold NewServer_case in Hcase.
    repeat match type of Hcase with
           | (if ?b then _ else _) = _ => destruct b
           end; try discriminate Hcase;
      injection Hcase as <-; cbn [closers set_algorithm add_closer]; try done.
    apply Forall_app. split; [done|]. by repeat constructor.
Qed.

End CloseFacts.

Section HashMore.

Context {D : Type} `{HD : hash_Hash D} {E : Type} `{HE : Env E}.
Implicit Types (srv : @serverImpl D E) (h : gmap string D) (ro : RangeOrder).

Lemma range_empty {V} ro : range ro (∅ : gmap string V) = [].
Proof.
  apply Permutation_nil_r. rewrite (range_perm ro V ∅). by rewrite map_to_list_empty.
Qed.

Lemma io_Copy_no_primitive ro chunks final :
  Exists (λ buf : bytes, buf ≠ []) chunks →
  io_Copy ro (∅ : gmap string D) chunks final = (∅, Some ErrShortWrite).
Proof.
  induction chunks as [|buf chunks IH]; intros Hex; [by apply Exists_nil in Hex|].
  cbn [io_Copy]. destruct buf as [|b buf].
  - cbn. apply IH. by apply Exists_cons in Hex as [?|?].
  - assert ((0 <? Z.of_nat (length (b :: buf)))%Z = true) as -> by (apply Z.ltb_lt; cbn; lia).
    unfold Write. rewrite range_empty. cbn [Write_loop].
    assert ((0 <? 0)%Z || (Z.of_nat (length (b :: buf)) <? 0)%Z = false) as ->.
    { apply orb_false_intro; apply Z.ltb_ge; cbn; lia. }
    assert ((Z.of_nat (length (b :: buf)) =? 0)%Z = false) as -> by (apply Z.eqb_neq; cbn; lia).
    done.
Qed.

(** X2: a [hashImpl] without primitives hashes no file that has
    bytes: its [Write] returns the count 0, which [io.Copy] reports as a
    short write. *)
Theorem hashFile_no_primitive ro e filename e1 chunks final :
  os_Open e filename = (e1, inl (chunks, final)) →
  Exists (λ buf : bytes, buf ≠ []) chunks →
  hashFile ro e filename (∅ : gmap string D) = (e1, (None, Some ErrShortWrite)).
Proof.
  intros Hopen Hex. unfold hashFile. rewrite Hopen. by rewrite io_Copy_no_primitive.
Qed.

(** X3: on an engine that [NewServer] returned, [Close] returns no
    error; what is left has no algorithm, so that [NumberOfWorkers] and
    [Parallel] panic on it, and [NewHash] gives a [hashImpl] without
    primitives. *)
Theorem Close_then_use (P : @Primitives D) c algs srv :
  NewServer P c algs = inl srv →
  (Close srv).2 = None
  ∧ (∀ ro, NewHash ro (Close srv).1 = ∅)
  ∧ ∀ numCPU,
      NumberOfWorkers numCPU (Close srv).1 = Panic "runtime error: integer divide by zero"
      ∧ ∀ e filenames,
          Parallel_start (Close srv).1 numCPU e filenames
          = Panic "runtime error: integer divide by zero".
Proof.
  intros Hnew. split; [|split].
  - unfold Close. cbn [snd]. rewrite Close_loop_join.
    apply NewServer_loop_closers in Hnew; [|by constructor].
    induction Hnew as [|closer cs Hc _ IH]; [done|]. cbn [omap list_omap]. by rewrite Hc.
  - intros ro. rewrite NewHash_fmap. cbn [Close fst algorithms]. apply fmap_empty.
  - intros numCPU. split; [by apply NumberOfWorkers_panics|].
    intros e filenames. unfold Parallel_start. by rewrite NumberOfWorkers_panics.
Qed.

(** X4: [hashFile] returns a digest map, with one digest per
    primitive of the hash, exactly when it returns no error. *)
Theorem hashFile_sums_or_error ro e filename h :
  let '(_, (sums, err)) := hashFile ro e filename h in
  (err = None ↔ is_Some sums)
  ∧ ∀ m, sums = Some m → dom m = dom h.
Proof.
  destruct (hashFile ro e filename h) as [e1 [sums [err|]]] eqn:Hh.
  - apply hashFile_err in Hh as ->. split; [split; [done|by intros [? ?]]|done].
  - apply hashFile_sums in Hh as (chunks & _ & ->). split; [by split; eauto|].
    intros m [= <-]. apply dom_fmap_L.
Qed.

Lemma absorb_concat (d : D) chunks :
  (∀ (d : D) p q, (prim_Write (prim_Write d p).1 q).1 = (prim_Write d (p ++ q)).1) →
  absorb d chunks = absorb d [concat chunks].
Proof.
  intros Hstream. revert d. induction chunks as [|c chunks IH]; intros d; [done|].
  unfold absorb at 1. cbn [foldl]. fold (absorb (if (0 <? Z.of_nat (length c))%Z
                                               then (prim_Write d c).1 else d) chunks).
  rewrite IH. unfold absorb. cbn [foldl concat].
  destruct c as [|b c]; [done|].
  assert ((0 <? Z.of_nat (length (b :: c)))%Z = true) as -> by (apply Z.ltb_lt; cbn; lia).
  assert ((0 <? Z.of_nat (length ((b :: c) ++ concat chunks)))%Z = true) as ->
    by (apply Z.ltb_lt; cbn; lia).
  destruct (concat chunks) as [|b' rest] eqn:Hc.
  - cbn. by rewrite (right_id_L [] (++)).
  - assert ((0 <? Z.of_nat (length (b' :: rest)))%Z = true) as -> by (apply Z.ltb_lt; cbn; lia).
    apply Hstream.
Qed.

Lemma Write_contract ro h p :
  hash_contract (D:=D) → h ≠ ∅ →
  Write ro h p = ((λ d, (prim_Write d p).1) <$> h, (Z.of_nat (length p), None)).
Proof.
  intros Hc Hne. unfold Write.
  assert (Hall : Forall (accepts p) (range ro h)).
  { apply Forall_forall. intros kd _. unfold accepts. by rewrite (contract_Write Hc). }
  rewrite Write_loop_accepted by done. rewrite written_range. do 2 f_equal.
  assert (Hr : range ro h ≠ []).
  { intros Hr. destruct Hne. by rewrite <- (range_list_to_map ro h), Hr. }
  clear Hall. revert Hr. generalize 0%Z.
  induction (range ro h) as [|kd kds IH]; intros z Hr; [done|].
  cbn [foldl]. destruct kds as [|kd' kds]; [|by apply IH].
  cbn. by rewrite (contract_Write Hc).
Qed.

Lemma io_Copy_contract ro h chunks final :
  hash_contract (D:=D) → h ≠ ∅ →
  io_Copy ro h chunks final = ((λ d, absorb d chunks) <$> h, final).
Proof.
  intros Hc Hne. revert h Hne. induction chunks as [|buf chunks IH]; intros h Hne.
  - cbn. unfold absorb. cbn. by rewrite map_fmap_id.
  - cbn [io_Copy]. unfold absorb. cbn [foldl].
    destruct (0 <? Z.of_nat (length buf))%Z eqn:Hlen.
    + rewrite Write_contract by done.
      assert ((Z.of_nat (length buf) <? 0)%Z || (Z.of_nat (length buf) <? Z.of_nat (length buf))%Z
              = false) as ->.
      { apply orb_false_intro; apply Z.ltb_ge; lia. }
      rewrite Z.eqb_refl. rewrite IH.
      * f_equal. rewrite <- map_fmap_compose. by apply map_fmap_ext.
      * by intros ?%fmap_empty_inv.
    + rewrite IH by done. done.
Qed.

(** X5: for primitives that keep the promises of [hash.Hash] and a
    hash with at least one of them, the digests of a file that is read to
    its end depend on the bytes of the file only, not on the chunks they
    are read in: each is the digest of its primitive after one write of all
    the bytes. *)
Theorem hashFile_whole_file ro e filename h e1 chunks :
  hash_contract (D:=D) → h ≠ ∅ →
  os_Open e filename = (e1, inl (chunks, None)) →
  hashFile ro e filename h
  = (e1, (Some ((λ d, prim_Sum (absorb d [concat chunks]) []) <$> h), None)).
Proof.
  intros Hc Hne Hopen. unfold hashFile. rewrite Hopen, io_Copy_contract by done.
  rewrite MultiSum_fmap, <- map_fmap_compose. do 3 f_equal.
  apply map_fmap_ext. intros k d _. cbn. f_equal. apply absorb_concat, (contract_stream Hc).
Qed.

End HashMore.

Section SizeFacts.

Context {D : Type} `{HD : hash_Hash D}.
Implicit Types (h : gmap string D) (ro : RangeOrder).

Lemma Zsum_perm l1 l2 : l1 ≡ₚ l2 → Zsum l1 = Zsum l2.
Proof. unfold Zsum. induction 1; cbn; lia. Qed.

Lemma foldl_add_Zsum {A} (f : A → Z) (l : list A) (z : Z) :
  foldl (λ total x, (total + f x)%Z) z l = (z + Zsum (f <$> l))%Z.
Proof.
  unfold Zsum. revert z. induction l as [|x l IH]; intros z; cbn; [lia|]. rewrite IH. lia.
Qed.

Lemma Size_Zsum ro h : Size ro h = Zsum ((λ kd, prim_Size kd.2) <$> map_to_list h).
Proof.
  unfold Size. rewrite (foldl_add_Zsum (λ kd : string * D, prim_Size kd.2)).
  rewrite Z.add_0_l. apply Zsum_perm, fmap_Permutation, range_perm.
Qed.

Lemma foldl_app_length {A} (l : list (A * bytes)) (acc : bytes) :
  Z.of_nat (length (foldl (λ ret kv, ret ++ kv.2) acc l))
  = (Z.of_nat (length acc) + Zsum ((λ kv, Z.of_nat (length kv.2)) <$> l))%Z.
Proof.
  unfold Zsum. revert acc. induction l as [|kv l IH]; intros acc; cbn; [lia|].
  rewrite IH, length_app. lia.
Qed.

(** X6: for primitives whose [Sum] appends [Size] bytes to its
    argument, [Sum(b)] of a [hashImpl] has one copy of [b] and one digest
    per primitive: [len(b)] times the number of primitives, plus [Size()],
    bytes. *)
Theorem Sum_length ro ro' h b :
  hash_contract (D:=D) →
  Z.of_nat (length (Sum ro h b))
  = (Z.of_nat (size h) * Z.of_nat (length b) + Size ro' h)%Z.
Proof.
  intros Hc. unfold Sum. rewrite foldl_app_length. cbn [length].
  rewrite (Zsum_perm _ _ (fmap_Permutation _ _ _ (range_perm ro _ (MultiSum ro h b)))).
  rewrite MultiSum_fmap, map_to_list_fmap.
  rewrite <- list_fmap_compose, Size_Zsum, <- length_map_to_list.
  induction (map_to_list h) as [|[k d] l IH]; [done|].
  cbn [fmap list_fmap Zsum foldr length compose prod_map fst snd] in *.
  rewrite (contract_Sum Hc). fold (Zsum ((λ kd : string * D, prim_Size kd.2) <$> l)).
  unfold Zsum in *. lia.
Qed.

Lemma max_step_facts (l : list (string * D)) (a : Z) :
  (a ≤ foldl max_step a l)%Z
  ∧ (∀ kd, kd ∈ l → (prim_BlockSize kd.2 ≤ foldl max_step a l)%Z)
  ∧ (foldl max_step a l = a ∨ ∃ kd, kd ∈ l ∧ foldl max_step a l = prim_BlockSize kd.2).
Proof.
  revert a. induction l as [|kd l IH]; intros a.
  - cbn. split; [lia|]. split; [|by left]. intros kd Hkd. by apply elem_of_nil in Hkd.
  - cbn [foldl]. destruct (IH (max_step a kd)) as (H1 & H2 & H3).
    assert (Hstep : (a ≤ max_step a kd ∧ prim_BlockSize kd.2 ≤ max_step a kd)%Z
                    ∧ (max_step a kd = a ∨ max_step a kd = prim_BlockSize kd.2)).
    { unfold max_step. destruct (Z.ltb_spec a (prim_BlockSize kd.2)); split; auto; lia. }
    destruct Hstep as [[Ha Hb] Hor]. split; [lia|]. split.
    + intros kd' [->|Hin]%elem_of_cons; [lia|by apply H2].
    + destruct H3 as [H3|(kd' & Hin & H3)].
      * destruct Hor as [Hor|Hor]; [left; congruence|].
        right. exists kd. split; [left|congruence].
      * right. exists kd'. split; [by right|done].
Qed.

(** X7: [Size] and [BlockSize] do not depend on the order in which
    the map of primitives is visited; [BlockSize] is at least the block
    size of every primitive, and it is 0 or the block size of one of
    them. *)
Theorem Size_BlockSize_order ro ro' h :
  Size ro h = Size ro' h
  ∧ BlockSize ro h = BlockSize ro' h
  ∧ (∀ k d, h !! k = Some d → (prim_BlockSize d ≤ BlockSize ro h)%Z)
  ∧ (BlockSize ro h = 0%Z ∨ ∃ k d, h !! k = Some d ∧ BlockSize ro h = prim_BlockSize d).
Proof.
  assert (Hb : ∀ r, BlockSize r h = foldl max_step 0%Z (range r h)) by done.
  assert (Hbound : ∀ r k d, h !! k = Some d → (prim_BlockSize d ≤ BlockSize r h)%Z).
  { intros r k d Hkd. rewrite Hb.
    destruct (max_step_facts (range r h) 0) as (_ & H2 & _).
    apply (H2 (k, d)). by apply elem_of_range. }
  assert (Hattained : ∀ r, BlockSize r h = 0%Z
                           ∨ ∃ k d, h !! k = Some d ∧ BlockSize r h = prim_BlockSize d).
  { intros r. rewrite Hb. destruct (max_step_facts (range r h) 0) as (_ & _ & [H3|H3]).
    - by left.
    - destruct H3 as ([k d] & Hin%elem_of_range & H3). right. eauto. }
  assert (Hpos : ∀ r, (0 ≤ BlockSize r h)%Z).
  { intros r. rewrite Hb. by destruct (max_step_facts (range r h) 0) as (? & _ & _). }
  split; [by rewrite !Size_Zsum|]. split; [|split; [apply Hbound|apply Hattained]].
  apply Z.le_antisymm.
  - destruct (Hattained ro) as [->|(k & d & Hkd & ->)]; [apply Hpos|by eapply Hbound].
  - destruct (Hattained ro') as [->|(k & d & Hkd & ->)]; [apply Hpos|by eapply Hbound].
Qed.

End SizeFacts.

(** [bufhash] keeps the promises of [hash.Hash]. *)
Lemma bufhash_contract : hash_contract (D:=bufhash).
Proof.
  split.
  - done.
  - intros d p q. cbn. by rewrite (assoc_L (++)).
  - intros d b. cbn. rewrite length_app. cbn. lia.
Qed.

(** X2, on "/f", of two bytes. *)
Lemma hashFile_no_primitive_witness :
  hashFile listing_order (one_file 1 ∅ None) "/f" (∅ : gmap string sumhash)
  = ({| w_files := w_files (one_file 1 ∅ None); w_now := 3000000000; w_opened := ["/f"] |},
     (None, Some ErrShortWrite)).
Proof.
  apply (hashFile_no_primitive listing_order (one_file 1 ∅ None) "/f" _
           [[Byte.x61; Byte.x62]] None).
  - reflexivity.
  - by left.
Defined.

(** X3, on the engine [NewServer(nil, "md5")]. *)
Lemma Close_then_use_witness :
  ∃ srv : @serverImpl sumhash world,
    NewServer sumhash_Primitives None ["md5"] = inl srv
    ∧ (Close srv).2 = None
    ∧ NumberOfWorkers 8 (Close srv).1 = Panic "runtime error: integer divide by zero".
Proof.
  eexists. split; [reflexivity|].
  destruct (Close_then_use (E:=world) sumhash_Primitives None ["md5"] _ eq_refl)
    as (Hclose & _ & Hpanic).
  split; [exact Hclose|]. exact (proj1 (Hpanic 8%Z)).
Defined.

(** X5, on "/f", of two bytes, and one primitive. *)
Lemma hashFile_whole_file_witness :
  (hashFile listing_order (one_file 1 ∅ None) "/f" {[ "sum" := {| bh_buf := [] |} ]}).2
  = (Some {[ "sum" := [Byte.xc3] ]}, None).
Proof.
  rewrite (hashFile_whole_file listing_order (one_file 1 ∅ None) "/f"
             {[ "sum" := {| bh_buf := [] |} ]}
             {| w_files := w_files (one_file 1 ∅ None); w_now := 3000000000;
                w_opened := ["/f"] |}
             [[Byte.x61; Byte.x62]]).
  - reflexivity.
  - exact bufhash_contract.
  - apply insert_non_empty.
  - reflexivity.
Defined.

(** X6, on two primitives and a prefix of three bytes. *)
Lemma Sum_length_witness :
  length (Sum listing_order
            ({[ "a" := {| bh_buf := [] |}; "b" := {| bh_buf := [Byte.x01] |} ]}
               : gmap string bufhash)
            [Byte.x00; Byte.x00; Byte.x00]) = 8%nat.
Proof.
  apply Nat2Z.inj.
  rewrite (Sum_length listing_order listing_order _ _ bufhash_contract).
  reflexivity.
Defined.

(** ** [Parallel] on an engine without a cache *)

Section NoCache.

Context {D : Type} `{HD : hash_Hash D}.
Variables (ro : RangeOrder) (srv : @serverImpl D world) (numWorkers : nat) (w0 : world).
Hypothesis no_cache : cache srv = None.

Lemma hashFile_same_files w w' filename (h : gmap string D) :
  w_files w = w_files w' →
  (hashFile ro w filename h).2 = (hashFile ro w' filename h).2.
Proof.
  intros Hf. unfold hashFile. cbn [os_Open world_Env]. unfold world_Open. rewrite Hf.
  destruct (w_files w' !! filename) as [ino|]; [|done].
  destruct (i_open ino); [done|].
  by destruct (io_Copy ro h (i_chunks ino) (i_final ino)) as [h' [err|]].
Qed.

Lemma nocache_step s s' :
  step ro srv numWorkers s s' → nocache_inv ro srv w0 s → nocache_inv ro srv w0 s'.
Proof.
  intros Hstep [Hf Ho Hw Hc Hcalls].
  destruct Hstep as [| | | |e e' f w' todo ch cl ws1 ws2 c calls rc m Hdo
                     |e e' f w' todo ch cl ws1 ws2 c calls rc m Hdo
                     |e e' f sums w' todo ch cl ws1 ws2 c calls rc m Hdo| | | | |];
    unfold hashed_files in *;
    cbn [p_env p_workers p_consumer p_calls consumer_file] in *;
    rewrite ?fmap_app, ?fmap_cons, ?concat_app, ?concat_cons, ?Forall_app, ?Forall_cons in *;
    cbn [worker_hashed worker_sequential] in *.
  all: try (unfold do_Get in Hdo; rewrite no_cache in Hdo; injection Hdo as <- <-).
  all: try (unfold do_Set in Hdo; tauto).
  all: try (unfold do_Hash in Hdo; rewrite no_cache in Hdo;
            pose proof (hashFile_world ro e f (NewHash ro srv)) as Hworld;
            pose proof (hashFile_same_files e w0 f (NewHash ro srv) Hf) as Hsame;
            destruct (hashFile ro e f (NewHash ro srv)) as [e1 [sums err]];
            cbn [fst snd] in *; subst e1;
            assert (w' = WSend (mkresult f sums err)) as -> by (destruct err; congruence);
            assert (e' = {| w_files := w_files e; w_now := w_now e;
                            w_opened := w_opened e ++ [f] |})
              as -> by (destruct err; congruence);
            clear Hdo).
  all: constructor; unfold hashed_files;
    cbn [p_env p_workers p_consumer p_calls consumer_file w_files w_opened];
    rewrite ?fmap_app, ?fmap_cons, ?concat_app, ?concat_cons, ?Forall_app, ?Forall_cons;
    cbn [worker_hashed worker_sequential r_filename mkresult];
    try done; try tauto;
    try (match goal with |- _ ≡ₚ _ => rewrite Ho; clear; cbn [app]; solve_perm end).
Qed.

Lemma nocache_nsteps k s s' :
  nsteps (step ro srv numWorkers) k s s' →
  nocache_inv ro srv w0 s → nocache_inv ro srv w0 s'.
Proof. induction 1; eauto using nocache_step. Qed.

Lemma nocache_start filenames :
  nocache_inv ro srv w0
    (PState w0 filenames [] false (replicate numWorkers WRecv) CRecv [] false MWait).
Proof.
  constructor; cbn [p_env p_workers p_consumer p_calls]; try done.
  - unfold hashed_files. cbn [p_workers p_consumer p_calls consumer_file].
    assert (concat (worker_hashed <$> replicate numWorkers WRecv) = []) as ->.
    { induction numWorkers as [|n IH]; [done|]. by cbn. }
    cbn [app fmap list_fmap]. by rewrite app_nil_r.
  - by apply Forall_replicate.
Qed.

Lemma exited_not_hashed (ws : list wstate) :
  Forall (λ w, is_exit w = true) ws → concat (worker_hashed <$> ws) = [].
Proof.
  induction 1 as [|w ws Hw _ IH]; [done|]. rewrite fmap_cons. cbn [concat].
  rewrite IH. by destruct w.
Qed.

End NoCache.

Section NoCacheClaim.

Context {D : Type} `{HD : hash_Hash D}.

(** X8: on an engine without a cache and with at least one algorithm,
    whatever the interleaving, [Parallel] leaves the files as they are,
    every result it passes to [onResult] is the one [hashFile] gives for
    that file on its own, and when the caller has returned every file of
    the list has been opened once, and no other file. *)
Theorem Parallel_without_cache ro (srv : @serverImpl D world) numCPU w0 filenames :
  cache srv = None →
  algorithms srv ≠ ∅ →
  ∃ n s0,
    NumberOfWorkers numCPU srv = Ret n
    ∧ Parallel_start srv numCPU w0 filenames = Ret s0
    ∧ ∀ k s,
        nsteps (step ro srv (Z.to_nat n)) k s0 s →
        w_files (p_env s) = w_files w0
        ∧ Forall (λ r, (r_sums r, r_err r)
                       = (hashFile ro w0 (r_filename r) (NewHash ro srv)).2) (p_calls s)
        ∧ (p_main s = MReturned → w_opened (p_env s) ≡ₚ w_opened w0 ++ filenames).
Proof.
  intros Hnone Hne. destruct (NumberOfWorkers_returns numCPU srv Hne) as [n Hn].
  exists n. eexists. split; [done|]. unfold Parallel_start. rewrite Hn. split; [done|].
  assert (Hpos : (0 < Z.to_nat n)%nat).
  { apply NumberOfWorkers_values in Hn as [->| ->]; lia. }
  intros k s Hsteps.
  pose proof (nsteps_inv ro srv _ filenames _ _ _ Hsteps (start_inv _ filenames w0)) as Hinv.
  pose proof (nocache_nsteps ro srv _ w0 Hnone _ _ _ Hsteps (nocache_start ro srv _ w0 filenames))
    as [Hf Ho _ _ Hcalls].
  split; [done|]. split; [done|]. intros Hm.
  destruct (returned_state _ filenames s Hpos Hinv Hm) as (_ & _ & _ & Hall & Hcons & _).
  rewrite Ho. unfold hashed_files.
  rewrite (exited_not_hashed _ Hall), Hcons. cbn [consumer_file app].
  by rewrite (returned_calls _ filenames s Hpos Hinv Hm).
Qed.

End NoCacheClaim.

(** X8, on the engine for md5 and sha256 and two files. *)
Lemma Parallel_without_cache_witness :
  ∃ n s0,
    NumberOfWorkers 8 md5_sha256_server = Ret n
    ∧ Parallel_start md5_sha256_server 8 (one_file 1 ∅ None) ["/f"; "/g"] = Ret s0
    ∧ ∀ k s,
        nsteps (step listing_order md5_sha256_server (Z.to_nat n)) k s0 s →
        p_main s = MReturned → w_opened (p_env s) ≡ₚ ["/f"; "/g"].
Proof.
  destruct (Parallel_without_cache listing_order md5_sha256_server 8
              (one_file 1 ∅ None) ["/f"; "/g"])
    as (n & s0 & Hn & Hs0 & Hrun).
  - reflexivity.
  - apply insert_non_empty.
  - exists n, s0. split; [exact Hn|]. split; [exact Hs0|].
    intros k s Hsteps Hm. by destruct (Hrun k s Hsteps) as (_ & _ & Hop); apply Hop.
Defined.

(** ** Go's [strings] *)

Lemma append_cons (c : ascii) (s t : string) : String c s +:+ t = String c (s +:+ t).
Proof. reflexivity. Qed.

Lemma append_assoc (s t u : string) : (s +:+ t) +:+ u = s +:+ t +:+ u.
Proof. induction s as [|c s IH]; [done|]. rewrite !append_cons. by f_equal. Qed.

Lemma append_length (s t : string) :
  String.length (s +:+ t) = (String.length s + String.length t)%nat.
Proof.
  induction s as [|c s IH]; [done|]. rewrite append_cons. cbn [String.length]. by rewrite IH.
Qed.

Lemma append_inj (s t u : string) : s +:+ t = s +:+ u → t = u.
Proof.
  induction s as [|c s IH]; [done|]. rewrite !append_cons. intros [= H]. by apply IH.
Qed.

Lemma HasPrefix_append (p t : string) : HasPrefix (p +:+ t) p = true.
Proof.
  induction p as [|c p IH]; [done|]. rewrite append_cons. cbn [HasPrefix].
  by rewrite Ascii.eqb_refl, IH.
Qed.

Lemma string_drop_append (p t : string) : string_drop (String.length p) (p +:+ t) = t.
Proof. induction p as [|c p IH]; [by destruct t|]. done. Qed.

Lemma HasPrefix_drop (s p : string) :
  HasPrefix s p = true → s = p +:+ string_drop (String.length p) s.
Proof.
  revert s. induction p as [|c p IH]; intros s; [by destruct s|].
  destruct s as [|d s]; [done|]. rewrite append_cons. cbn [HasPrefix String.length string_drop].
  intros [Hc Hp]%andb_prop. apply Ascii.eqb_eq in Hc as ->. f_equal. by apply IH.
Qed.

Lemma HasPrefix_iff (s p : string) : HasPrefix s p = true ↔ ∃ t, s = p +:+ t.
Proof.
  split.
  - intros H. eexists. by apply HasPrefix_drop.
  - intros [t ->]. apply HasPrefix_append.
Qed.

Lemma HasPrefix_nil (s : string) : HasPrefix s "" = true.
Proof. by destruct s. Qed.

Lemma TrimPrefix_append (p t : string) : TrimPrefix (p +:+ t) p = t.
Proof. unfold TrimPrefix. by rewrite HasPrefix_append, string_drop_append. Qed.

Lemma HasPrefix_TrimPrefix (s p : string) :
  HasPrefix s p = true → p +:+ TrimPrefix s p = s.
Proof. intros [t ->]%HasPrefix_iff. by rewrite TrimPrefix_append. Qed.

Lemma HasPrefix_append_both (p s q : string) :
  HasPrefix (p +:+ s) (p +:+ q) = HasPrefix s q.
Proof.
  induction p as [|c p IH]; [done|]. rewrite !append_cons. cbn [HasPrefix].
  by rewrite Ascii.eqb_refl, IH.
Qed.

Lemma append_ne_self (s t : string) : t ≠ "" → s +:+ t ≠ s.
Proof.
  intros Ht Heq. apply (f_equal String.length) in Heq. rewrite append_length in Heq.
  destruct t; [done|]. cbn [String.length] in Heq. lia.
Qed.

(** ** [attrutil] *)

Section AttrFacts.

Variable ro : RangeOrder.
Implicit Types (a : osXattr) (w : world).

Lemma name_prefix a n : n ≠ "" → name a n = ns_prefix a +:+ n.
Proof.
  intros Hn. unfold name, ns_prefix. destruct (String.eqb_spec (ns a) ""); [done|].
  destruct (String.eqb_spec n ""); [done|]. by rewrite append_assoc.
Qed.

Lemma name_nil a : name a "" = ns a.
Proof. unfold name. by destruct (String.eqb_spec (ns a) "") as [->|]. Qed.

(** Two names of one namespace never share a full name. *)
Lemma name_inj a : Inj (=) (=) (name a).
Proof.
  intros n1 n2. unfold name. destruct (String.eqb_spec (ns a) ""); [done|].
  destruct (String.eqb_spec n1 "") as [->|H1], (String.eqb_spec n2 "") as [->|H2]; try done.
  - intros H. symmetry in H. by apply append_ne_self in H.
  - intros H. by apply append_ne_self in H.
  - intros H%append_inj. by injection H.
Qed.

Lemma name_ns_prefix a n : n ≠ "" ∨ ns a = "" → name a n = ns_prefix a +:+ n.
Proof.
  intros [Hn|Hns]; [by apply name_prefix|].
  unfold name, ns_prefix. by rewrite Hns.
Qed.

Lemma List_loop_filter allKeys prefix acc :
  List_loop allKeys prefix acc
  = acc ++ ((λ k, TrimPrefix k prefix) <$> filter (λ k, HasPrefix k prefix = true) allKeys).
Proof.
  revert acc. induction allKeys as [|k ks IH]; intros acc; cbn [List_loop].
  - by rewrite filter_nil, app_nil_r.
  - rewrite filter_cons. destruct (HasPrefix k prefix) eqn:Hk.
    + rewrite decide_True by done. by rewrite IH, fmap_cons, <- app_assoc.
    + rewrite decide_False by done. apply IH.
Qed.

Lemma List_present a w path ino :
  w_files w !! path = Some ino →
  ∃ keys, List ro a w path = inl keys
    ∧ NoDup keys
    ∧ ∀ k, k ∈ keys ↔ is_Some (i_xattr ino !! (ns_prefix a +:+ k)).
Proof.
  intros Hino. unfold List, xattr_List. rewrite Hino. eexists. split; [done|].
  fold (ns_prefix a). rewrite List_loop_filter. cbn [app]. split.
  - apply NoDup_fmap_2_strong.
    + intros k1 k2 [H1 _]%list_elem_of_filter [H2 _]%list_elem_of_filter Heq.
      by rewrite <- (HasPrefix_TrimPrefix _ _ H1), <- (HasPrefix_TrimPrefix _ _ H2), Heq.
    + apply NoDup_filter, range_NoDup.
  - intros k. rewrite list_elem_of_fmap. setoid_rewrite list_elem_of_filter.
    setoid_rewrite range_keys. setoid_rewrite elem_of_dom. split.
    + intros (full & -> & Hp & Hin). by rewrite HasPrefix_TrimPrefix.
    + intros Hin. exists (ns_prefix a +:+ k).
      by rewrite TrimPrefix_append, HasPrefix_append.
Qed.

Lemma List_missing a w path : w_files w !! path = None → List ro a w path = inr ENOENT.
Proof. intros Hino. unfold List, xattr_List. by rewrite Hino. Qed.

(** X9: in one namespace, [Set] then [Get] of a name returns the value
    set, [Get] of every other name and of every other file returns what it
    returned before, and after [Delete] of the name [Get] finds no data
    under it and still finds the others. *)
Theorem Set_Get_Delete a w path n v ino :
  w_files w !! path = Some ino →
  i_xattr_err ino = None →
  ∃ w1 w2,
    Set_ a w path n v = (w1, None)
    ∧ (∀ n', Get a w1 path n' = if decide (n' = n) then inl v else Get a w path n')
    ∧ (∀ path' n', path' ≠ path → Get a w1 path' n' = Get a w path' n')
    ∧ Delete a w1 path n = (w2, None)
    ∧ Get a w2 path n = inr ENODATA
    ∧ ∀ n', n' ≠ n → Get a w2 path n' = Get a w path n'.
Proof.
  intros Hino Herr. unfold Set_, Delete, xattr_Set, xattr_Remove. rewrite Hino, Herr.
  eexists _, _. split; [done|].
  cbn [set_xattr w_files]. rewrite lookup_insert_eq. cbn [i_xattr_err i_xattr].
  rewrite Herr, lookup_insert_eq. unfold Get, xattr_Get. cbn [set_xattr w_files].
  split; [|split; [|split; [done|split]]].
  - intros n'. rewrite lookup_insert_eq, Hino. cbn [i_xattr]. destruct (decide (n' = n)) as [->|Hn].
    + by rewrite lookup_insert_eq.
    + rewrite lookup_insert_ne; [done|]. by intros ?%name_inj.
  - intros path' n' Hp. by rewrite lookup_insert_ne.
  - cbn [set_xattr w_files]. rewrite lookup_insert_eq. cbn [i_xattr].
    by rewrite lookup_delete_eq.
  - intros n' Hn. cbn [set_xattr w_files]. rewrite lookup_insert_eq, Hino. cbn [i_xattr].
    rewrite delete_insert_eq, lookup_delete_ne; [done|]. by intros ?%name_inj.
Qed.


(** The loop of [DeleteNS] where no attribute can be changed, and where
    no name has the prefix. *)
Lemma DeleteNS_loop_readonly a w path prefix keys ino err :
  w_files w !! path = Some ino →
  i_xattr_err ino = Some err →
  (DeleteNS_loop a w path prefix keys).1 = w.
Proof.
  intros Hino Herr. induction keys as [|key keys IH]; [done|].
  cbn [DeleteNS_loop]. destruct (HasPrefix key prefix); [|done].
  unfold xattr_Remove. by rewrite Hino, Herr.
Qed.

Lemma DeleteNS_loop_no_match a w path prefix keys :
  Forall (λ key, HasPrefix key prefix = false) keys →
  DeleteNS_loop a w path prefix keys = (w, None).
Proof.
  induction 1 as [|key keys Hkey _ IH]; [done|]. cbn [DeleteNS_loop]. by rewrite Hkey.
Qed.

Lemma DeleteNS_loop_removes a w path prefix keys ino :
  w_files w !! path = Some ino →
  i_xattr_err ino = None →
  NoDup keys →
  (∀ key, key ∈ keys → HasPrefix key prefix = true → is_Some (i_xattr ino !! name a key)) →
  ∃ w' ino',
    DeleteNS_loop a w path prefix keys = (w', None)
    ∧ (∀ path', path' ≠ path → w_files w' !! path' = w_files w !! path')
    ∧ w_files w' !! path = Some ino'
    ∧ i_xattr_err ino' = None
    ∧ (∀ key, key ∈ keys → HasPrefix key prefix = true → i_xattr ino' !! name a key = None)
    ∧ (∀ f, (∀ key, key ∈ keys → HasPrefix key prefix = true → name a key ≠ f) →
           i_xattr ino' !! f = i_xattr ino !! f).
Proof.
  intros Hino Herr Hnd. revert w ino Hino Herr.
  induction Hnd as [|key keys Hkey Hnd IH]; intros w ino Hino Herr Hin.
  - exists w, ino. split; [done|]. split; [done|]. split; [done|]. split; [done|].
    split; [|done]. by intros key ?%elem_of_nil.
  - cbn [DeleteNS_loop]. destruct (HasPrefix key prefix) eqn:Hp.
    + destruct (Hin key) as [v Hv]; [by left|done|].
      unfold xattr_Remove. rewrite Hino, Herr, Hv.
      destruct (IH (set_xattr w path ino (delete (name a key) (i_xattr ino)))
                  {| i_modtime := i_modtime ino; i_open := i_open ino;
                     i_chunks := i_chunks ino; i_final := i_final ino;
                     i_xattr := delete (name a key) (i_xattr ino);
                     i_xattr_err := i_xattr_err ino |})
        as (w' & ino' & -> & Hother & Hino' & Herr' & Hgone & Hkept).
      * cbn [set_xattr w_files]. by rewrite lookup_insert_eq.
      * done.
      * intros key' Hkey' Hp'. cbn [i_xattr]. rewrite lookup_delete_ne.
        -- apply Hin; [by right|done].
        -- intros Heq%name_inj. by subst.
      * exists w', ino'. split; [done|]. split; [|split; [done|split; [done|split]]].
        -- intros path' Hne. rewrite Hother by done. cbn [set_xattr w_files].
           by rewrite lookup_insert_ne.
        -- intros key' [->|Hkey']%elem_of_cons Hp'; [|by apply Hgone].
           rewrite Hkept; [cbn [i_xattr]; by rewrite lookup_delete_eq|].
           intros key'' Hkey'' _ Heq%name_inj. by subst.
        -- intros f Hf. rewrite Hkept.
           ++ cbn [i_xattr]. rewrite lookup_delete_ne; [done|]. apply Hf; [by left|done].
           ++ intros key' Hkey' Hp'. apply Hf; [by right|done].
    + destruct (IH w ino Hino Herr) as (w' & ino' & -> & Hother & Hino' & Herr' & Hgone & Hkept).
      * intros key' Hkey' Hp'. apply Hin; [by right|done].
      * exists w', ino'. split; [done|]. split; [done|]. split; [done|]. split; [done|]. split.
        -- intros key' [->|Hkey']%elem_of_cons Hp'; [congruence|by apply Hgone].
        -- intros f Hf. apply Hkept. intros key' Hkey' Hp'. apply Hf; [by right|done].
Qed.

Lemma name_nonempty_prefix a ns' : name a ns' +:+ "." ≠ "".
Proof. intros H. apply (f_equal String.length) in H. rewrite append_length in H. cbn in H. lia. Qed.

(** What [DeleteNS] removes where the attributes can be changed. *)
Lemma DeleteNS_spec a w path ns' ino :
  w_files w !! path = Some ino →
  i_xattr_err ino = None →
  ∃ w' ino',
    DeleteNS ro a w path ns' = (w', None)
    ∧ (∀ path', path' ≠ path → w_files w' !! path' = w_files w !! path')
    ∧ w_files w' !! path = Some ino'
    ∧ i_xattr_err ino' = None
    ∧ ∀ f, i_xattr ino' !! f
           = if HasPrefix f (ns_prefix a +:+ name a ns' +:+ ".") then None
             else i_xattr ino !! f.
Proof.
  intros Hino Herr. unfold DeleteNS.
  destruct (List_present a w path ino Hino) as (keys & -> & Hnd & Hkeys).
  assert (Hname : ∀ key, HasPrefix key (name a ns' +:+ ".") = true →
                         name a key = ns_prefix a +:+ key).
  { intros key Hp. apply name_prefix. intros ->.
    destruct (name a ns' +:+ ".") eqn:Hq; [by apply name_nonempty_prefix in Hq|done]. }
  destruct (DeleteNS_loop_removes a w path (name a ns' +:+ ".") keys ino Hino Herr Hnd)
    as (w' & ino' & Hloop & Hother & Hino' & Herr' & Hgone & Hkept).
  { intros key Hkey Hp. rewrite (Hname key Hp). by apply Hkeys. }
  exists w', ino'. split; [done|]. split; [done|]. split; [done|]. split; [done|].
  intros f. destruct (HasPrefix f (ns_prefix a +:+ name a ns' +:+ ".")) eqn:Hf.
  - apply HasPrefix_iff in Hf as [t ->].
    assert (Hp : HasPrefix (name a ns' +:+ "." +:+ t) (name a ns' +:+ ".") = true).
    { rewrite <- append_assoc. apply HasPrefix_append. }
    destruct (i_xattr ino !! ((ns_prefix a +:+ name a ns' +:+ ".") +:+ t)) as [v|] eqn:Hv.
    + rewrite !append_assoc in *. rewrite <- (Hname _ Hp). apply Hgone; [|done].
      apply Hkeys. by rewrite Hv.
    + rewrite Hkept; [done|]. intros key Hkey Hp' Heq.
      apply Hkeys in Hkey as [v' Hv']. rewrite <- (Hname key Hp'), Heq in Hv'. congruence.
  - apply Hkept. intros key Hkey Hp Heq. rewrite (Hname key Hp) in Heq. subst f.
    apply HasPrefix_iff in Hp as [t ->].
    rewrite <- !append_assoc, HasPrefix_append in Hf. done.
Qed.

(** X11: [DeleteNS(path, ns)], where the attributes of the file can be
    changed, removes the attributes whose full name starts with the prefix
    of the namespace of [a], followed by [a.name(ns)] and a dot, and no
    other; it touches no other file.  Without a namespace of [a] these are
    the attributes of [ns]; with one, the namespace of [a] is in the prefix
    twice. *)
Theorem DeleteNS_removes a w path ns' ino :
  w_files w !! path = Some ino →
  i_xattr_err ino = None →
  ∃ w' ino',
    DeleteNS ro a w path ns' = (w', None)
    ∧ (∀ path', path' ≠ path → w_files w' !! path' = w_files w !! path')
    ∧ w_files w' !! path = Some ino'
    ∧ (∀ f, i_xattr ino' !! f
            = if HasPrefix f (ns_prefix a +:+ name a ns' +:+ ".") then None
              else i_xattr ino !! f)
    ∧ (ns a = "" → ns_prefix a +:+ name a ns' +:+ "." = ns' +:+ ".")
    ∧ (ns a ≠ "" → ns' ≠ "" →
       ns_prefix a +:+ name a ns' +:+ "." = ns a +:+ "." +:+ ns a +:+ "." +:+ ns' +:+ ".").
Proof.
  intros Hino Herr.
  destruct (DeleteNS_spec a w path ns' ino Hino Herr)
    as (w' & ino' & Hdel & Hother & Hino' & _ & Hx).
  exists w', ino'. split; [done|]. split; [done|]. split; [done|]. split; [done|].
  unfold ns_prefix, name. split.
  - by intros ->.
  - intros Hns Hns'. destruct (String.eqb_spec (ns a) ""); [done|].
    destruct (String.eqb_spec ns' ""); [done|]. by rewrite !append_assoc.
Qed.

End AttrFacts.

(** X9, on the attribute "md5" of "/f" in the namespace of the cache. *)
Lemma Set_Get_Delete_witness :
  ∃ w1 w2,
    Set_ (NS Xattr "user.xsum") (one_file 1 ∅ None) "/f" "md5" [Byte.x01] = (w1, None)
    ∧ Get (NS Xattr "user.xsum") w1 "/f" "md5" = inl [Byte.x01]
    ∧ Delete (NS Xattr "user.xsum") w1 "/f" "md5" = (w2, None)
    ∧ Get (NS Xattr "user.xsum") w2 "/f" "md5" = inr ENODATA.
Proof.
  destruct (Set_Get_Delete (NS Xattr "user.xsum") (one_file 1 ∅ None) "/f" "md5" [Byte.x01]
              {| i_modtime := 1000000000; i_open := None;
                 i_chunks := [[Byte.x61; Byte.x62]]; i_final := None;
                 i_xattr := ∅; i_xattr_err := None |})
    as (w1 & w2 & Hset & Hget & _ & Hdel & Hgone & _).
  - reflexivity.
  - reflexivity.
  - exists w1, w2. split; [exact Hset|]. split; [|by split].
    rewrite Hget. by rewrite decide_True.
Defined.

(** X11, on the entry of "/f" and the call [DeleteNS("/f", "")] of the
    cache: the digest stays. *)
Lemma DeleteNS_removes_witness :
  ∃ w' ino',
    DeleteNS listing_order (NS Xattr "user.xsum") stale_world "/f" "" = (w', None)
    ∧ w_files w' !! "/f" = Some ino'
    ∧ i_xattr ino' !! "user.xsum.md5" = Some [Byte.x01; Byte.x00].
Proof.
  destruct (DeleteNS_removes listing_order (NS Xattr "user.xsum") stale_world "/f" ""
              {| i_modtime := 2000000000; i_open := None;
                 i_chunks := [[Byte.x61; Byte.x62]]; i_final := None;
                 i_xattr := <["user.xsum.time" := timeToBytes 1000000000]>
                              (<["user.xsum.md5" := [Byte.x01; Byte.x00]]> ∅);
                 i_xattr_err := None |})
    as (w' & ino' & Hdel & _ & Hino' & Hx & _).
  - reflexivity.
  - reflexivity.
  - exists w', ino'. split; [exact Hdel|]. split; [exact Hino'|].
    rewrite Hx. reflexivity.
Defined.

(** ** The cache in extended attributes, further *)

Section CacheFacts.

Variable ro : RangeOrder.
Implicit Types (w : world) (c : xattrCache).

Lemma Get_loop_spec c w filename keys (sums0 : gmap string bytes) k :
  Get_loop c w filename keys sums0 !! k
  = if decide (k ∈ keys ∧ k ≠ "time") then
      match Get (attrs c) w filename k with
      | inl v => Some v
      | inr _ => sums0 !! k
      end
    else sums0 !! k.
Proof.
  revert sums0. induction keys as [|key keys IH]; intros sums0.
  - cbn [Get_loop]. rewrite decide_False; [done|]. by intros [?%elem_of_nil _].
  - cbn [Get_loop]. destruct (String.eqb_spec key "time") as [->|Hkey].
    + rewrite IH. apply decide_ext. rewrite elem_of_cons. intuition congruence.
    + destruct (Get (attrs c) w filename key) as [b|err] eqn:Hget; rewrite IH.
      * destruct (decide (k = key)) as [->|Hne].
        -- rewrite Hget, lookup_insert_eq.
           rewrite (decide_True (P:=key ∈ key :: keys ∧ key ≠ "time")) by (by split; [left|]).
           by destruct (decide _).
        -- rewrite lookup_insert_ne by done. apply decide_ext. rewrite elem_of_cons.
           intuition congruence.
      * destruct (decide (k = key)) as [->|Hne].
        -- rewrite Hget.
           rewrite (decide_True (P:=key ∈ key :: keys ∧ key ≠ "time")) by (by split; [left|]).
           by destruct (decide _).
        -- apply decide_ext. rewrite elem_of_cons. intuition congruence.
Qed.

Lemma ns_prefix_newXattrCache : ns_prefix (attrs newXattrCache) = "user.xsum.".
Proof. reflexivity. Qed.

(** What [Get] returns for an entry that is not stale. *)
Lemma xattrCache_Get_sums w filename ino b timestamp :
  w_files w !! filename = Some ino →
  i_xattr ino !! "user.xsum.time" = Some b →
  timeFromBytes b = Ret timestamp →
  (i_modtime ino ≤ timestamp)%Z →
  ∃ m', xattrCache_Get ro newXattrCache w filename = Ret (w, (Some m', None))
        ∧ ∀ k, m' !! k
               = if decide (k = "time") then None
                 else if decide (k = "") then
                   i_xattr ino !! "user.xsum." ≫= λ _, i_xattr ino !! "user.xsum"
                 else i_xattr ino !! ("user.xsum." +:+ k).
Proof.
  intros Hino Htime Hdec Hle. unfold xattrCache_Get, os_Stat. rewrite Hino.
  assert (Get (attrs newXattrCache) w filename "time" = inl b) as ->.
  { unfold Get, xattr_Get. rewrite Hino. change (name _ "time") with "user.xsum.time".
    by rewrite Htime. }
  rewrite Hdec. unfold After.
  assert ((timestamp <? i_modtime ino)%Z = false) as -> by (apply Z.ltb_ge; lia).
  destruct (List_present ro (attrs newXattrCache) w filename ino Hino)
    as (keys & -> & _ & Hkeys).
  eexists. split; [done|]. intros k. rewrite Get_loop_spec, lookup_empty.
  rewrite ns_prefix_newXattrCache in Hkeys.
  destruct (decide (k = "time")) as [->|Htm].
  { rewrite decide_False; [done|]. by intros [_ ?]. }
  unfold Get, xattr_Get. rewrite Hino.
  destruct (decide (k = "")) as [->|Hk].
  - change (name _ "") with "user.xsum".
    destruct (decide _) as [[Hin _]|Hno].
    + apply Hkeys in Hin as [v Hv]. change ("user.xsum." +:+ "") with "user.xsum." in Hv.
      rewrite Hv. cbn. by destruct (i_xattr ino !! "user.xsum").
    + destruct (i_xattr ino !! "user.xsum.") as [v|] eqn:Hv; [|done].
      destruct Hno. split; [|done]. apply Hkeys. change ("user.xsum." +:+ "") with "user.xsum.".
      by rewrite Hv.
  - rewrite (name_newXattrCache k Hk).
    destruct (decide _) as [[Hin _]|Hno].
    + by destruct (i_xattr ino !! ("user.xsum." +:+ k)).
    + destruct (i_xattr ino !! ("user.xsum." +:+ k)) as [v|] eqn:Hv; [|done].
      destruct Hno. split; [|done]. apply Hkeys. by rewrite Hv.
Qed.

Lemma foldl_insert_named_lookup (g : string → string)
    (kvs : list (string * bytes)) (x0 : gmap string bytes) :
  Inj (=) (=) g → NoDup kvs.*1 →
  (∀ k, foldl (λ x kv, <[g kv.1 := kv.2]> x) x0 kvs !! g k
        = match (list_to_map kvs : gmap string bytes) !! k with
          | Some v => Some v
          | None => x0 !! g k
          end)
  ∧ (∀ f, (∀ k, g k ≠ f) → foldl (λ x kv, <[g kv.1 := kv.2]> x) x0 kvs !! f = x0 !! f).
Proof.
  intros Hg. revert x0. induction kvs as [|[k0 v0] kvs IH]; intros x0 Hnd; [done|].
  rewrite fmap_cons in Hnd. apply NoDup_cons in Hnd as [Hk0 Hnd].
  cbn [foldl fst snd]. destruct (IH (<[g k0 := v0]> x0) Hnd) as [IH1 IH2]. split.
  - intros k. rewrite IH1, list_to_map_cons. destruct (decide (k = k0)) as [->|Hne].
    + rewrite !lookup_insert_eq. by rewrite (not_elem_of_list_to_map_1 _ _ Hk0).
    + rewrite !lookup_insert_ne; [done|congruence|]. by intros ?%Hg.
  - intros f Hf. rewrite IH2 by done. rewrite lookup_insert_ne; [done|apply Hf].
Qed.

(** What [Set] stores where the attributes can be changed. *)
Lemma xattrCache_Set_spec c w filename (sums : gomap) ino :
  w_files w !! filename = Some ino →
  i_xattr_err ino = None →
  ∃ w' ino',
    xattrCache_Set ro c w filename sums = (w', None)
    ∧ fixed_part w' filename = fixed_part w filename
    ∧ w_files w' !! filename = Some ino'
    ∧ i_xattr ino' !! name (attrs c) "time" = Some (timeToBytes (w_now w))
    ∧ (∀ k, k ≠ "time" →
         i_xattr ino' !! name (attrs c) k
         = match default ∅ sums !! k with
           | Some v => Some v
           | None => i_xattr ino !! name (attrs c) k
           end)
    ∧ (∀ f, (∀ k, name (attrs c) k ≠ f) → i_xattr ino' !! f = i_xattr ino !! f).
Proof.
  intros Hino Herr. unfold xattrCache_Set.
  destruct (Set_loop_stored c w filename (range ro (default ∅ sums)) ino Hino Herr)
    as (w1 & ino1 & -> & Hfixed & Hino1 & Herr1 & Hx1).
  destruct (foldl_insert_named_lookup (name (attrs c)) (range ro (default ∅ sums))
              (i_xattr ino) (name_inj (attrs c)) (range_NoDup ro _)) as [Hin Hout].
  rewrite <- Hx1, range_list_to_map in Hin. rewrite <- Hx1 in Hout.
  unfold Set_, xattr_Set. rewrite Hino1, Herr1. eexists _, _. split; [done|].
  assert (Hnow : w_now w1 = w_now w).
  { unfold fixed_part in Hfixed. by injection Hfixed. }
  split; [|split; [|split; [|split]]].
  - rewrite <- Hfixed. unfold fixed_part. cbn [set_xattr w_now w_opened w_files].
    rewrite lookup_insert_eq, Hino1. cbn. by rewrite Herr1.
  - cbn [set_xattr w_files]. by rewrite lookup_insert_eq.
  - cbn [i_xattr]. by rewrite lookup_insert_eq, Hnow.
  - intros k Hk. cbn [i_xattr]. rewrite lookup_insert_ne; [apply Hin|].
    by intros ?%name_inj.
  - intros f Hf. cbn [i_xattr]. rewrite lookup_insert_ne; [by apply Hout|apply Hf].
Qed.

(** What a [Get] that finds the entry stale leaves of the attributes. *)
Lemma xattrCache_Get_stale_kept w filename ino b timestamp :
  w_files w !! filename = Some ino →
  i_xattr ino !! "user.xsum.time" = Some b →
  timeFromBytes b = Ret timestamp →
  (timestamp < i_modtime ino)%Z →
  ∃ w1 ino1,
    xattrCache_Get ro newXattrCache w filename = Ret (w1, (None, None))
    ∧ fixed_part w1 filename = fixed_part w filename
    ∧ w_files w1 !! filename = Some ino1
    ∧ (∀ f, HasPrefix f "user.xsum.user.xsum." = false →
            i_xattr ino1 !! f = i_xattr ino !! f)
    ∧ ((∀ f, is_Some (i_xattr ino !! f) → HasPrefix f "user.xsum.user.xsum." = false) →
       w1 = w).
Proof.
  intros Hino Hb Hts Hlt. unfold xattrCache_Get, os_Stat, Get, xattr_Get.
  rewrite Hino. change (name _ "time") with "user.xsum.time". rewrite Hb, Hts. unfold After.
  rewrite (proj2 (Z.ltb_lt _ _) Hlt).
  pose proof (DeleteNS_fixed ro (attrs newXattrCache) w filename "") as Hfix.
  assert (Hsame : (∀ f, is_Some (i_xattr ino !! f) → HasPrefix f "user.xsum.user.xsum." = false) →
                  DeleteNS ro (attrs newXattrCache) w filename "" = (w, None)).
  { intros Hno. unfold DeleteNS.
    destruct (List_present ro (attrs newXattrCache) w filename ino Hino)
      as (keys & -> & _ & Hkeys).
    apply DeleteNS_loop_no_match, Forall_forall. intros key Hkey%Hkeys.
    apply Hno in Hkey. rewrite ns_prefix_newXattrCache in Hkey.
    change "user.xsum.user.xsum." with ("user.xsum." +:+ "user.xsum.") in Hkey.
    by rewrite HasPrefix_append_both in Hkey. }
  destruct (i_xattr_err ino) as [err|] eqn:Herr.
  - pose proof (DeleteNS_loop_readonly (attrs newXattrCache) w filename) as Hro.
    unfold DeleteNS in *.
    destruct (List_present ro (attrs newXattrCache) w filename ino Hino)
      as (keys & HList & _ & _).
    rewrite HList in *. specialize (Hro (name (attrs newXattrCache) "" +:+ ".") keys ino err Hino Herr).
    destruct (DeleteNS_loop _ _ _ _ _) as [w1 e1]. cbn [fst] in *. subst w1.
    exists w, ino. by repeat split.
  - destruct (DeleteNS_spec ro (attrs newXattrCache) w filename "" ino Hino Herr)
      as (w1 & ino1 & Hdel & _ & Hino1 & _ & Hx).
    rewrite Hdel in *. exists w1, ino1. split; [done|]. split; [done|]. split; [done|]. split.
    + intros f Hf. rewrite Hx. change (ns_prefix _ +:+ _) with "user.xsum.user.xsum.".
      by rewrite Hf.
    + intros Hno. specialize (Hsame Hno). congruence.
Qed.


(** X13: [Set], where the attributes of the file can be changed, returns no
    error, and the [Get] that follows depends on the clock: if the file
    was not modified after the start of the second in which [Set] ran,
    it returns the map that was set, without its entries for "time" and
    the empty name, together with the digests that the file had before
    under other names; if it was, [Get] returns neither a map nor an
    error, though the entry has just been written. *)
Theorem Set_then_Get w filename (sums : gomap) ino :
  w_files w !! filename = Some ino →
  i_xattr_err ino = None →
  ∃ w',
    xattrCache_Set ro newXattrCache w filename sums = (w', None)
    ∧ ((i_modtime ino ≤ time_Unix (Unix (w_now w)))%Z →
       ∃ m', xattrCache_Get ro newXattrCache w' filename = Ret (w', (Some m', None))
             ∧ ∀ k, k ≠ "" → k ≠ "time" →
                 m' !! k = match default ∅ sums !! k with
                           | Some v => Some v
                           | None => i_xattr ino !! ("user.xsum." +:+ k)
                           end)
    ∧ ((time_Unix (Unix (w_now w)) < i_modtime ino)%Z →
       ∃ w'', xattrCache_Get ro newXattrCache w' filename = Ret (w'', (None, None))).
Proof.
  intros Hino Herr.
  destruct (xattrCache_Set_spec newXattrCache w filename sums ino Hino Herr)
    as (w' & ino' & Hset & Hfixed & Hino' & Htime & Hin & _).
  destruct (fixed_part_file w w' filename ino Hfixed Hino)
    as (_ & _ & ino'' & Hino'' & Hmod & _).
  rewrite Hino' in Hino''. injection Hino'' as <-.
  exists w'. split; [done|]. split.
  - intros Hle.
    destruct (xattrCache_Get_sums w' filename ino' _ _ Hino' Htime
                (timeFromBytes_timeToBytes _)) as (m' & Hget & Hm'); [lia|].
    exists m'. split; [done|]. intros k Hk Htm. rewrite Hm', !decide_False by done.
    by rewrite <- (name_newXattrCache k Hk), Hin.
  - intros Hlt.
    destruct (xattrCache_Get_stale ro newXattrCache w' filename ino' _ _ Hino' Htime
                (timeFromBytes_timeToBytes _)) as (w'' & Hget & _); [lia|].
    by exists w''.
Qed.

(** X14: a [Get] that finds the entry of a file stale purges nothing of
    it: it returns neither a map nor an error, and it leaves in place
    every attribute whose name does not start with "user.xsum.user.xsum.",
    so the time stamp and the digests of the entry; a file without
    attributes of such a name is left as it is, and the next [Get] finds
    the same stale entry. *)
Theorem stale_Get_purges_nothing w filename ino b timestamp :
  w_files w !! filename = Some ino →
  i_xattr ino !! "user.xsum.time" = Some b →
  timeFromBytes b = Ret timestamp →
  (timestamp < i_modtime ino)%Z →
  ∃ w1 ino1,
    xattrCache_Get ro newXattrCache w filename = Ret (w1, (None, None))
    ∧ w_files w1 !! filename = Some ino1
    ∧ i_modtime ino1 = i_modtime ino
    ∧ (∀ f, HasPrefix f "user.xsum.user.xsum." = false →
            i_xattr ino1 !! f = i_xattr ino !! f)
    ∧ ((∀ f, is_Some (i_xattr ino !! f) → HasPrefix f "user.xsum.user.xsum." = false) →
       w1 = w)
    ∧ ∃ w2, xattrCache_Get ro newXattrCache w1 filename = Ret (w2, (None, None)).
Proof.
  intros Hino Hb Hts Hlt.
  destruct (xattrCache_Get_stale_kept w filename ino b timestamp Hino Hb Hts Hlt)
    as (w1 & ino1 & Hget & Hfixed & Hino1 & Hkept & Hsame).
  destruct (fixed_part_file w w1 filename ino Hfixed Hino)
    as (_ & _ & ino' & Hino' & Hmod & _).
  rewrite Hino1 in Hino'. injection Hino' as <-.
  exists w1, ino1. split; [done|]. split; [done|]. split; [done|]. split; [done|].
  split; [done|].
  destruct (xattrCache_Get_stale ro newXattrCache w1 filename ino1 b timestamp)
    as (w2 & Hget2 & _); [done| |done|lia|by exists w2].
  change (name _ "time") with "user.xsum.time". by rewrite Hkept.
Qed.

(** X15: a stale digest comes back as a current one.  When [Get] finds the
    entry of a file stale, and [Set] then stores a map without the name
    [k] (the digests of an engine that does not compute [k]), the [Get]
    after that returns, under [k], the digest that the stale entry had:
    a digest of bytes that the file no longer has. *)
Theorem stale_digest_survives w filename ino b timestamp k v (sums : gomap) :
  w_files w !! filename = Some ino →
  i_xattr_err ino = None →
  i_xattr ino !! "user.xsum.time" = Some b →
  timeFromBytes b = Ret timestamp →
  (timestamp < i_modtime ino)%Z →
  (i_modtime ino ≤ time_Unix (Unix (w_now w)))%Z →
  k ≠ "" → k ≠ "time" → HasPrefix k "user.xsum." = false →
  i_xattr ino !! ("user.xsum." +:+ k) = Some v →
  default ∅ sums !! k = None →
  ∃ w1 w2 m',
    xattrCache_Get ro newXattrCache w filename = Ret (w1, (None, None))
    ∧ xattrCache_Set ro newXattrCache w1 filename sums = (w2, None)
    ∧ xattrCache_Get ro newXattrCache w2 filename = Ret (w2, (Some m', None))
    ∧ m' !! k = Some v.
Proof.
  intros Hino Herr Hb Hts Hlt Hle Hk Htm Hpre Hv Hsums.
  destruct (xattrCache_Get_stale_kept w filename ino b timestamp Hino Hb Hts Hlt)
    as (w1 & ino1 & Hget & Hfixed & Hino1 & Hkept & _).
  destruct (fixed_part_file w w1 filename ino Hfixed Hino)
    as (Hnow & _ & ino' & Hino' & Hmod & _ & _ & _ & Herr').
  rewrite Hino1 in Hino'. injection Hino' as <-. rewrite Herr in Herr'.
  destruct (xattrCache_Set_spec newXattrCache w1 filename sums ino1 Hino1 Herr')
    as (w2 & ino2 & Hset & Hfixed2 & Hino2 & Htime & Hin & _).
  destruct (fixed_part_file w1 w2 filename ino1 Hfixed2 Hino1)
    as (_ & _ & ino'' & Hino'' & Hmod2 & _).
  rewrite Hino2 in Hino''. injection Hino'' as <-.
  destruct (xattrCache_Get_sums w2 filename ino2 _ _ Hino2 Htime
              (timeFromBytes_timeToBytes _)) as (m' & Hget2 & Hm'); [rewrite Hnow; lia|].
  exists w1, w2, m'. split; [done|]. split; [done|]. split; [done|].
  rewrite Hm', !decide_False by done.
  rewrite <- (name_newXattrCache k Hk), Hin, Hsums by done.
  rewrite (name_newXattrCache k Hk), Hkept; [done|].
  change "user.xsum.user.xsum." with ("user.xsum." +:+ "user.xsum.").
  by rewrite HasPrefix_append_both.
Qed.

Lemma Uint64_panics_iff (b : bytes) :
  (∃ msg, Uint64 b = Panic msg) ↔ (length b < 8)%nat.
Proof.
  do 8 (destruct b as [|? b]; [cbn; split; [lia|by eauto]|]).
  cbn. split; [by intros [? ?]|lia].
Qed.

Lemma timeFromBytes_panics_iff (b : bytes) :
  (∃ msg, timeFromBytes b = Panic msg) ↔ (length b < 8)%nat.
Proof.
  rewrite <- Uint64_panics_iff. unfold timeFromBytes.
  destruct (Uint64 b) as [v|msg]; [|by split; eauto].
  split; by intros [? ?].
Qed.

(** X16: [Get] panics exactly on a file whose attribute "user.xsum.time"
    has fewer than eight bytes, and then the worker of an engine with this
    cache panics on the file. *)
Theorem Get_panics_on_short_time w filename :
  ((∃ msg, xattrCache_Get ro newXattrCache w filename = Panic msg)
   ↔ ∃ ino b, w_files w !! filename = Some ino
              ∧ i_xattr ino !! "user.xsum.time" = Some b
              ∧ (length b < 8)%nat)
  ∧ ∀ D (HD : hash_Hash D) (srv : @serverImpl D world) msg,
      cache srv = Some (xattr_Cache ro newXattrCache) →
      xattrCache_Get ro newXattrCache w filename = Panic msg →
      worker_body ro srv w filename = Panic msg.
Proof.
  split.
  - unfold xattrCache_Get, os_Stat, Get, xattr_Get.
    change (name _ "time") with "user.xsum.time".
    destruct (w_files w !! filename) as [ino|] eqn:Hino.
    + destruct (i_xattr ino !! "user.xsum.time") as [b|] eqn:Hb.
      * destruct (timeFromBytes b) as [ts|msg] eqn:Hts.
        -- assert (Hlen : ¬ (length b < 8)%nat).
           { rewrite <- timeFromBytes_panics_iff, Hts. by intros [? ?]. }
           split.
           ++ intros [msg Hp]. destruct (After _ _); [|by destruct (List _ _ _ _)].
              by destruct (DeleteNS _ _ _ _ _).
           ++ intros (ino' & b' & [= <-] & Hb' & Hlen'). congruence.
        -- split; [|by eauto]. intros _. exists ino, b. split; [done|]. split; [done|].
           apply timeFromBytes_panics_iff. by eauto.
      * split; [by intros [? ?]|]. intros (ino' & b' & [= <-] & Hb' & _). congruence.
    + split; [by intros [? ?]|]. by intros (? & ? & ? & _).
  - intros D HD srv msg Hcache Hget. unfold worker_body. rewrite Hcache.
    cbn [Cache_Get xattr_Cache]. by rewrite Hget.
Qed.

End CacheFacts.

(** X17: the time stamps of the cache are whole seconds: eight bytes,
    which decode to the time encoded less its part of a second (for times
    whose seconds fit 64 bits), whatever follows the eight bytes. *)
Theorem time_round_trip (t : Z) :
  (- 2 ^ 63 * 1000000000 ≤ t < 2 ^ 63 * 1000000000)%Z →
  length (timeToBytes t) = 8%nat
  ∧ timeFromBytes (timeToBytes t) = Ret (t - t mod 1000000000)%Z
  ∧ ∀ rest, timeFromBytes (timeToBytes t ++ rest) = timeFromBytes (timeToBytes t).
Proof.
  intros Ht. split; [done|]. split; [|done].
  rewrite timeFromBytes_timeToBytes. f_equal. unfold time_Unix, Unix, int64.
  pose proof (Z.div_mod t 1000000000).
  assert (- 2 ^ 63 ≤ t / 1000000000 < 2 ^ 63)%Z.
  { split; [apply Z.div_le_lower_bound; lia|apply Z.div_lt_upper_bound; lia]. }
  rewrite Z.mod_small by lia. lia.
Qed.


(** X13, on "/f" without an entry, modified at 1 s, at 3 s. *)
Lemma Set_then_Get_witness :
  ∃ w' m',
    xattrCache_Set listing_order newXattrCache (one_file 1 ∅ None) "/f"
      (Some {[ "md5" := [Byte.x01; Byte.xc3] ]}) = (w', None)
    ∧ xattrCache_Get listing_order newXattrCache w' "/f" = Ret (w', (Some m', None))
    ∧ m' !! "md5" = Some [Byte.x01; Byte.xc3].
Proof.
  destruct (Set_then_Get listing_order (one_file 1 ∅ None) "/f"
              (Some {[ "md5" := [Byte.x01; Byte.xc3] ]})
              {| i_modtime := 1000000000; i_open := None;
                 i_chunks := [[Byte.x61; Byte.x62]]; i_final := None;
                 i_xattr := ∅; i_xattr_err := None |})
    as (w' & Hset & Hcur & _).
  - reflexivity.
  - reflexivity.
  - destruct Hcur as (m' & Hget & Hm'); [vm_compute; discriminate|].
    exists w', m'. split; [exact Hset|]. split; [exact Hget|].
    rewrite Hm' by discriminate. reflexivity.
Defined.

(** X14, on "/f" with an entry stored at 1 s and modified at 2 s. *)
Lemma stale_Get_purges_nothing_witness :
  xattrCache_Get listing_order newXattrCache stale_world "/f"
  = Ret (stale_world, (None, None)).
Proof.
  destruct (stale_Get_purges_nothing listing_order stale_world "/f"
              {| i_modtime := 2000000000; i_open := None;
                 i_chunks := [[Byte.x61; Byte.x62]]; i_final := None;
                 i_xattr := <["user.xsum.time" := timeToBytes 1000000000]>
                              (<["user.xsum.md5" := [Byte.x01; Byte.x00]]> ∅);
                 i_xattr_err := None |}
              (timeToBytes 1000000000) 1000000000%Z)
    as (w1 & ino1 & Hget & _ & _ & _ & Hsame & _).
  - reflexivity.
  - reflexivity.
  - reflexivity.
  - cbn [i_modtime]. lia.
  - rewrite Hget, Hsame; [reflexivity|].
    intros f [v Hv]. cbn [i_xattr] in Hv.
    apply lookup_insert_Some in Hv as [[<- _]|[_ Hv]]; [reflexivity|].
    apply lookup_insert_Some in Hv as [[<- _]|[_ Hv]]; [reflexivity|].
    by rewrite lookup_empty in Hv.
Defined.

(** X15, on "/f" with the digest of md5 stored at 1 s, modified at 2 s,
    and the digest of sha256 stored at 3 s. *)
Lemma stale_digest_survives_witness :
  ∃ w1 w2 m',
    xattrCache_Get listing_order newXattrCache stale_world "/f" = Ret (w1, (None, None))
    ∧ xattrCache_Set listing_order newXattrCache w1 "/f"
        (Some {[ "sha256" := [Byte.x03; Byte.xc3] ]}) = (w2, None)
    ∧ xattrCache_Get listing_order newXattrCache w2 "/f" = Ret (w2, (Some m', None))
    ∧ m' !! "md5" = Some [Byte.x01; Byte.x00].
Proof.
  apply (stale_digest_survives listing_order stale_world "/f"
           {| i_modtime := 2000000000; i_open := None;
              i_chunks := [[Byte.x61; Byte.x62]]; i_final := None;
              i_xattr := <["user.xsum.time" := timeToBytes 1000000000]>
                           (<["user.xsum.md5" := [Byte.x01; Byte.x00]]> ∅);
              i_xattr_err := None |}
           (timeToBytes 1000000000) 1000000000%Z "md5" [Byte.x01; Byte.x00]
           (Some {[ "sha256" := [Byte.x03; Byte.xc3] ]})).
  - reflexivity.
  - reflexivity.
  - reflexivity.
  - reflexivity.
  - cbn [i_modtime]. lia.
  - vm_compute. discriminate.
  - discriminate.
  - discriminate.
  - reflexivity.
  - reflexivity.
  - reflexivity.
Defined.

(** X17, on the time 1.5 s. *)
Lemma time_round_trip_witness :
  timeFromBytes (timeToBytes 1500000000) = Ret 1000000000%Z.
Proof.
  destruct (time_round_trip 1500000000) as (_ & Hdec & _); [lia|].
  exact Hdec.
Defined.

Section WarmCache.

Context {D : Type} `{HD : hash_Hash D} {E : Type} `{HE : Env E}.
Variables (ro : RangeOrder) (srv : @serverImpl D E) (e0 : E).
Variables (numWorkers : nat) (filenames : list string).
Hypothesis warm : ∀ f, f ∈ filenames → ∃ sums, cached ro srv e0 f sums.

Lemma warm_do_Get f e' w' :
  f ∈ filenames → do_Get ro srv e0 f = Ret (e', w') →
  e' = e0 ∧ worker_warm ro srv e0 filenames w'.
Proof.
  intros Hf Hdo. destruct (warm f Hf) as (sums & c & Hc & Hget & Hmiss).
  unfold do_Get in Hdo. rewrite Hc, Hget, Hmiss in Hdo. injection Hdo as <- <-.
  split; [done|]. cbn. split; [done|]. by exists c.
Qed.

Lemma warm_step s s' :
  step ro srv numWorkers s s' →
  warm_inv ro srv e0 filenames s → warm_inv ro srv e0 filenames s'.
Proof.
  intros Hstep [He Ht Hw Hc Hcalls].
  destruct Hstep as [| | | |e e' f w' todo ch cl ws1 ws2 c calls rc m Hdo
                     |e e' f w' todo ch cl ws1 ws2 c calls rc m Hdo
                     |e e' f sums w' todo ch cl ws1 ws2 c calls rc m Hdo| | | | |];
    cbn [p_env p_todo p_fileChan p_workers p_consumer p_calls] in *;
    rewrite ?Forall_app, ?Forall_cons in *;
    cbn [worker_warm] in *; try tauto.
  all: try (subst e; destruct (warm_do_Get f e' w') as [-> Hw']; [tauto|done|]).
  all: constructor;
    cbn [p_env p_todo p_fileChan p_workers p_consumer p_calls];
    rewrite ?Forall_app, ?Forall_cons, ?Forall_nil;
    cbn [worker_warm]; tauto.
Qed.

Lemma warm_nsteps k s s' :
  nsteps (step ro srv numWorkers) k s s' →
  warm_inv ro srv e0 filenames s → warm_inv ro srv e0 filenames s'.
Proof. induction 1; eauto using warm_step. Qed.

Lemma warm_start :
  warm_inv ro srv e0 filenames
    (PState e0 filenames [] false (replicate numWorkers WRecv) CRecv [] false MWait).
Proof.
  constructor; cbn [p_env p_todo p_fileChan p_workers p_consumer p_calls]; try done.
  - rewrite app_nil_r. by apply Forall_forall.
  - by apply Forall_replicate.
Qed.

Lemma warm_not_hashing (ws : list wstate) :
  Forall (worker_warm ro srv e0 filenames) ws → Forall (λ w, is_hashing w = false) ws.
Proof. intros Hws. eapply Forall_impl; [exact Hws|]. by intros []. Qed.

End WarmCache.

Section WarmCacheClaim.

Context {D : Type} `{HD : hash_Hash D} {E : Type} `{HE : Env E}.

(** X18: when the cache has, for every file of the list, digests of every
    algorithm, then under every interleaving [Parallel] answers from the
    cache alone: no worker ever comes to hash a file or to call [Set], the
    environment stays as it was, and every result passed to [onResult] is
    what [Get] returns for its file, without error; when the caller has
    returned these are the files of the list. *)
Theorem Parallel_warm_cache ro (srv : @serverImpl D E) numCPU e0 filenames :
  algorithms srv ≠ ∅ →
  (∀ f, f ∈ filenames → ∃ sums, cached ro srv e0 f sums) →
  ∃ n s0,
    NumberOfWorkers numCPU srv = Ret n
    ∧ Parallel_start srv numCPU e0 filenames = Ret s0
    ∧ ∀ k s,
        nsteps (step ro srv (Z.to_nat n)) k s0 s →
        p_env s = e0
        ∧ Forall (λ w, is_hashing w = false) (p_workers s)
        ∧ Forall (from_cache ro srv e0) (p_calls s)
        ∧ (p_main s = MReturned → r_filename <$> p_calls s ≡ₚ filenames).
Proof.
  intros Hne Hwarm. destruct (NumberOfWorkers_returns numCPU srv Hne) as [n Hn].
  exists n. eexists. split; [done|]. unfold Parallel_start. rewrite Hn. split; [done|].
  assert (Hpos : (0 < Z.to_nat n)%nat).
  { apply NumberOfWorkers_values in Hn as [->| ->]; lia. }
  intros k s Hsteps.
  pose proof (nsteps_inv ro srv _ filenames _ _ _ Hsteps (start_inv _ filenames e0)) as Hinv.
  pose proof (warm_nsteps ro srv e0 _ filenames Hwarm _ _ _ Hsteps
                (warm_start ro srv e0 _ filenames)) as [He _ Hw _ Hcalls].
  split; [done|]. split; [by eapply warm_not_hashing|]. split; [done|].
  intros Hm. by apply (returned_calls _ filenames s Hpos Hinv Hm).
Qed.

End WarmCacheClaim.

(** X18, on the engine with the cache in extended attributes and a file
    with a current entry for md5 and sha256. *)
Lemma Parallel_warm_cache_witness :
  ∃ n s0,
    NumberOfWorkers 8 xattr_server = Ret n
    ∧ Parallel_start xattr_server 8 warm_world ["/f"; "/f"] = Ret s0
    ∧ ∀ k s,
        nsteps (step listing_order xattr_server (Z.to_nat n)) k s0 s →
        w_opened (p_env s) = [].
Proof.
  destruct (Parallel_warm_cache listing_order xattr_server 8 warm_world ["/f"; "/f"])
    as (n & s0 & Hn & Hs0 & Hrun).
  - apply insert_non_empty.
  - intros f Hf. assert (f = "/f") as ->.
    { by repeat (apply elem_of_cons in Hf as [->|Hf]; [done|]); apply elem_of_nil in Hf. }
    eexists. exists (xattr_Cache listing_order newXattrCache).
    split; [reflexivity|]. split; [vm_compute; reflexivity|]. vm_compute. reflexivity.
  - exists n, s0. split; [exact Hn|]. split; [exact Hs0|].
    intros k s Hsteps. destruct (Hrun k s Hsteps) as (-> & _). reflexivity.
Defined.

(** ** [NewServer] on lists with repeated names *)

Section NewServerMore.

Context {D : Type} `{HD : hash_Hash D} {E : Type} `{HE : Env E}.
Variable P : @Primitives D.
Implicit Types (srv : @serverImpl D E) (algs : list string).

Lemma NewServer_case_entries srv a srv' :
  NewServer_case P srv a = inl srv' →
  (∀ b, b ≠ a → algorithms srv' !! b = algorithms srv !! b)
  ∧ (∀ srv2 srv2', NewServer_case P srv2 a = inl srv2' →
       algorithms srv' !! a = algorithms srv2' !! a)
  ∧ length (closers srv') = (length (closers srv) + length (filter (λ x, x = "md5") [a]))%nat.
Proof.
  unfold NewServer_case. intros Hcase. split; [|split].
  - intros b Hb.
    repeat match type of Hcase with
           | (if String.eqb ?x ?y then _ else _) = _ => destruct (String.eqb_spec x y)
           | (if ?c then _ else _) = _ => destruct c
           end; try discriminate Hcase;
      injection Hcase as <-; subst; cbn [algorithms set_algorithm add_closer];
      by rewrite lookup_insert_ne.
  - intros srv2 srv2' Hcase2.
    repeat match type of Hcase with
           | (if String.eqb ?x ?y then _ else _) = _ => destruct (String.eqb_spec x y)
           | (if ?c then _ else _) = _ => destruct c
           end; try discriminate Hcase; try discriminate Hcase2;
      injection Hcase as <-; injection Hcase2 as <-; subst;
      cbn [algorithms set_algorithm add_closer]; by rewrite !lookup_insert_eq.
  - rewrite filter_cons, filter_nil.
    repeat match type of Hcase with
           | (if String.eqb ?x ?y then _ else _) = _ => destruct (String.eqb_spec x y)
           | (if ?c then _ else _) = _ => destruct c
           end; try discriminate Hcase;
      injection Hcase as <-; subst; cbn [closers set_algorithm add_closer];
      rewrite ?length_app; by (rewrite decide_True by done) || (rewrite decide_False by done; cbn; lia).
Qed.

Lemma NewServer_loop_entries srv algs srv' :
  NewServer_loop P srv algs = inl srv' →
  (∀ b, b ∉ algs → algorithms srv' !! b = algorithms srv !! b)
  ∧ (∀ a, a ∈ algs → ∀ srv2 srv2', NewServer_case P srv2 a = inl srv2' →
       algorithms srv' !! a = algorithms srv2' !! a)
  ∧ length (closers srv')
    = (length (closers srv) + length (filter (λ x, x = "md5") algs))%nat.
Proof.
  revert srv. induction algs as [|a algs IH]; intros srv Hloop.
  - injection Hloop as <-. split; [done|]. split; [by intros a ?%elem_of_nil|].
    rewrite filter_nil. cbn. lia.
  - cbn [NewServer_loop] in Hloop.
    destruct (NewServer_case P srv a) as [srv1|err] eqn:Hcase; [|done].
    destruct (NewServer_case_entries srv a srv1 Hcase) as (Hother & Hsame & Hlen).
    destruct (IH srv1 Hloop) as (IHout & IHin & IHlen). split; [|split].
    + intros b [Hba Hb]%not_elem_of_cons. rewrite IHout by done. by apply Hother.
    + intros b Hb srv2 srv2' Hcase2. destruct (decide (b ∈ algs)) as [Hin|Hout].
      * by eapply IHin.
      * apply elem_of_cons in Hb as [->|Hb]; [|done]. rewrite IHout by done. by eapply Hsame.
    + rewrite IHlen, Hlen. change (a :: algs) with ([a] ++ algs).
      rewrite (filter_app _ [a] algs), length_app. lia.
Qed.

(** X19: what an engine computes depends on the set of the names given to
    [NewServer] only, not on their order or on repetitions: two lists with
    the same names give the same cache, the same number of workers and the
    same new hashes.  A repetition shows in the closers alone: the engine
    has one closer, of an md5 server of its own, for every occurrence of
    "md5". *)
Theorem NewServer_same_names c algs algs' srv srv' :
  NewServer P c algs = inl srv →
  NewServer P c algs' = inl srv' →
  (∀ a, a ∈ algs ↔ a ∈ algs') →
  cache srv = cache srv'
  ∧ (∀ numCPU, NumberOfWorkers numCPU srv = NumberOfWorkers numCPU srv')
  ∧ (∀ ro, NewHash ro srv = NewHash ro srv')
  ∧ length (closers srv) = length (filter (λ x, x = "md5") algs)
  ∧ length (closers srv') = length (filter (λ x, x = "md5") algs').
Proof.
  intros Hnew Hnew' Hsame.
  destruct (NewServer_loop_entries _ algs srv Hnew) as (Hout & Hin & Hlen).
  destruct (NewServer_loop_entries _ algs' srv' Hnew') as (Hout' & Hin' & Hlen').
  destruct (NewServer_algorithms P c algs srv Hnew) as (Hvoc & Hc & _).
  destruct (NewServer_algorithms P c algs' srv' Hnew') as (_ & Hc' & _).
  assert (Halg : algorithms srv = algorithms srv').
  { apply map_eq. intros a. destruct (decide (a ∈ algs)) as [Ha|Ha].
    - rewrite Forall_forall in Hvoc.
      destruct (NewServer_case_supported P srv a (Hvoc a Ha)) as (srv2 & Hcase & _).
      rewrite (Hin a Ha _ _ Hcase). symmetry.
      apply (Hin' a (proj1 (Hsame a) Ha) _ _ Hcase).
    - rewrite Hout, Hout' by (by rewrite <- ?Hsame). done. }
  split; [congruence|]. split; [|split; [|split; [done|done]]].
  - intros numCPU. unfold NumberOfWorkers. by rewrite Halg.
  - intros ro. by rewrite !NewHash_fmap, Halg.
Qed.

End NewServerMore.

(** X19, on [NewServer(nil, "md5", "sha256", "md5")] and
    [NewServer(nil, "sha256", "md5")]. *)
Lemma NewServer_same_names_witness :
  ∃ srv srv' : @serverImpl sumhash world,
    NewServer sumhash_Primitives None ["md5"; "sha256"; "md5"] = inl srv
    ∧ NewServer sumhash_Primitives None ["sha256"; "md5"] = inl srv'
    ∧ NewHash listing_order srv = NewHash listing_order srv'
    ∧ length (closers srv) = 2%nat ∧ length (closers srv') = 1%nat.
Proof.
  eexists _, _. split; [reflexivity|]. split; [reflexivity|].
  destruct (NewServer_same_names (E:=world) sumhash_Primitives None
              ["md5"; "sha256"; "md5"] ["sha256"; "md5"] _ _ eq_refl eq_refl)
    as (_ & _ & Hhash & Hlen & Hlen').
  - intros a. rewrite !elem_of_cons. tauto.
  - split; [exact (Hhash listing_order)|]. split; [exact Hlen|exact Hlen'].
Defined.

Lemma append_nil_r (s : string) : s +:+ "" = s.
Proof. induction s as [|c s IH]; [done|]. rewrite append_cons. by f_equal. Qed.

Section AttrsFacts.

Variable ro : RangeOrder.
Implicit Types (a : osXattr) (w : world).

Lemma SetAttrs_remove_spec a w path keys (attrs : gmap string bytes) ino :
  w_files w !! path = Some ino →
  i_xattr_err ino = None →
  NoDup keys →
  (∀ key, key ∈ keys → attrs !! key = None → is_Some (i_xattr ino !! name a key)) →
  ∃ w' ino',
    SetAttrs_remove a w path keys attrs = (w', None)
    ∧ (∀ path', path' ≠ path → w_files w' !! path' = w_files w !! path')
    ∧ w_files w' !! path = Some ino'
    ∧ i_xattr_err ino' = None
    ∧ (∀ key, key ∈ keys → attrs !! key = None → i_xattr ino' !! name a key = None)
    ∧ (∀ f, (∀ key, key ∈ keys → attrs !! key = None → name a key ≠ f) →
           i_xattr ino' !! f = i_xattr ino !! f).
Proof.
  intros Hino Herr Hnd. revert w ino Hino Herr.
  induction Hnd as [|key keys Hkey Hnd IH]; intros w ino Hino Herr Hin.
  - exists w, ino. split; [done|]. split; [done|]. split; [done|]. split; [done|].
    split; [|done]. by intros key ?%elem_of_nil.
  - cbn [SetAttrs_remove]. destruct (attrs !! key) as [v0|] eqn:Hp.
    + destruct (IH w ino Hino Herr) as (w' & ino' & -> & Hother & Hino' & Herr' & Hgone & Hkept).
      * intros key' Hkey' Hp'. apply Hin; [by right|done].
      * exists w', ino'. split; [done|]. split; [done|]. split; [done|]. split; [done|]. split.
        -- intros key' [->|Hkey']%elem_of_cons Hp'; [congruence|by apply Hgone].
        -- intros f Hf. apply Hkept. intros key' Hkey' Hp'. apply Hf; [by right|done].
    + destruct (Hin key) as [v Hv]; [by left|done|].
      unfold xattr_Remove. rewrite Hino, Herr, Hv.
      destruct (IH (set_xattr w path ino (delete (name a key) (i_xattr ino)))
                  {| i_modtime := i_modtime ino; i_open := i_open ino;
                     i_chunks := i_chunks ino; i_final := i_final ino;
                     i_xattr := delete (name a key) (i_xattr ino);
                     i_xattr_err := i_xattr_err ino |})
        as (w' & ino' & -> & Hother & Hino' & Herr' & Hgone & Hkept).
      * cbn [set_xattr w_files]. by rewrite lookup_insert_eq.
      * done.
      * intros key' Hkey' Hp'. cbn [i_xattr]. rewrite lookup_delete_ne.
        -- apply Hin; [by right|done].
        -- intros Heq%name_inj. by subst.
      * exists w', ino'. split; [done|]. split; [|split; [done|split; [done|split]]].
        -- intros path' Hne. rewrite Hother by done. cbn [set_xattr w_files].
           by rewrite lookup_insert_ne.
        -- intros key' [->|Hkey']%elem_of_cons Hp'; [|by apply Hgone].
           rewrite Hkept; [cbn [i_xattr]; by rewrite lookup_delete_eq|].
           intros key'' Hkey'' _ Heq%name_inj. by subst.
        -- intros f Hf. rewrite Hkept.
           ++ cbn [i_xattr]. rewrite lookup_delete_ne; [done|]. apply Hf; [by left|done].
           ++ intros key' Hkey' Hp'. apply Hf; [by right|done].
Qed.

Lemma SetAttrs_set_stored a w path kvs ino :
  w_files w !! path = Some ino →
  i_xattr_err ino = None →
  ∃ w' ino',
    SetAttrs_set a w path kvs = (w', None)
    ∧ (∀ path', path' ≠ path → w_files w' !! path' = w_files w !! path')
    ∧ w_files w' !! path = Some ino'
    ∧ i_xattr_err ino' = None
    ∧ i_xattr ino' = foldl (λ x kv, <[name a kv.1 := kv.2]> x) (i_xattr ino) kvs.
Proof.
  revert w ino. induction kvs as [|[key value] kvs IH]; intros w ino Hino Herr.
  - by exists w, ino.
  - cbn [SetAttrs_set foldl fst snd]. unfold xattr_Set. rewrite Hino, Herr.
    destruct (IH (set_xattr w path ino (<[name a key := value]> (i_xattr ino)))
                {| i_modtime := i_modtime ino; i_open := i_open ino;
                   i_chunks := i_chunks ino; i_final := i_final ino;
                   i_xattr := <[name a key := value]> (i_xattr ino);
                   i_xattr_err := i_xattr_err ino |})
      as (w' & ino' & -> & Hother & Hino' & Herr' & Hx).
    + cbn [set_xattr w_files]. by rewrite lookup_insert_eq.
    + done.
    + exists w', ino'. split; [done|]. split; [|done].
      intros path' Hne. rewrite Hother by done. cbn [set_xattr w_files].
      by rewrite lookup_insert_ne.
Qed.

Lemma GetAttrs_loop_spec a w path keys (attrs0 : gmap string bytes) ino :
  w_files w !! path = Some ino →
  (∀ key, key ∈ keys → is_Some (i_xattr ino !! name a key)) →
  ∃ attrs, GetAttrs_loop a w path keys attrs0 = (attrs, None)
    ∧ ∀ k, attrs !! k = if decide (k ∈ keys) then i_xattr ino !! name a k else attrs0 !! k.
Proof.
  intros Hino. revert attrs0. induction keys as [|key keys IH]; intros attrs0 Hin.
  - exists attrs0. split; [done|]. intros k. rewrite decide_False; [done|apply not_elem_of_nil].
  - cbn [GetAttrs_loop]. unfold xattr_Get. rewrite Hino.
    destruct (Hin key) as [v Hv]; [by left|]. rewrite Hv.
    destruct (IH (<[key := v]> attrs0)) as (attrs & -> & Hattrs).
    { intros key' Hkey'. apply Hin. by right. }
    exists attrs. split; [done|]. intros k. rewrite Hattrs.
    destruct (decide (k ∈ keys)) as [Hk|Hk].
    + rewrite decide_True; [done|by right].
    + destruct (decide (k = key)) as [->|Hne].
      * rewrite lookup_insert_eq, decide_True; [done|by left].
      * rewrite lookup_insert_ne by done. rewrite decide_False; [done|].
        by intros [?|?]%elem_of_cons.
Qed.

(** X20: [SetAttrs] then [GetAttrs].  On an existing file whose attributes
    can be changed, and either without a namespace or with a map that has
    no empty name and a file that has no attribute named by the namespace
    and a dot alone, [SetAttrs] returns no error, touches no other file
    and no attribute outside the namespace, and [GetAttrs] then returns the
    map that was set: the attributes of the namespace that the map does not
    have are gone. *)
Theorem SetAttrs_then_GetAttrs a w path (attrs : gmap string bytes) ino :
  w_files w !! path = Some ino →
  i_xattr_err ino = None →
  ns a = "" ∨ (attrs !! "" = None ∧ i_xattr ino !! (ns a +:+ ".") = None) →
  ∃ w' ino',
    SetAttrs ro a w path (Some attrs) = (w', None)
    ∧ GetAttrs ro a w' path = (Some attrs, None)
    ∧ (∀ path', path' ≠ path → w_files w' !! path' = w_files w !! path')
    ∧ w_files w' !! path = Some ino'
    ∧ ∀ f, HasPrefix f (ns_prefix a) = false → i_xattr ino' !! f = i_xattr ino !! f.
Proof.
  intros Hino Herr Hpre.
  destruct (List_present ro a w path ino Hino) as (keys & HList & Hnd & Hkeys).
  assert (Hempty : ns a ≠ "" → attrs !! "" = None ∧ i_xattr ino !! (ns_prefix a) = None).
  { intros Hns. destruct Hpre as [?|[? Hdot]]; [done|]. split; [done|].
    unfold ns_prefix. by destruct (String.eqb_spec (ns a) ""). }
  assert (Hname : ∀ k, is_Some (attrs !! k) ∨ k ∈ keys → name a k = (ns_prefix a) +:+ k).
  { intros k Hk. apply name_ns_prefix.
    destruct (decide (ns a = "")) as [Hns|Hns]; [by right|left].
    destruct (Hempty Hns) as [Hno Hdot]. intros ->.
    destruct Hk as [[? Hk]|Hk]; [congruence|].
    apply Hkeys in Hk as [? Hk]. rewrite append_nil_r in Hk. congruence. }
  assert (Houtside : ∀ f k, HasPrefix f (ns_prefix a) = false → k ≠ "" ∨ ns a = "" → name a k ≠ f).
  { intros f k Hf Hk Heq. rewrite (name_ns_prefix a k Hk) in Heq. subst f.
    by rewrite HasPrefix_append in Hf. }
  (* the first loop *)
  destruct (SetAttrs_remove_spec a w path keys attrs ino Hino Herr Hnd)
    as (w1 & ino1 & Hrem & Hother1 & Hino1 & Herr1 & Hgone1 & Hkept1).
  { intros key Hkey _. rewrite Hname by (by right). by apply Hkeys. }
  (* the second loop *)
  destruct (SetAttrs_set_stored a w1 path (range ro attrs) ino1 Hino1 Herr1)
    as (w2 & ino2 & Hset & Hother2 & Hino2 & Herr2 & Hx2).
  destruct (foldl_insert_named_lookup (name a) (range ro attrs) (i_xattr ino1)
              (name_inj a) (range_NoDup ro _)) as [Hin2 Hout2].
  rewrite <- Hx2, range_list_to_map in Hin2. rewrite <- Hx2 in Hout2.
  (* the attributes of the namespace are those of the map *)
  assert (Hx : ∀ k, i_xattr ino2 !! ((ns_prefix a) +:+ k) = attrs !! k).
  { intros k. destruct (decide (k ≠ "" ∨ ns a = "")) as [Hk|Hk].
    - rewrite <- (name_ns_prefix a k Hk), Hin2.
      destruct (attrs !! k) as [v|] eqn:Hv; [done|].
      destruct (decide (k ∈ keys)) as [Hin|Hnotin]; [by apply Hgone1|].
      rewrite Hkept1.
      + rewrite (name_ns_prefix a k Hk). destruct (i_xattr ino !! ((ns_prefix a) +:+ k)) eqn:Hold; [|done].
        destruct Hnotin. apply Hkeys. by rewrite Hold.
      + intros key Hkey _ Heq%name_inj. by subst.
    - assert (k = "" ∧ ns a ≠ "") as [-> Hns].
      { destruct (decide (k = "")), (decide (ns a = "")); tauto. }
      destruct (Hempty Hns) as [Hno Hdot]. rewrite append_nil_r, Hno.
      assert (Himage : ∀ k', name a k' ≠ (ns_prefix a)).
      { intros k' Heq. destruct (decide (k' = "")) as [->|Hk'].
        - rewrite name_nil in Heq. unfold ns_prefix in Heq.
          destruct (String.eqb_spec (ns a) ""); [done|].
          symmetry in Heq. by apply append_ne_self in Heq.
        - rewrite name_prefix in Heq by done.
          by apply append_ne_self in Heq. }
      rewrite Hout2 by done. rewrite Hkept1; [done|]. intros key _ _. apply Himage. }
  exists w2, ino2. split; [|split; [|split; [|split; [done|]]]].
  - unfold SetAttrs. change (default ∅ (Some attrs)) with attrs.
    by rewrite HList, Hrem, Hset.
  - unfold GetAttrs.
    destruct (List_present ro a w2 path ino2 Hino2) as (keys2 & -> & _ & Hkeys2).
    setoid_rewrite Hx in Hkeys2.
    destruct (GetAttrs_loop_spec a w2 path keys2 ∅ ino2 Hino2) as (attrs' & -> & Hattrs').
    { intros key Hkey%Hkeys2. rewrite Hname by (by left). by rewrite Hx. }
    do 2 f_equal. apply map_eq. intros k. rewrite Hattrs'.
    destruct (decide (k ∈ keys2)) as [Hk|Hk].
    + apply Hkeys2 in Hk. rewrite Hname by (by left). apply Hx.
    + rewrite lookup_empty. destruct (attrs !! k) eqn:Hv; [|done].
      destruct Hk. apply Hkeys2. by rewrite Hv.
  - intros path' Hne. by rewrite Hother2, Hother1.
  - intros f Hf. destruct (decide (f = ns a ∧ ns a ≠ "")) as [[-> Hns]|Hf'].
    + destruct (Hempty Hns) as [Hno _]. rewrite <- (name_nil a), Hin2, Hno.
      apply Hkept1. intros key Hkey _ Heq%name_inj. subst key.
      apply Hkeys in Hkey as [? Hkey]. rewrite append_nil_r in Hkey.
      destruct (Hempty Hns). congruence.
    + assert (Himage : ∀ k, name a k ≠ f).
      { intros k. destruct (decide (k ≠ "" ∨ ns a = "")) as [Hk|Hk]; [by apply Houtside|].
        assert (k = "" ∧ ns a ≠ "") as [-> Hns].
        { destruct (decide (k = "")), (decide (ns a = "")); tauto. }
        rewrite name_nil. intros <-. by destruct Hf'. }
      rewrite Hout2 by done. apply Hkept1. intros key _ _. apply Himage.
Qed.

Lemma GetAttrs_loop_fails a w path keys (attrs0 : gmap string bytes) ino key :
  w_files w !! path = Some ino →
  key ∈ keys → i_xattr ino !! name a key = None →
  ∃ attrs, GetAttrs_loop a w path keys attrs0 = (attrs, Some ENODATA).
Proof.
  intros Hino Hkey Hnone. revert attrs0.
  induction keys as [|key' keys IH]; intros attrs0; [by apply elem_of_nil in Hkey|].
  cbn [GetAttrs_loop]. unfold xattr_Get. rewrite Hino.
  destruct (i_xattr ino !! name a key') as [v|] eqn:Hv; [|by eauto].
  apply IH. apply elem_of_cons in Hkey as [->|Hkey]; [congruence|done].
Qed.

Lemma SetAttrs_remove_fails a w path keys (attrs : gmap string bytes) ino key :
  w_files w !! path = Some ino →
  i_xattr_err ino = None →
  key ∈ keys → attrs !! key = None → i_xattr ino !! name a key = None →
  (SetAttrs_remove a w path keys attrs).2 = Some ENODATA.
Proof.
  intros Hino Herr Hkey Hattrs. revert w ino Hino Herr.
  induction keys as [|key' keys IH]; intros w ino Hino Herr Hnone;
    [by apply elem_of_nil in Hkey|].
  cbn [SetAttrs_remove]. destruct (attrs !! key') as [v0|] eqn:Hk'.
  - apply elem_of_cons in Hkey as [->|Hkey]; [congruence|]. by eapply IH.
  - unfold xattr_Remove. rewrite Hino, Herr.
    destruct (i_xattr ino !! name a key') as [v|] eqn:Hv; [|done].
    apply elem_of_cons in Hkey as [->|Hkey]; [congruence|].
    eapply (IH Hkey _ {| i_modtime := i_modtime ino; i_open := i_open ino;
                          i_chunks := i_chunks ino; i_final := i_final ino;
                          i_xattr := delete (name a key') (i_xattr ino);
                          i_xattr_err := i_xattr_err ino |}).
    + cbn [set_xattr w_files]. by rewrite lookup_insert_eq.
    + done.
    + cbn [i_xattr]. by rewrite lookup_delete_None; right.
Qed.

(** X21: the empty name in a namespace.  On a file that has the attribute
    named by the namespace and a dot alone, but not the attribute named by
    the namespace, [List] returns the empty name, under which [Get] finds
    no data; so [GetAttrs] fails with [ENODATA], and so does [SetAttrs],
    where the attributes can be changed, with every map that does not have
    the empty name. *)
Theorem empty_name_breaks_Attrs a w path ino :
  w_files w !! path = Some ino →
  ns a ≠ "" →
  is_Some (i_xattr ino !! (ns a +:+ ".")) →
  i_xattr ino !! ns a = None →
  (∃ keys, List ro a w path = inl keys ∧ "" ∈ keys)
  ∧ Get a w path "" = inr ENODATA
  ∧ (∃ attrs, GetAttrs ro a w path = (Some attrs, Some ENODATA))
  ∧ ∀ attrs : gmap string bytes,
      i_xattr_err ino = None → attrs !! "" = None →
      (SetAttrs ro a w path (Some attrs)).2 = Some ENODATA.
Proof.
  intros Hino Hns Hdot Hnone.
  destruct (List_present ro a w path ino Hino) as (keys & HList & _ & Hkeys).
  assert (Hin : "" ∈ keys).
  { apply Hkeys. rewrite append_nil_r. unfold ns_prefix.
    by destruct (String.eqb_spec (ns a) ""). }
  split; [by eauto|]. split; [|split].
  - unfold Get, xattr_Get. by rewrite Hino, name_nil, Hnone.
  - unfold GetAttrs. rewrite HList.
    destruct (GetAttrs_loop_fails a w path keys ∅ ino "" Hino Hin) as [attrs ->]; [|by eauto].
    by rewrite name_nil.
  - intros attrs Herr Hattrs. unfold SetAttrs. rewrite HList.
    change (default ∅ (Some attrs)) with attrs.
    pose proof (SetAttrs_remove_fails a w path keys attrs ino "" Hino Herr Hin Hattrs) as Hfail.
    rewrite name_nil in Hfail. specialize (Hfail Hnone).
    destruct (SetAttrs_remove a w path keys attrs) as [w1 [err|]]; [done|done].
Qed.

End AttrsFacts.

(** X20, on the entry of "/f" in the namespace of the cache, replaced by a
    digest of sha1. *)
Lemma SetAttrs_then_GetAttrs_witness :
  ∃ w',
    SetAttrs listing_order (NS Xattr "user.xsum") partial_world "/f"
      (Some {[ "sha1" := [Byte.x04] ]}) = (w', None)
    ∧ GetAttrs listing_order (NS Xattr "user.xsum") w' "/f"
      = (Some {[ "sha1" := [Byte.x04] ]}, None).
Proof.
  destruct (SetAttrs_then_GetAttrs listing_order (NS Xattr "user.xsum") partial_world "/f"
              {[ "sha1" := [Byte.x04] ]}
              {| i_modtime := 1000000000; i_open := None;
                 i_chunks := [[Byte.x61; Byte.x62]]; i_final := None;
                 i_xattr := <["user.xsum.time" := timeToBytes 2000000000]>
                              (<["user.xsum.md5" := [Byte.x01; Byte.xc3]]> ∅);
                 i_xattr_err := None |})
    as (w' & ino' & Hset & Hget & _).
  - reflexivity.
  - reflexivity.
  - right. split; reflexivity.
  - exists w'. split; [exact Hset|exact Hget].
Defined.

(** X21, on "/f" with the one attribute "user.xsum.". *)
Lemma empty_name_breaks_Attrs_witness :
  ∃ attrs,
    GetAttrs listing_order (NS Xattr "user.xsum")
      (one_file 1 {[ "user.xsum." := [] ]} None) "/f" = (Some attrs, Some ENODATA).
Proof.
  destruct (empty_name_breaks_Attrs listing_order (NS Xattr "user.xsum")
              (one_file 1 {[ "user.xsum." := [] ]} None) "/f"
              {| i_modtime := 1000000000; i_open := None;
                 i_chunks := [[Byte.x61; Byte.x62]]; i_final := None;
                 i_xattr := {[ "user.xsum." := [] ]}; i_xattr_err := None |})
    as (_ & _ & Hget & _).
  - reflexivity.
  - discriminate.
  - by eexists.
  - reflexivity.
  - exact Hget.
Defined.

(** ** The writers *)

Section CsvFacts.

Context {W : Type} `{HW : csv_Writer W}.
Implicit Types (w : @csvWriter W) (calls : list result).

Lemma foldl_snoc_fmap {A B} (f : A → B) (init : list B) (l : list A) :
  foldl (λ acc a, acc ++ [f a]) init l = init ++ (f <$> l).
Proof.
  revert init. induction l as [|a l IH]; intros init; cbn [foldl].
  - by rewrite app_nil_r.
  - by rewrite IH, fmap_cons, <- app_assoc.
Qed.

(** One call of [Write], by the records given to the [csv.Writer]. *)
Lemma csvWriter_Write_spec w hostname sizes r :
  csvWriter_Write w hostname (r_filename r) (default 0%Z (sizes !! r_filename r))
    (r_sums r) (r_err r)
  = let w1 := if cw_wroteHeaders w then cw_writer w
              else (csv_Write (cw_writer w) (csv_header (cw_algorithms w))).1 in
    let out := csv_Write w1 (csv_row (cw_algorithms w) hostname sizes r) in
    ({| cw_writer := out.1; cw_wroteHeaders := true; cw_algorithms := cw_algorithms w |},
     out.2).
Proof.
  unfold csvWriter_Write, csv_header, csv_row.
  rewrite (foldl_snoc_fmap (λ a, a +:+ "sum")).
  assert (Hdata : ∀ algs init,
    foldl (λ data algorithm,
             match default ∅ (r_sums r) !! algorithm with
             | None => data ++ [""]
             | Some sum => data ++ [hex sum]
             end) init algs
    = init ++ ((λ a, match default ∅ (r_sums r) !! a with
                     | Some sum => hex sum
                     | None => ""
                     end) <$> algs)).
  { intros algs. induction algs as [|a algs IH]; intros init; cbn [foldl].
    - by rewrite app_nil_r.
    - rewrite fmap_cons. destruct (default ∅ (r_sums r) !! a); by rewrite IH, <- app_assoc. }
  destruct (cw_wroteHeaders w) eqn:Hwrote; cbn [cw_writer cw_wroteHeaders cw_algorithms];
    rewrite Hdata; destruct (r_err r) as [e|]; cbn [default from_option id app];
    rewrite ?Hwrote; by destruct (csv_Write _ _).
Qed.

End CsvFacts.

Section CsvRun.

Context {W : Type} `{HW : csv_Writer W}.
Variables (hostname : string) (sizes : gmap string Z).
Implicit Types (w : @csvWriter W) (calls : list result).


Lemma onResults_cons w r rest :
  onResults hostname sizes w (r :: rest)
  = let w1 := if cw_wroteHeaders w then cw_writer w
              else (csv_Write (cw_writer w) (csv_header (cw_algorithms w))).1 in
    let out := csv_Write w1 (csv_row (cw_algorithms w) hostname sizes r) in
    match out.2 with
    | None =>
        onResults hostname sizes
          {| cw_writer := out.1; cw_wroteHeaders := true; cw_algorithms := cw_algorithms w |}
          rest
    | Some e => Panic (e +:+ newline)
    end.
Proof.
  cbn [onResults]. unfold doXsum_onResult. cbn [xsum_Write csvWriter_xsumWriter].
  rewrite csvWriter_Write_spec. cbv zeta.
  by destruct (csv_Write _ (csv_row _ _ _ _)) as [wr [e|]].
Qed.



(** The calls on a [csv.Writer] that takes every record. *)
Lemma onResults_accepted w calls :
  (∀ (wr : W) record, (csv_Write wr record).2 = None) →
  ∃ w', onResults hostname sizes w calls = Ret w'
        ∧ cw_writer w'
          = match calls with
            | [] => cw_writer w
            | _ => csv_Writes (cw_writer w)
                     ((if cw_wroteHeaders w then [] else [csv_header (cw_algorithms w)])
                      ++ (csv_row (cw_algorithms w) hostname sizes <$> calls))
            end.
Proof.
  intros Hacc. revert w. induction calls as [|r rest IH]; intros w; [by eexists|].
  rewrite onResults_cons. cbv zeta. rewrite Hacc.
  destruct (IH {| cw_writer :=
                    (csv_Write (if cw_wroteHeaders w then cw_writer w
                                else (csv_Write (cw_writer w)
                                        (csv_header (cw_algorithms w))).1)
                       (csv_row (cw_algorithms w) hostname sizes r)).1;
                  cw_wroteHeaders := true; cw_algorithms := cw_algorithms w |})
    as (w' & -> & Hw').
  exists w'. split; [done|]. rewrite Hw'. cbn [cw_writer cw_wroteHeaders cw_algorithms app].
  rewrite fmap_cons. unfold csv_Writes.
  destruct (cw_wroteHeaders w), rest; cbn [foldl app fmap list_fmap]; done.
Qed.

End CsvRun.

Section ParallelCsv.

Context {D : Type} `{HD : hash_Hash D} {E : Type} `{HE : Env E}.
Context {W : Type} `{HW : csv_Writer W}.

(** X23: [Parallel] with the callback of [doXsum] and a new [csvWriter],
    on an engine with at least one algorithm and a [csv.Writer] that takes
    every record: under every interleaving, when [Parallel] has returned
    the callback has not panicked, and the [csv.Writer] has got nothing
    for an empty list of files, and otherwise the header and then one row
    for every file of the list, in the order of the calls. *)
Theorem Parallel_csv_rows ro (srv : @serverImpl D E) numCPU e0 filenames
    hostname sizes (w0 : W) algs :
  algorithms srv ≠ ∅ →
  (∀ (wr : W) record, (csv_Write wr record).2 = None) →
  ∃ n s0,
    NumberOfWorkers numCPU srv = Ret n
    ∧ Parallel_start srv numCPU e0 filenames = Ret s0
    ∧ ∀ k s,
        nsteps (step ro srv (Z.to_nat n)) k s0 s →
        p_main s = MReturned →
        ∃ w', onResults hostname sizes (newCsvWriter w0 algs) (p_calls s) = Ret w'
              ∧ cw_writer w'
                = match filenames with
                  | [] => w0
                  | _ => csv_Writes w0 (csv_header algs
                                          :: (csv_row algs hostname sizes <$> p_calls s))
                  end
              ∧ r_filename <$> p_calls s ≡ₚ filenames.
Proof.
  intros Hne Hacc. destruct (NumberOfWorkers_returns numCPU srv Hne) as [n Hn].
  exists n. eexists. split; [done|]. unfold Parallel_start. rewrite Hn. split; [done|].
  assert (Hpos : (0 < Z.to_nat n)%nat).
  { apply NumberOfWorkers_values in Hn as [->| ->]; lia. }
  intros k s Hsteps Hm.
  pose proof (nsteps_inv ro srv _ filenames _ _ _ Hsteps (start_inv _ filenames e0)) as Hinv.
  pose proof (returned_calls _ filenames s Hpos Hinv Hm) as Hcalls.
  destruct (onResults_accepted hostname sizes (newCsvWriter w0 algs) (p_calls s) Hacc)
    as (w' & Hrun & Hw').
  exists w'. split; [done|]. split; [|done]. rewrite Hw'.
  cbn [newCsvWriter cw_writer cw_wroteHeaders cw_algorithms app].
  destruct (p_calls s) as [|r calls], filenames as [|f fs]; try done.
  - by apply Permutation_nil_cons in Hcalls.
  - symmetry in Hcalls. by apply Permutation_nil_cons in Hcalls.
Qed.

End ParallelCsv.

(** X23, on the engine for md5 and sha256 and two files. *)
Lemma Parallel_csv_rows_witness :
  ∃ n s0,
    NumberOfWorkers 8 md5_sha256_server = Ret n
    ∧ Parallel_start md5_sha256_server 8 (one_file 1 ∅ None) ["/f"; "/g"] = Ret s0
    ∧ ∀ k s,
        nsteps (step listing_order md5_sha256_server (Z.to_nat n)) k s0 s →
        p_main s = MReturned →
        ∃ w' : @csvWriter (list (list string)),
          onResults "host" ∅ (newCsvWriter [] ["md5"; "sha256"]) (p_calls s) = Ret w'
          ∧ length (cw_writer w') = 3%nat.
Proof.
  destruct (Parallel_csv_rows listing_order md5_sha256_server 8 (one_file 1 ∅ None)
              ["/f"; "/g"] "host" ∅ ([] : list (list string)) ["md5"; "sha256"])
    as (n & s0 & Hn & Hs0 & Hrun).
  - apply insert_non_empty.
  - done.
  - exists n, s0. split; [exact Hn|]. split; [exact Hs0|].
    intros k s Hsteps Hm. destruct (Hrun k s Hsteps Hm) as (w' & Hres & Hw' & Hperm).
    exists w'. split; [exact Hres|]. rewrite Hw'.
    apply Permutation_length in Hperm. rewrite length_fmap in Hperm.
    assert (Hlen : ∀ records (w : list (list string)),
              length (csv_Writes w records) = (length w + length records)%nat).
    { intros records. unfold csv_Writes.
      induction records as [|rec records IH]; intros w; cbn [foldl length]; [lia|].
      rewrite IH. cbn [csv_Write records_Writer fst]. rewrite length_app. cbn [length]. lia. }
    rewrite Hlen. cbn [length]. rewrite length_fmap, Hperm. reflexivity.
Defined.

(** ** [jsonWriter] *)

Lemma append_inj_r (a b s : string) : a +:+ s = b +:+ s → a = b.
Proof.
  revert b. induction a as [|c a IH]; intros [|d b] Heq.
  - done.
  - apply (f_equal String.length) in Heq. rewrite !append_length in Heq.
    cbn [String.length] in Heq. lia.
  - apply (f_equal String.length) in Heq. rewrite !append_length in Heq.
    cbn [String.length] in Heq. lia.
  - rewrite !append_cons in Heq. injection Heq as -> Heq. f_equal. by apply IH.
Qed.

Ltac no_suffix H a :=
  repeat (destruct a as [|? a]; [discriminate H|];
          rewrite append_cons in H; injection H as ? H);
  destruct a; discriminate H.

Lemma sum_not_fixed (a : string) :
  a +:+ "sum" ∉ ["hostname"; "filename"; "size"; "error"].
Proof.
  rewrite !not_elem_of_cons. repeat split; try apply not_elem_of_nil; intros H; no_suffix H a.
Qed.

Lemma foldl_insert_keyed {V V'} (g : string → string) (f : V → V')
    (kvs : list (string * V)) (x0 : gmap string V') :
  Inj (=) (=) g → NoDup kvs.*1 →
  (∀ k, foldl (λ x kv, <[g kv.1 := f kv.2]> x) x0 kvs !! g k
        = match (list_to_map kvs : gmap string V) !! k with
          | Some v => Some (f v)
          | None => x0 !! g k
          end)
  ∧ (∀ key, (∀ k, g k ≠ key) →
            foldl (λ x kv, <[g kv.1 := f kv.2]> x) x0 kvs !! key = x0 !! key)
  ∧ (∀ key, is_Some (foldl (λ x kv, <[g kv.1 := f kv.2]> x) x0 kvs !! key) →
            is_Some (x0 !! key) ∨ ∃ k, key = g k).
Proof.
  intros Hg. revert x0. induction kvs as [|[k0 v0] kvs IH]; intros x0 Hnd.
  { split; [done|]. split; [done|]. intros key Hkey. by left. }
  rewrite fmap_cons in Hnd. apply NoDup_cons in Hnd as [Hk0 Hnd].
  cbn [foldl fst snd]. destruct (IH (<[g k0 := f v0]> x0) Hnd) as (IH1 & IH2 & IH3).
  split; [|split].
  - intros k. rewrite IH1, list_to_map_cons. destruct (decide (k = k0)) as [->|Hne].
    + rewrite !lookup_insert_eq. by rewrite (not_elem_of_list_to_map_1 _ _ Hk0).
    + rewrite !lookup_insert_ne; [done|congruence|]. by intros ?%Hg.
  - intros key Hkey. rewrite IH2 by done. rewrite lookup_insert_ne; [done|apply Hkey].
  - intros key [Hkey|Hkey]%IH3; [|by right].
    destruct (decide (g k0 = key)) as [<-|Hne]; [by right; eauto|].
    left. by rewrite lookup_insert_ne in Hkey.
Qed.

Section JsonFacts.

Context {W : Type} `{HJ : json_Encoder W}.

(** X24: the object that [jsonWriter.Write] gives to the encoder.  It
    always has the host name, the file name and the size, which no digest
    can replace; with an error it has the message of the error and no
    digest, whatever the map of digests; without one it has no "error",
    and for every algorithm of the map its digest, under the name of the
    algorithm followed by "sum"; and it has nothing else. *)
Theorem json_object ro (w : @jsonWriter W) hostname filename size (sums : gomap) (err : error) :
  ∃ data,
    jsonWriter_Write ro w hostname filename size sums err
    = ({| jw_writer := (json_Encode (jw_writer w) data).1 |},
       (json_Encode (jw_writer w) data).2)
    ∧ data !! "hostname" = Some (JString hostname)
    ∧ data !! "filename" = Some (JString filename)
    ∧ data !! "size" = Some (JInt64 size)
    ∧ data !! "error" = JString <$> err
    ∧ (∀ a, data !! (a +:+ "sum")
            = match err with
              | Some _ => None
              | None => JBytes <$> (default ∅ sums !! a)
              end)
    ∧ ∀ k, is_Some (data !! k) →
           k ∈ ["hostname"; "filename"; "size"; "error"] ∨ ∃ a, k = a +:+ "sum".
Proof.
  unfold jsonWriter_Write.
  set (fixed := <["size" := JInt64 size]>
                  (<["filename" := JString filename]>
                     (<["hostname" := JString hostname]> (∅ : gmap string json_any)))).
  assert (Hfixed : ∀ k, fixed !! k
            = if decide (k = "size") then Some (JInt64 size)
              else if decide (k = "filename") then Some (JString filename)
              else if decide (k = "hostname") then Some (JString hostname)
              else None).
  { intros k. unfold fixed. repeat case_decide; subst;
      rewrite ?lookup_insert_eq, ?lookup_insert_ne, ?lookup_empty by done; done. }
  assert (Hsum : ∀ a, fixed !! (a +:+ "sum") = None).
  { intros a. pose proof (sum_not_fixed a) as Hno. rewrite !not_elem_of_cons in Hno.
    rewrite Hfixed. repeat case_decide; try done; tauto. }
  destruct err as [e|].
  - exists (<["error" := JString e]> fixed).
    split; [by destruct (json_Encode _ _)|].
    rewrite !lookup_insert_ne, !Hfixed by done.
    split; [done|]. split; [done|]. split; [done|]. rewrite lookup_insert_eq.
    split; [done|]. split.
    + intros a. rewrite lookup_insert_ne; [apply Hsum|].
      intros Heq. pose proof (sum_not_fixed a) as Hno. rewrite <- Heq in Hno.
      rewrite !not_elem_of_cons in Hno. tauto.
    + intros k [v Hk]. left. destruct (decide (k = "error")) as [->|Hne].
      * rewrite !elem_of_cons. tauto.
      * rewrite lookup_insert_ne, Hfixed in Hk by done. rewrite !elem_of_cons.
        repeat case_decide; try done; tauto.
  - destruct (foldl_insert_keyed (λ a, a +:+ "sum") JBytes (range ro (default ∅ sums)) fixed)
      as (Hin & Hout & Hdom).
    { intros a b. apply append_inj_r. }
    { apply range_NoDup. }
    rewrite range_list_to_map in Hin.
    assert (Hkeep : ∀ k, k ∈ ["hostname"; "filename"; "size"; "error"] →
              foldl (λ x kv, <[kv.1 +:+ "sum" := JBytes kv.2]> x) fixed
                    (range ro (default ∅ sums)) !! k = fixed !! k).
    { intros k Hk. apply Hout. intros a <-. by apply sum_not_fixed in Hk. }
    exists (foldl (λ x kv, <[kv.1 +:+ "sum" := JBytes kv.2]> x) fixed
              (range ro (default ∅ sums))).
    split; [by destruct (json_Encode _ _)|].
    rewrite !Hkeep, !Hfixed by (rewrite !elem_of_cons; tauto).
    split; [done|]. split; [done|]. split; [done|]. split; [done|]. split.
    + intros a. rewrite (Hin a), Hsum. by destruct (default ∅ sums !! a).
    + intros k [Hk|Hk]%Hdom; [left|by right].
      destruct Hk as [v Hk]. rewrite Hfixed in Hk. rewrite !elem_of_cons.
      repeat case_decide; try done; tauto.
Qed.

End JsonFacts.

(** ** The second run of [Parallel] reads no file *)

Section TwoRuns.

Context {D : Type} `{HD : hash_Hash D}.
Variables (ro : RangeOrder) (srv : @serverImpl D world).
Hypothesis contract : hash_contract (D:=D).
Hypothesis Hcache : cache srv = Some (xattr_Cache ro newXattrCache).
Hypothesis Hne : algorithms srv ≠ ∅.
Hypothesis Hvoc : ∀ a, a ∈ dom (algorithms srv) → a ≠ "" ∧ a ≠ "time".

Lemma xattr_Set_others w f n v g :
  g ≠ f → w_files (xattr_Set w f n v).1 !! g = w_files w !! g.
Proof.
  intros Hg. unfold xattr_Set. destruct (w_files w !! f) as [ino|]; [|done].
  destruct (i_xattr_err ino); [done|]. cbn [fst set_xattr w_files].
  by rewrite lookup_insert_ne.
Qed.

Lemma Set_loop_others c w f kvs g :
  g ≠ f → w_files (Set_loop c w f kvs).1 !! g = w_files w !! g.
Proof.
  intros Hg. revert w. induction kvs as [|[a v] kvs IH]; intros w; [done|].
  cbn [Set_loop]. unfold Set_.
  pose proof (xattr_Set_others w f (name (attrs c) a) v g Hg) as Hset.
  destruct (xattr_Set w f (name (attrs c) a) v) as [w1 [err|]]; [done|].
  by rewrite IH.
Qed.

Lemma xattrCache_Set_others c w f sums g :
  g ≠ f → w_files (xattrCache_Set ro c w f sums).1 !! g = w_files w !! g.
Proof.
  intros Hg. unfold xattrCache_Set.
  pose proof (Set_loop_others c w f (range ro (default ∅ sums)) g Hg) as Hloop.
  destruct (Set_loop c w f (range ro (default ∅ sums))) as [w1 [err|]]; [done|].
  unfold Set_. cbn [fst] in Hloop.
  by rewrite xattr_Set_others, Hloop.
Qed.

(** [Get] on a file with an entry of the current second. *)
Lemma has_entry_cached w f ino :
  w_files w !! f = Some ino → settled w ino → entry_of srv w ino →
  ∃ m, cached ro srv w f (Some m).
Proof.
  intros Hino (_ & _ & _ & Hmod) [Htime Hall].
  destruct (xattrCache_Get_sums ro w f ino _ _ Hino Htime (timeFromBytes_timeToBytes _) Hmod)
    as (m & Hget & Hm).
  exists m, (xattr_Cache ro newXattrCache). split; [done|]. split; [done|].
  apply missing_false. intros a Ha. cbn [gomap_has]. apply bool_decide_eq_true.
  destruct (Hvoc a Ha) as [Hempty Htm]. rewrite Hm, !decide_False by done. by apply Hall.
Qed.

Lemma usable_do_Get w f :
  usable srv w f →
  ∃ ws, do_Get ro srv w f = Ret (w, ws)
        ∧ (ws = WHash f ∨ ∃ r, ws = WSend r ∧ r_filename r = f ∧ result_ok srv w r).
Proof.
  intros (ino & Hino & Hset & [Hno|Hentry]).
  - exists (WHash f). split; [|by left]. unfold do_Get. rewrite Hcache.
    cbn [Cache_Get xattr_Cache]. unfold xattrCache_Get, os_Stat, Get, xattr_Get.
    rewrite Hino. change (name _ "time") with "user.xsum.time". by rewrite Hno.
  - destruct (has_entry_cached w f ino Hino Hset Hentry) as (m & c & Hc & Hget & Hmiss).
    exists (WSend (mkresult f (Some m) None)). split.
    + unfold do_Get. by rewrite Hc, Hget, Hmiss.
    + right. eexists. split; [done|]. split; [done|]. split; [done|]. by exists ino.
Qed.

Lemma usable_do_Hash w f :
  usable srv w f →
  ∃ m, do_Hash ro srv w f
       = ({| w_files := w_files w; w_now := w_now w; w_opened := w_opened w ++ [f] |},
          WSet f (Some m))
       ∧ dom m = dom (algorithms srv).
Proof.
  intros (ino & Hino & (Hopen & Hfinal & _) & _). unfold do_Hash, hashFile.
  cbn [os_Open world_Env]. unfold world_Open. rewrite Hino, Hopen, Hfinal.
  rewrite io_Copy_contract; [|done|].
  - rewrite Hcache. eexists. split; [done|].
    by rewrite MultiSum_dom, dom_fmap_L, NewHash_dom.
  - intros Hempty. apply Hne. apply dom_empty_iff_L.
    by rewrite <- (NewHash_dom ro), Hempty, dom_empty_L.
Qed.

Lemma usable_do_Set w f m :
  usable srv w f → dom m = dom (algorithms srv) →
  ∃ w', do_Set srv w f (Some m) = Ret (w', WSend (mkresult f (Some m) None))
        ∧ has_entry srv w' f
        ∧ (∀ g, usable srv w g → usable srv w' g)
        ∧ (∀ g, has_entry srv w g → has_entry srv w' g).
Proof.
  intros (ino & Hino & (Hopen & Hfinal & Herr & Hmod) & _) Hdom.
  destruct (xattrCache_Set_spec ro newXattrCache w f (Some m) ino Hino Herr)
    as (w' & ino' & Hset & Hfixed & Hino' & Htime & Hin & _).
  destruct (fixed_part_file w w' f ino Hfixed Hino)
    as (Hnow & _ & ino'' & Hino'' & Hmod' & Hopen' & _ & Hfinal' & Herr').
  rewrite Hino' in Hino''. injection Hino'' as <-.
  assert (Hentry : entry_of srv w' ino').
  { split; [by rewrite Hnow|]. intros a Ha. destruct (Hvoc a Ha) as [Hempty Htm].
    rewrite <- (name_newXattrCache a Hempty), (Hin a Htm). cbn [default from_option id].
    apply elem_of_dom in Ha as Ha'. rewrite <- Hdom in Ha. apply elem_of_dom in Ha as [v ->].
    by eexists. }
  assert (Hsettled : settled w' ino').
  { unfold settled. rewrite Hnow. repeat split; congruence || lia. }
  assert (Hother : ∀ g, g ≠ f → w_files w' !! g = w_files w !! g).
  { intros g Hg. pose proof (xattrCache_Set_others newXattrCache w f (Some m) g Hg) as Ho.
    by rewrite Hset in Ho. }
  exists w'. split; [|split; [|split]].
  - unfold do_Set. rewrite Hcache. cbn [Cache_Set xattr_Cache]. by rewrite Hset.
  - by exists ino'.
  - intros g (inog & Hg & Hsg & Hcase). destruct (decide (g = f)) as [->|Hgf].
    + exists ino'. split; [done|]. split; [done|]. by right.
    + exists inog. rewrite Hother by done. split; [done|].
      unfold settled, entry_of in *. rewrite Hnow. by split.
  - intros g (inog & Hg & Heg). destruct (decide (g = f)) as [->|Hgf].
    + by exists ino'.
    + exists inog. rewrite Hother by done. split; [done|].
      unfold entry_of in *. by rewrite Hnow.
Qed.

Variables (numWorkers : nat) (filenames : list string).

Lemma result_ok_opened w f r :
  result_ok srv w r →
  result_ok srv {| w_files := w_files w; w_now := w_now w; w_opened := w_opened w ++ [f] |} r.
Proof. done. Qed.

Lemma worker_ok_mono w w' ws :
  (∀ g, has_entry srv w g → has_entry srv w' g) →
  worker_ok srv filenames w ws → worker_ok srv filenames w' ws.
Proof.
  intros Hmono. destruct ws; cbn [worker_ok]; try done.
  intros [? ?]. split; [done|]. by apply Hmono.
Qed.

Lemma first_run_step s s' :
  step ro srv numWorkers s s' →
  first_run_inv srv filenames s → first_run_inv srv filenames s'.
Proof.
  intros Hstep [Hf Ht Hw Hc Hcalls].
  destruct Hstep as [| | | |e e' f ws' todo ch cl ws1 ws2 c calls rc m Hdo
                     |e e' f ws' todo ch cl ws1 ws2 c calls rc m Hdo
                     |e e' f sums ws' todo ch cl ws1 ws2 c calls rc m Hdo| | | | |];
    cbn [p_env p_todo p_fileChan p_workers p_consumer p_calls] in *;
    rewrite ?Forall_app, ?Forall_cons in *;
    cbn [worker_ok] in *.
  5: { (* Get *)
    destruct Hw as (Hw1 & Hf0 & Hw2).
    destruct (usable_do_Get e f (Hf f Hf0)) as (ws & Hget & Hws).
    rewrite Hget in Hdo. injection Hdo as <- <-.
    constructor; cbn [p_env p_todo p_fileChan p_workers p_consumer p_calls];
      rewrite ?Forall_app, ?Forall_cons; try done.
    split; [done|]. split; [|done].
    destruct Hws as [->|(r & -> & _ & Hr)]; done. }
  5: { (* Hash *)
    destruct Hw as (Hw1 & Hf0 & Hw2).
    destruct (usable_do_Hash e f (Hf f Hf0)) as (m0 & Hhash & Hdom).
    rewrite Hhash in Hdo. injection Hdo as <- <-.
    constructor; cbn [p_env p_todo p_fileChan p_workers p_consumer p_calls];
      rewrite ?Forall_app, ?Forall_cons; try done.
    split; [done|]. split; [|done]. cbn [worker_ok]. by eauto. }
  5: { (* Set *)
    destruct Hw as (Hw1 & (Hf0 & m0 & -> & Hdom) & Hw2).
    destruct (usable_do_Set e f m0 (Hf f Hf0) Hdom) as (w' & Hset & Hentry & Hus & Hmono).
    rewrite Hset in Hdo. injection Hdo as <- <-.
    assert (Hres : ∀ r, result_ok srv e r → result_ok srv w' r).
    { intros r [? ?]. split; [done|]. by apply Hmono. }
    constructor; cbn [p_env p_todo p_fileChan p_workers p_consumer p_calls];
      rewrite ?Forall_app, ?Forall_cons.
    - intros g Hg. by apply Hus, Hf.
    - done.
    - split; [|split].
      + eapply Forall_impl; [exact Hw1|]. intros ws. by apply worker_ok_mono.
      + by split.
      + eapply Forall_impl; [exact Hw2|]. intros ws. by apply worker_ok_mono.
    - destruct c; try done. by apply Hres.
    - eapply Forall_impl; [exact Hcalls|]. exact Hres. }
  all: constructor; cbn [p_env p_todo p_fileChan p_workers p_consumer p_calls];
    rewrite ?Forall_app, ?Forall_cons, ?Forall_nil; cbn [worker_ok]; tauto.
Qed.

Lemma first_run_nsteps k s s' :
  nsteps (step ro srv numWorkers) k s s' →
  first_run_inv srv filenames s → first_run_inv srv filenames s'.
Proof. induction 1; eauto using first_run_step. Qed.

Lemma first_run_start w0 :
  (∀ f, f ∈ filenames → fresh_file w0 f) →
  first_run_inv srv filenames
    (PState w0 filenames [] false (replicate numWorkers WRecv) CRecv [] false MWait).
Proof.
  intros Hfresh.
  constructor; cbn [p_env p_todo p_fileChan p_workers p_consumer p_calls]; try done.
  - intros f (ino & Hino & Hs & Hno)%Hfresh. exists ino. by eauto.
  - rewrite app_nil_r. by apply Forall_forall.
  - by apply Forall_replicate.
Qed.

(** After the first run every file has its entry, and [Get] answers
    from it. *)
Lemma first_run_cached s :
  (0 < numWorkers)%nat →
  Parallel_inv filenames numWorkers s → first_run_inv srv filenames s →
  p_main s = MReturned →
  (∀ f, f ∈ filenames → has_entry srv (p_env s) f)
  ∧ (∀ f, f ∈ filenames → ∃ sums, cached ro srv (p_env s) f sums).
Proof.
  intros Hpos Hinv [Hf _ _ _ Hcalls] Hm.
  pose proof (returned_calls _ filenames s Hpos Hinv Hm) as Hperm.
  assert (Hentry : ∀ f, f ∈ filenames → has_entry srv (p_env s) f).
  { intros f Hin. rewrite <- Hperm in Hin. apply list_elem_of_fmap in Hin as (r & -> & Hr).
    rewrite Forall_forall in Hcalls. by destruct (Hcalls r Hr). }
  split; [done|]. intros f Hin.
  destruct (Hentry f Hin) as (ino & Hino & He).
  destruct (Hf f Hin) as (ino' & Hino' & Hs & _).
  rewrite Hino in Hino'. injection Hino' as <-.
  destruct (has_entry_cached (p_env s) f ino Hino Hs He) as [m Hm']. by eauto.
Qed.

End TwoRuns.

Section TwoRunsClaim.

Context {D : Type} `{HD : hash_Hash D}.

(** X25: two runs of [Parallel] with the cache in extended attributes, for
    primitives that keep the promises of [hash.Hash].  If every file of the
    list exists, can be read, has attributes that can be changed, was not
    modified after the start of the current second and has no entry yet,
    then, whatever the interleaving, the first run passes a result without
    error for every file and leaves, on every file, an entry with a digest
    of every algorithm; and a second run on what the first has left
    answers from these entries: under every interleaving no worker comes
    to hash a file or to call [Set], no file is opened, no attribute is
    written, and no result has an error. *)
Theorem second_run_reads_no_file ro (P : @Primitives D) algs (srv : @serverImpl D world)
    numCPU w0 filenames :
  hash_contract (D:=D) →
  NewServer P (Some (xattr_Cache ro newXattrCache)) algs = inl srv →
  algs ≠ [] →
  (∀ f, f ∈ filenames → fresh_file w0 f) →
  ∃ n s0,
    NumberOfWorkers numCPU srv = Ret n
    ∧ Parallel_start srv numCPU w0 filenames = Ret s0
    ∧ ∀ k s,
        nsteps (step ro srv (Z.to_nat n)) k s0 s →
        p_main s = MReturned →
        (∀ f, f ∈ filenames → has_entry srv (p_env s) f)
        ∧ Forall (λ r, r_err r = None) (p_calls s)
        ∧ ∃ s1,
            Parallel_start srv numCPU (p_env s) filenames = Ret s1
            ∧ ∀ k' s',
                nsteps (step ro srv (Z.to_nat n)) k' s1 s' →
                p_env s' = p_env s
                ∧ Forall (λ w, is_hashing w = false) (p_workers s')
                ∧ Forall (λ r, r_err r = None) (p_calls s').
Proof.
  intros Hcontract Hnew Halgs Hfresh.
  destruct (NewServer_algorithms P _ algs srv Hnew) as (Hvocab & Hcache & Hdom).
  assert (Hne : algorithms srv ≠ ∅).
  { intros Hempty. apply (f_equal dom) in Hempty. rewrite Hdom, dom_empty_L in Hempty.
    destruct algs as [|a algs]; [done|]. cbn in Hempty.
    apply (f_equal (λ X : gset string, a ∈ X)) in Hempty.
    assert (a ∈ ({[a]} ∪ list_to_set algs : gset string)) as Ha by (apply elem_of_union_l, elem_of_singleton_2; done).
    rewrite Hempty in Ha. by apply not_elem_of_empty in Ha. }
  assert (Hvoc : ∀ a, a ∈ dom (algorithms srv) → a ≠ "" ∧ a ≠ "time").
  { intros a Ha. rewrite Hdom, elem_of_list_to_set in Ha.
    rewrite Forall_forall in Hvocab. specialize (Hvocab a Ha). split.
    - by apply (not_algorithm "" empty_not_algorithm).
    - by apply (not_algorithm "time" time_not_algorithm). }
  destruct (NumberOfWorkers_returns numCPU srv Hne) as [n Hn].
  exists n. eexists. split; [done|]. unfold Parallel_start. rewrite Hn. split; [done|].
  assert (Hpos : (0 < Z.to_nat n)%nat).
  { apply NumberOfWorkers_values in Hn as [->| ->]; lia. }
  intros k s Hsteps Hm.
  pose proof (nsteps_inv ro srv _ filenames _ _ _ Hsteps (start_inv _ filenames w0)) as Hinv.
  pose proof (first_run_nsteps ro srv Hcontract Hcache Hne Hvoc _ filenames _ _ _ Hsteps
                (first_run_start srv _ filenames w0 Hfresh)) as Hfirst.
  destruct (first_run_cached ro srv Hcache Hvoc _ filenames s Hpos Hinv Hfirst Hm)
    as [Hentries Hcached].
  split; [done|]. split.
  { destruct Hfirst as [_ _ _ _ Hcalls]. eapply Forall_impl; [exact Hcalls|]. by intros r [? _]. }
  eexists. split; [done|]. intros k' s' Hsteps'.
  pose proof (warm_nsteps ro srv (p_env s) _ filenames Hcached _ _ _ Hsteps'
                (warm_start ro srv (p_env s) _ filenames)) as [He _ Hw _ Hcalls'].
  split; [done|]. split; [by eapply warm_not_hashing|].
  eapply Forall_impl; [exact Hcalls'|]. by intros r [? _].
Qed.

End TwoRunsClaim.

(** X25, on the engine for md5 with the cache and the file "/f" without
    an entry. *)
Lemma second_run_reads_no_file_witness :
  ∃ (srv : @serverImpl bufhash world) n s0,
    NewServer bufhash_Primitives (Some (xattr_Cache listing_order newXattrCache)) ["md5"]
    = inl srv
    ∧ NumberOfWorkers 8 srv = Ret n
    ∧ Parallel_start srv 8 (one_file 1 ∅ None) ["/f"] = Ret s0
    ∧ ∀ k s,
        nsteps (step listing_order srv (Z.to_nat n)) k s0 s →
        p_main s = MReturned →
        has_entry srv (p_env s) "/f".
Proof.
  eexists. 
  assert (Hnew : NewServer bufhash_Primitives
                   (Some (xattr_Cache listing_order newXattrCache)) ["md5"]
                 = inl (add_closer (set_algorithm
                          {| cache := Some (xattr_Cache listing_order newXattrCache);
                             algorithms := ∅; closers := [] |}
                          "md5" (md5simd_NewHash bufhash_Primitives)) (λ _, None)))
    by reflexivity.
  destruct (second_run_reads_no_file listing_order bufhash_Primitives ["md5"] _ 8
              (one_file 1 ∅ None) ["/f"] bufhash_contract Hnew)
    as (n & s0 & Hn & Hs0 & Hrun).
  - discriminate.
  - intros f Hf. apply elem_of_cons in Hf as [->|Hf]; [|by apply elem_of_nil in Hf].
    exists {| i_modtime := 1000000000; i_open := None;
              i_chunks := [[Byte.x61; Byte.x62]]; i_final := None;
              i_xattr := ∅; i_xattr_err := None |}.
    split; [reflexivity|]. split; [|reflexivity].
    split; [reflexivity|]. split; [reflexivity|]. split; [reflexivity|].
    vm_compute. discriminate.
  - exists n, s0. split; [exact Hnew|]. split; [exact Hn|]. split; [exact Hs0|].
    intros k s Hsteps Hm. destruct (Hrun k s Hsteps Hm) as (Hentry & _).
    apply Hentry. by left.
Defined.

(** ** [Reset] *)

Section ResetFacts.

Context {D : Type} `{HD : hash_Hash D} {E : Type} `{HE : Env E}.
Implicit Types (h : gmap string D) (srv : @serverImpl D E).

Lemma Write_loop_Reset kds p h n :
  (∀ (d : D) p, prim_Reset (prim_Write d p).1 = prim_Reset d) →
  (∀ k d, (k, d) ∈ kds → prim_Reset <$> h !! k = Some (prim_Reset d)) →
  prim_Reset <$> (Write_loop kds p h n).1 = prim_Reset <$> h.
Proof.
  intros Hreset. revert h n. induction kds as [|[k d] kds IH]; intros h n Hkds; [done|].
  assert (Hstep : prim_Reset <$> <[k := (prim_Write d p).1]> h = prim_Reset <$> h).
  { rewrite fmap_insert, Hreset. apply insert_id. rewrite lookup_fmap.
    apply Hkds. by left. }
  cbn [Write_loop]. destruct (prim_Write d p) as [d' [n' [e|]]] eqn:Hw; cbn [fst] in *.
  - done.
  - rewrite IH; [done|]. intros k0 d0 Hin. rewrite <- lookup_fmap, Hstep, lookup_fmap.
    apply Hkds. by right.
Qed.

(** X26: a [hashImpl] can be used again after [Reset].  For primitives
    whose [Reset] forgets what was written and leaves a new primitive
    as it is, [Reset] of a [hashImpl] of the engine, whatever was written
    to it, with or without error, is a new [hashImpl] of the engine. *)
Theorem Reset_renews ro ro' srv h :
  (∀ (d : D) p, prim_Reset (prim_Write d p).1 = prim_Reset d) →
  (∀ k f, algorithms srv !! k = Some f → prim_Reset (f ()) = f ()) →
  hash_of srv h →
  Reset ro h = NewHash ro' srv.
Proof.
  intros Hreset Hnew Hh. rewrite Reset_fmap.
  assert (Hinit : ∀ r, prim_Reset <$> NewHash r srv = NewHash ro' srv).
  { intros r. rewrite !NewHash_fmap, <- map_fmap_compose. apply map_eq. intros k.
    rewrite !lookup_fmap. destruct (algorithms srv !! k) as [f|] eqn:Hk; [|done].
    cbn. f_equal. by apply (Hnew k). }
  induction Hh as [r|r h p Hh IH|r h Hh IH].
  - apply Hinit.
  - rewrite <- IH. unfold Write. apply Write_loop_Reset; [done|].
    intros k d Hkd%elem_of_range. by rewrite Hkd.
  - rewrite Reset_fmap, IH. apply Hinit.
Qed.

End ResetFacts.

(** X26, on the engine for md5 and sha256 after one write. *)
Lemma Reset_renews_witness :
  Reset listing_order
    (Write listing_order (NewHash listing_order md5_sha256_server) [Byte.x61]).1
  = NewHash listing_order md5_sha256_server.
Proof.
  apply (Reset_renews listing_order listing_order md5_sha256_server).
  - intros [tag buf closed] p. cbn. unfold sumhash_Write. cbn. by destruct closed.
  - intros k f Hk. unfold md5_sha256_server in Hk. cbn [algorithms] in Hk.
    apply lookup_insert_Some in Hk as [[_ <-]|[_ Hk]]; [done|].
    apply lookup_insert_Some in Hk as [[_ <-]|[_ Hk]]; [done|].
    by rewrite lookup_empty in Hk.
  - apply hash_of_Write, hash_of_NewHash.
Defined.

(** ** Namespaces of [attrutil] *)

Section NSFacts.

Variable ro : RangeOrder.
Implicit Types (a : osXattr) (w : world).

Lemma ns_NS a y :
  Trim_dot y ≠ "" → ns_prefix (NS a y) = ns_prefix a +:+ Trim_dot y +:+ ".".
Proof.
  intros Hy. unfold NS, ns_prefix. destruct (String.eqb_spec (ns a) "") as [Hns|Hns]; cbn [ns].
  - by destruct (String.eqb_spec (Trim_dot y) "").
  - destruct (String.eqb_spec (ns a +:+ "." +:+ Trim_dot y) "") as [Heq|_].
    + apply (f_equal String.length) in Heq. rewrite append_length in Heq.
      destruct (ns a); [done|]. cbn in Heq. lia.
    + by rewrite !append_assoc.
Qed.

Lemma name_NS a y k :
  Trim_dot y ≠ "" → k ≠ "" → name (NS a y) k = name a (Trim_dot y +:+ "." +:+ k).
Proof.
  intros Hy Hk. rewrite (name_prefix (NS a y) k Hk), ns_NS by done.
  rewrite name_prefix.
  - by rewrite !append_assoc.
  - intros Heq. apply (f_equal String.length) in Heq. rewrite append_length in Heq.
    destruct (Trim_dot y); [done|]. cbn in Heq. lia.
Qed.

(** X27: a namespace within a namespace.  An attribute of [a.NS(y)] under
    a name [k] is the attribute of [a] under the name made of [y] without
    the dots at its ends, a dot and [k]: [Get], [Set] and [Delete] of the
    one are those of the other, and [List] of [a.NS(y)] has [k] exactly
    when [List] of [a] has that name. *)
Theorem NS_view a y w path k :
  Trim_dot y ≠ "" →
  k ≠ "" →
  Get (NS a y) w path k = Get a w path (Trim_dot y +:+ "." +:+ k)
  ∧ (∀ v, Set_ (NS a y) w path k v = Set_ a w path (Trim_dot y +:+ "." +:+ k) v)
  ∧ Delete (NS a y) w path k = Delete a w path (Trim_dot y +:+ "." +:+ k)
  ∧ match List ro (NS a y) w path, List ro a w path with
    | inl sub, inl keys => k ∈ sub ↔ Trim_dot y +:+ "." +:+ k ∈ keys
    | inr e1, inr e2 => e1 = e2
    | _, _ => False
    end.
Proof.
  intros Hy Hk. unfold Get, Set_, Delete. rewrite (name_NS a y k Hy Hk).
  split; [done|]. split; [done|]. split; [done|].
  destruct (w_files w !! path) as [ino|] eqn:Hino.
  - destruct (List_present ro (NS a y) w path ino Hino) as (sub & -> & _ & Hsub).
    destruct (List_present ro a w path ino Hino) as (keys & -> & _ & Hkeys).
    by rewrite Hsub, Hkeys, ns_NS, !append_assoc.
  - by rewrite !List_missing.
Qed.

End NSFacts.

(** X27, on the namespace "xsum" of the namespace "user" and the digest of
    md5 of "/f". *)
Lemma NS_view_witness :
  Get (NS (NS Xattr "user") ".xsum.") partial_world "/f" "md5" = inl [Byte.x01; Byte.xc3].
Proof.
  destruct (NS_view listing_order (NS Xattr "user") ".xsum." partial_world "/f" "md5")
    as (Hget & _).
  - discriminate.
  - discriminate.
  - rewrite Hget. reflexivity.
Defined.

(** ** [ListNS] *)

Lemma SplitN2_dot_cons_inv c s p rest :
  Ascii.eqb c "." = false →
  match SplitN2_dot s with
  | p' :: rest' => String c p' :: rest'
  | [] => [String c ""]
  end = p :: rest →
  ∃ p', p = String c p' ∧ SplitN2_dot s = p' :: rest.
Proof.
  intros Hc Heq. destruct s as [|d s].
  - cbn in Heq. injection Heq as <- <-. by exists "".
  - destruct (SplitN2_dot (String d s)) as [|p' rest'] eqn:Hs.
    + cbn [SplitN2_dot] in Hs. destruct (Ascii.eqb d "."); [done|].
      by destruct (SplitN2_dot s).
    + injection Heq as <- <-. by exists p'.
Qed.

Lemma SplitN2_dot_inv key p rest :
  SplitN2_dot key = [p; rest] → key = p +:+ "." +:+ rest ∧ SplitN2_dot p = [p].
Proof.
  revert p. induction key as [|c key IH]; intros p Hsplit; [done|].
  cbn [SplitN2_dot] in Hsplit. destruct (Ascii.eqb c ".") eqn:Hc.
  - injection Hsplit as <- <-. apply Ascii.eqb_eq in Hc as ->. done.
  - apply SplitN2_dot_cons_inv in Hsplit as (p' & -> & Hkey); [|done].
    destruct (IH p' Hkey) as [-> Hp']. split; [done|].
    cbn [SplitN2_dot]. by rewrite Hc, Hp'.
Qed.

Lemma SplitN2_dot_append n t :
  SplitN2_dot n = [n] → SplitN2_dot (n +:+ "." +:+ t) = [n; t].
Proof.
  induction n as [|c n IH]; intros Hn; [done|].
  cbn [SplitN2_dot] in Hn. rewrite append_cons. cbn [SplitN2_dot].
  destruct (Ascii.eqb c ".") eqn:Hc; [done|].
  apply SplitN2_dot_cons_inv in Hn as (p' & [= <-] & Hn); [|done].
  by rewrite (IH Hn).
Qed.

Lemma namespace_of_iff n key :
  SplitN2_dot n = [n] →
  namespace_of key = Some n ↔ HasPrefix key (n +:+ ".") = true.
Proof.
  intros Hn. unfold namespace_of. split.
  - destruct (SplitN2_dot key) as [|p [|rest [|? ?]]] eqn:Hkey; try done.
    intros [= ->]. apply SplitN2_dot_inv in Hkey as [-> _].
    rewrite <- append_assoc. apply HasPrefix_append.
  - intros [t ->]%HasPrefix_iff. by rewrite append_assoc, SplitN2_dot_append.
Qed.

Lemma namespace_of_no_dot key n : namespace_of key = Some n → SplitN2_dot n = [n].
Proof.
  unfold namespace_of.
  destruct (SplitN2_dot key) as [|p [|rest [|? ?]]] eqn:Hkey; try done.
  intros [= ->]. by apply SplitN2_dot_inv in Hkey as [_ ?].
Qed.

Lemma ListNS_loop_omap allKeys prefix acc :
  ListNS_loop allKeys prefix acc
  = acc ++ omap namespace_of
             ((λ k, TrimPrefix k prefix) <$> filter (λ k, HasPrefix k prefix = true) allKeys).
Proof.
  revert acc. induction allKeys as [|k ks IH]; intros acc; cbn [ListNS_loop].
  - by rewrite filter_nil, app_nil_r.
  - rewrite filter_cons. destruct (HasPrefix k prefix) eqn:Hk.
    + rewrite decide_True by done. rewrite fmap_cons. cbn [omap list_omap].
      unfold namespace_of.
      destruct (SplitN2_dot (TrimPrefix k prefix)) as [|p [|rest [|? ?]]];
        rewrite IH; try done.
      by rewrite <- app_assoc.
    + rewrite decide_False by done. apply IH.
Qed.

Section ListNSFacts.

Variable ro : RangeOrder.
Implicit Types (a : osXattr) (w : world).

(** [ListNS] by [List]. *)
Lemma ListNS_List a w path :
  match ListNS ro a w path, List ro a w path with
  | inl namespaces, inl keys => namespaces = omap namespace_of keys
  | inr e1, inr e2 => e1 = e2
  | _, _ => False
  end.
Proof.
  unfold ListNS, List. destruct (xattr_List ro w path) as [allKeys|err]; [|done].
  by rewrite ListNS_loop_omap, List_loop_filter.
Qed.

(** X28: [ListNS] fails as [List] does; otherwise it returns the
    namespace of every name that [List] returns and that has a dot, in the
    order of [List]: names without a dot, and a namespace is in the list
    as many times as [List] has names in it, not once. *)
Theorem ListNS_counts a w path :
  match ListNS ro a w path, List ro a w path with
  | inl namespaces, inl keys =>
      namespaces = omap namespace_of keys
      ∧ (∀ n, n ∈ namespaces → SplitN2_dot n = [n])
      ∧ ∀ n, SplitN2_dot n = [n] →
          length (filter (λ x, x = n) namespaces)
          = length (filter (λ key, HasPrefix key (n +:+ ".") = true) keys)
  | inr e1, inr e2 => e1 = e2
  | _, _ => False
  end.
Proof.
  pose proof (ListNS_List a w path) as HL.
  destruct (ListNS ro a w path) as [namespaces|e1], (List ro a w path) as [keys|e2];
    try done.
  subst namespaces. split; [done|]. split.
  - intros n (key & _ & Hkey)%list_elem_of_omap. by eapply namespace_of_no_dot.
  - intros n Hn. induction keys as [|key keys IH]; [done|].
    cbn [omap list_omap]. rewrite (filter_cons (λ key, HasPrefix key _ = true)).
    pose proof (namespace_of_iff n key Hn) as Hiff.
    destruct (namespace_of key) as [p|] eqn:Hp.
    + rewrite filter_cons. destruct (decide (p = n)) as [->|Hne].
      * rewrite decide_True by (by apply Hiff). cbn [length]. by rewrite IH.
      * rewrite decide_False; [done|]. intros Hpre%Hiff. congruence.
    + rewrite decide_False; [done|]. intros Hpre%Hiff. congruence.
Qed.

Lemma ListNS_elem a w path ino :
  w_files w !! path = Some ino →
  ∃ namespaces,
    ListNS ro a w path = inl namespaces
    ∧ ∀ n, SplitN2_dot n = [n] →
        n ∈ namespaces ↔ ∃ t, is_Some (i_xattr ino !! (ns_prefix a +:+ n +:+ "." +:+ t)).
Proof.
  intros Hino. pose proof (ListNS_List a w path) as Hcounts.
  destruct (List_present ro a w path ino Hino) as (keys & HList & _ & Hkeys).
  rewrite HList in Hcounts. destruct (ListNS ro a w path) as [namespaces|]; [|done].
  subst namespaces. eexists. split; [done|]. intros n Hn.
  rewrite list_elem_of_omap. split.
  - intros (key & Hkey & Hns). apply (namespace_of_iff n key Hn), HasPrefix_iff in Hns as [t ->].
    exists t. apply Hkeys in Hkey. by rewrite append_assoc in Hkey.
  - intros [t Ht]. exists (n +:+ "." +:+ t). split; [by apply Hkeys|].
    apply (namespace_of_iff n _ Hn). rewrite <- append_assoc. apply HasPrefix_append.
Qed.

(** X29: [DeleteNS] then [ListNS], without a namespace of [a].  On an
    existing file whose attributes can be changed, after [DeleteNS] of a
    namespace without a dot [ListNS] no longer has it, and it has every
    other namespace that it had before, and no new one. *)
Theorem DeleteNS_then_ListNS a w path n ino :
  ns a = "" →
  w_files w !! path = Some ino →
  i_xattr_err ino = None →
  SplitN2_dot n = [n] →
  ∃ w' before after,
    ListNS ro a w path = inl before
    ∧ DeleteNS ro a w path n = (w', None)
    ∧ ListNS ro a w' path = inl after
    ∧ (n ∉ after)
    ∧ ∀ n', n' ≠ n → (n' ∈ after ↔ n' ∈ before).
Proof.
  intros Hns Hino Herr Hn.
  destruct (ListNS_elem a w path ino Hino) as (before & Hbefore & Hb).
  destruct (DeleteNS_spec ro a w path n ino Hino Herr) as (w' & ino' & Hdel & _ & Hino' & _ & Hx).
  destruct (ListNS_elem a w' path ino' Hino') as (after & Hafter & Ha).
  assert (Hprefix : ns_prefix a = "") by (unfold ns_prefix; by rewrite Hns).
  assert (Hname : name a n = n) by (unfold name; by rewrite Hns).
  rewrite Hprefix, Hname in Hx. rewrite Hprefix in Ha, Hb.
  assert (Hdot : ∀ m, m ∈ after ∨ m ∈ before → SplitN2_dot m = [m]).
  { intros m Hm. pose proof (ListNS_List a w path) as H1.
    pose proof (ListNS_List a w' path) as H2. rewrite Hbefore in H1. rewrite Hafter in H2.
    destruct (List ro a w path); [|done]. destruct (List ro a w' path); [|done].
    subst before after.
    destruct Hm as [(key & _ & Hkey)%list_elem_of_omap|(key & _ & Hkey)%list_elem_of_omap];
      by eapply namespace_of_no_dot. }
  exists w', before, after. split; [done|]. split; [done|]. split; [done|]. split.
  - intros [t Ht]%(Ha n Hn). rewrite Hx in Ht.
    change ("" +:+ n +:+ "." +:+ t) with (n +:+ "." +:+ t) in Ht.
    change ("" +:+ n +:+ ".") with (n +:+ ".") in Ht.
    rewrite <- append_assoc, HasPrefix_append in Ht. by destruct Ht.
  - intros n' Hne.
    assert (Hkeep : SplitN2_dot n' = [n'] → ∀ t,
              i_xattr ino' !! ("" +:+ n' +:+ "." +:+ t)
              = i_xattr ino !! ("" +:+ n' +:+ "." +:+ t)).
    { intros Hn' t. rewrite Hx.
      change ("" +:+ n' +:+ "." +:+ t) with (n' +:+ "." +:+ t).
      change ("" +:+ n +:+ ".") with (n +:+ ".").
      destruct (HasPrefix (n' +:+ "." +:+ t) (n +:+ ".")) eqn:Hpre; [|done].
      apply (namespace_of_iff n _ Hn) in Hpre. unfold namespace_of in Hpre.
      rewrite (SplitN2_dot_append n' t Hn') in Hpre. congruence. }
    split.
    + intros Hin. pose proof (Hdot n' (or_introl Hin)) as Hn'.
      apply (Hb n' Hn'). apply (Ha n' Hn') in Hin as [t Ht]. exists t.
      by rewrite <- (Hkeep Hn').
    + intros Hin. pose proof (Hdot n' (or_intror Hin)) as Hn'.
      apply (Ha n' Hn'). apply (Hb n' Hn') in Hin as [t Ht]. exists t.
      by rewrite (Hkeep Hn').
Qed.

End ListNSFacts.

(** X29, on "/f" with the entry of the cache and the namespace "user". *)
Lemma DeleteNS_then_ListNS_witness :
  ∃ w' after,
    ListNS listing_order Xattr partial_world "/f" = inl ["user"; "user"]
    ∧ DeleteNS listing_order Xattr partial_world "/f" "user" = (w', None)
    ∧ ListNS listing_order Xattr w' "/f" = inl after
    ∧ ("user" ∉ after).
Proof.
  destruct (DeleteNS_then_ListNS listing_order Xattr partial_world "/f" "user"
              {| i_modtime := 1000000000; i_open := None;
                 i_chunks := [[Byte.x61; Byte.x62]]; i_final := None;
                 i_xattr := <["user.xsum.time" := timeToBytes 2000000000]>
                              (<["user.xsum.md5" := [Byte.x01; Byte.xc3]]> ∅);
                 i_xattr_err := None |})
    as (w' & before & after & Hbefore & Hdel & Hafter & Hno & _).
  - reflexivity.
  - reflexivity.
  - reflexivity.
  - reflexivity.
  - exists w', after. split; [vm_compute; reflexivity|]. split; [exact Hdel|].
    split; [exact Hafter|exact Hno].
Defined.
